(** * Sidebar generation of the VitePress blog template

    A shallow embedding of [.vitepress/helpers/sidebar.ts]: the name
    normalizer [cleanName], the link resolver [getFileLink], the structural
    walk [generateSidebarItems], the tag scan [scanFilesForTags], the
    tag-group structurer ([insertPageIntoStructure],
    [generateTagsSidebarGroup]) and the entry point [generateSidebar].

    Conventions of the embedding.
    - A JavaScript string is a [string]; a character stands for one code
      unit below 256.  The regular expressions of the source only mention
      ASCII classes, so code units outside ASCII are never word characters,
      digits or separators.
    - The file system is a finite tree ([node]), each directory listing its
      entries in the order [fs.readdirSync] returns them.  Failures of
      [statSync], [readdirSync] and [readFileSync]/[matter] are part of the
      tree, so every path of the source's [try]/[catch] blocks can be taken.
    - Exceptions and [console] output are explicit: a computation is a
      function from the console to an [outcome] and a new console.
    - [String.prototype.localeCompare] depends on the host's collation and
      is a parameter of every definition that sorts.
    - The walks are written as the source writes them, in the monad of
      exceptions and console output.  Next to them stand the values they
      return ([walkItems], [scanTags], [sidebarValue]); the first theorems
      show that each walk returns its value, whatever the file system
      does, and the properties of the navigation model follow from
      there. *)

From Stdlib Require Import List String Ascii Bool ZArith Lia Arith.
From Stdlib Require Import Permutation Sorted.
From Stdlib Require OrderedTypeEx.
Import ListNotations.

Set Warnings "-register-all".

Local Open Scope string_scope.
Local Open Scope list_scope.

(** ** Code units and the character classes of the regular expressions *)

Module Chars.

Definition code (c : ascii) : nat := nat_of_ascii c.

Definition inRange (lo hi : nat) (c : ascii) : bool :=
  (lo <=? code c)%nat && (code c <=? hi)%nat.

(** [\d] *)
Definition isDigit (c : ascii) : bool := inRange 48 57 c.

Definition isUpper (c : ascii) : bool := inRange 65 90 c.
Definition isLower (c : ascii) : bool := inRange 97 122 c.

(** [\w], that is [[A-Za-z0-9_]] *)
Definition isWord (c : ascii) : bool :=
  isUpper c || isLower c || isDigit c || Ascii.eqb c "_".

(** [[_-]] and [[-_]] *)
Definition isSeparator (c : ascii) : bool :=
  Ascii.eqb c "_" || Ascii.eqb c "-".

(** White space removed by [String.prototype.trim]: TAB, LF, VT, FF, CR,
    SPACE and NBSP are the ones below 256. *)
Definition isWhiteSpace (c : ascii) : bool :=
  inRange 9 13 c || (code c =? 32)%nat || (code c =? 160)%nat.

Definition toUpperChar (c : ascii) : ascii :=
  if isLower c then ascii_of_nat (code c - 32) else c.

Definition toLowerChar (c : ascii) : ascii :=
  if isUpper c then ascii_of_nat (code c + 32) else c.

End Chars.

(** ** String primitives of the JavaScript runtime used by the source *)

Module Str.

Fixpoint map (f : ascii -> ascii) (s : string) : string :=
  match s with
  | EmptyString => EmptyString
  | String c r => String (f c) (map f r)
  end.

Fixpoint forallb (p : ascii -> bool) (s : string) : bool :=
  match s with
  | EmptyString => true
  | String c r => p c && forallb p r
  end.

Definition isEmpty (s : string) : bool :=
  match s with EmptyString => true | _ => false end.

Fixpoint rev_append (s acc : string) : string :=
  match s with
  | EmptyString => acc
  | String c r => rev_append r (String c acc)
  end.

Definition rev (s : string) : string := rev_append s EmptyString.

Fixpoint dropWhile (p : ascii -> bool) (s : string) : string :=
  match s with
  | EmptyString => EmptyString
  | String c r => if p c then dropWhile p r else s
  end.

(** [s.trim()] *)
Definition trim (s : string) : string :=
  rev (dropWhile Chars.isWhiteSpace (rev (dropWhile Chars.isWhiteSpace s))).

(** [s.toLowerCase()] and [s.toUpperCase()] on the ASCII letters.  The
    source lower-cases a name only to test whether it ends with [.md], and
    upper-cases only characters matched by [\w]; no other code unit
    lower-cases to a dot, an [m] or a [d]. *)
Definition toLowerCase (s : string) : string := map Chars.toLowerChar s.
Definition toUpperCase (s : string) : string := map Chars.toUpperChar s.

(** [s.startsWith(p)] *)
Definition startsWith (s p : string) : bool := String.prefix p s.

(** [s.endsWith(p)]: some suffix of [s] is [p]. *)
Fixpoint endsWith (s p : string) : bool :=
  String.eqb s p
  || match s with
     | EmptyString => false
     | String _ r => endsWith r p
     end.

(** [Some rest] when [s] is [p] followed by [rest]. *)
Fixpoint stripPrefix (p s : string) : option string :=
  match p, s with
  | EmptyString, _ => Some s
  | String a p', String b s' =>
      if Ascii.eqb a b then stripPrefix p' s' else None
  | String _ _, EmptyString => None
  end.

(** [s.split(sep)] for a one-character separator: the pieces between the
    occurrences of [sep], empty pieces included. *)
Fixpoint splitOn (sep : ascii) (s : string) : list string :=
  match s with
  | EmptyString => [EmptyString]
  | String c r =>
      if Ascii.eqb c sep then EmptyString :: splitOn sep r
      else match splitOn sep r with
           | [] => [String c EmptyString]
           | piece :: pieces => String c piece :: pieces
           end
  end.

(** [arr.filter(Boolean)] on an array of strings keeps the non-empty ones. *)
Definition filterBoolean (l : list string) : list string :=
  List.filter (fun s => negb (isEmpty s)) l.

(** Case-insensitive match of a whole string against a lower-case literal,
    as in [/^lit$/i.test(s)]. *)
Definition matchesIgnoreCase (lit s : string) : bool :=
  String.eqb (toLowerCase s) lit.

End Str.

(** ** Configuration *)

(** [const contentBaseUrl = '/'] *)
Definition contentBaseUrl : string := "/".

(** ** [cleanName] *)

(** [name.replace(/\.\w+$/, '')]: the first position at which a dot is
    followed by one or more word characters reaching the end of the string
    is where the string is cut. *)
Fixpoint removeExtension (s : string) : string :=
  match s with
  | EmptyString => EmptyString
  | String c r =>
      if Ascii.eqb c "." && negb (Str.isEmpty r) && Str.forallb Chars.isWord r
      then EmptyString
      else String c (removeExtension r)
  end.

(** [cleaned.replace(/^(\d+[_-]|[_-])/, '')]: at the start of the string,
    either a run of digits followed by a separator, or one separator. *)
Definition removeOrderingPrefix (s : string) : string :=
  match s with
  | EmptyString => s
  | String c r =>
      if Chars.isDigit c then
        match Str.dropWhile Chars.isDigit s with
        | String d r' => if Chars.isSeparator d then r' else s
        | EmptyString => s
        end
      else if Chars.isSeparator c then r
      else s
  end.

(** [cleaned.replace(/[-_]/g, ' ')] *)
Definition replaceSeparators (s : string) : string :=
  Str.map (fun c => if Chars.isSeparator c then " "%char else c) s.

(** [cleaned.replace(/\b\w/g, char => char.toUpperCase())]: a word character
    is upper-cased when it starts the string or follows a non-word
    character.  [prevWord] tells whether the previous character is a word
    character. *)
Fixpoint titleCaseFrom (prevWord : bool) (s : string) : string :=
  match s with
  | EmptyString => EmptyString
  | String c r =>
      let w := Chars.isWord c in
      String (if w && negb prevWord then Chars.toUpperChar c else c)
             (titleCaseFrom w r)
  end.

Definition titleCase (s : string) : string := titleCaseFrom false s.

Definition cleanName (name : string) : string :=
  let cleaned := removeExtension name in
  let cleaned := removeOrderingPrefix cleaned in
  let cleaned := replaceSeparators cleaned in
  let cleaned := titleCase cleaned in
  if Str.isEmpty (Str.trim cleaned) then name else Str.trim cleaned.

(** ** [path.extname] and [getFileLink] *)

(** The loop of Node's [path.posix.extname], which scans the path from its
    last character to its first.  Indices are [Z] because the source uses
    [-1] for "not seen yet". *)
Record extnameState : Type := mkExtnameState {
  startDot : Z;
  startPart : Z;
  endIdx : Z;
  matchedSlash : bool;
  preDotState : Z
}.

Definition extnameInit : extnameState :=
  mkExtnameState (-1) 0 (-1) true 0.

(** [chars] holds the characters at indices [i], [i-1], ..., [0]. *)
Fixpoint extnameLoop (chars : list ascii) (i : Z) (st : extnameState)
  : extnameState :=
  match chars with
  | [] => st
  | c :: rest =>
      if Ascii.eqb c "/" then
        if negb (matchedSlash st) then
          (* startPart = i + 1; break *)
          mkExtnameState (startDot st) (i + 1) (endIdx st)
                         (matchedSlash st) (preDotState st)
        else extnameLoop rest (i - 1) st
      else
        let st1 :=
          if (endIdx st =? -1)%Z
          then mkExtnameState (startDot st) (startPart st) (i + 1) false
                              (preDotState st)
          else st in
        let st2 :=
          if Ascii.eqb c "." then
            if (startDot st1 =? -1)%Z
            then mkExtnameState i (startPart st1) (endIdx st1)
                                (matchedSlash st1) (preDotState st1)
            else if negb (preDotState st1 =? 1)%Z
            then mkExtnameState (startDot st1) (startPart st1) (endIdx st1)
                                (matchedSlash st1) 1
            else st1
          else if negb (startDot st1 =? -1)%Z
          then mkExtnameState (startDot st1) (startPart st1) (endIdx st1)
                              (matchedSlash st1) (-1)
          else st1 in
        extnameLoop rest (i - 1) st2
  end.

Definition extname (path : string) : string :=
  let len := Z.of_nat (String.length path) in
  let st := extnameLoop (List.rev (list_ascii_of_string path)) (len - 1)
                        extnameInit in
  if (startDot st =? -1)%Z
     || (endIdx st =? -1)%Z
     || (preDotState st =? 0)%Z
     || ((preDotState st =? 1)%Z
         && (startDot st =? endIdx st - 1)%Z
         && (startDot st =? startPart st + 1)%Z)
  then EmptyString
  else String.substring (Z.to_nat (startDot st))
                        (Z.to_nat (endIdx st - startDot st)) path.

(** [filePath.substring(0, filePath.length - fileExtension.length)] *)
Definition fileNameWithoutExtension (filePath : string) : string :=
  String.substring 0
    (String.length filePath - String.length (extname filePath)) filePath.

(** [/^(index|readme)$/i.test(s)] *)
Definition isIndexOrReadme (s : string) : bool :=
  Str.matchesIgnoreCase "index" s || Str.matchesIgnoreCase "readme" s.

Definition getFileLink (filePath baseUrl : string) : string :=
  let stem := fileNameWithoutExtension filePath in
  if isIndexOrReadme stem then
    if String.eqb baseUrl (contentBaseUrl ++ "index/")
    then contentBaseUrl else baseUrl
  else baseUrl ++ stem.

(** ** The navigation model *)

(** [DefaultTheme.SidebarItem] as the source builds it: a leaf
    [{ text, link }] or a group [{ text, items, collapsed }]. *)
Inductive SidebarItem : Type :=
| Leaf (text link : string)
| Group (text : string) (items : list SidebarItem) (collapsed : bool).

(** [DefaultTheme.Sidebar]: an object from base paths to item lists. *)
Definition Sidebar : Type := list (string * list SidebarItem).

Definition itemText (it : SidebarItem) : string :=
  match it with Leaf t _ => t | Group t _ _ => t end.

(** [!!item.items] *)
Definition hasItems (it : SidebarItem) : bool :=
  match it with Leaf _ _ => false | Group _ _ _ => true end.

(** [item.link === pageLink] *)
Definition linkIs (pageLink : string) (it : SidebarItem) : bool :=
  match it with
  | Leaf _ l => String.eqb l pageLink
  | Group _ _ _ => false
  end.

(** ** The content tree *)

(** What [matter] makes of a [tags] field. *)
Inductive tagsField : Type :=
| TagsAbsent
| TagsString (s : string)
| TagsArray (elements : list string)   (* each element as [String(t)] gives it *)
| TagsOther (truthy : bool).           (* a number, a boolean, an object *)

(** The front matter of a file, as far as the source reads it.  [title] is
    [None] when the field is absent or not a string. *)
Record frontmatter : Type := mkFrontmatter {
  title : option string;
  tags : tagsField
}.

(** The text of a file, by what [matter] does with it. *)
Inductive fileContent : Type :=
| Malformed                       (* [matter] throws *)
| Parsed (fm : frontmatter).

(** What the walks can see at a path.  A symbolic link counts as what it
    points to.  The walks only go from a directory to its entries, and the
    host refuses a path that goes through too many links, so what they see
    is a finite tree. *)
Inductive node : Type :=
| Unstatable                             (* missing, dangling link: [statSync] throws *)
| RegularFile (content : option fileContent)  (* [None]: [readFileSync] throws *)
| Directory (entries : list (string * node))
| LockedDirectory                        (* a directory [readdirSync] cannot read *)
| Special.                               (* neither file nor directory *)

(** ** Exceptions and the console *)

Inductive jsError : Type :=
| FsError (syscall path : string)
| YamlError (path : string).

Inductive logEntry : Type :=
| ConsoleWarn (message : string)
| ConsoleError (message : string).

Definition console : Type := list logEntry.

Inductive outcome (A : Type) : Type :=
| Returned (a : A)
| Thrown (e : jsError).

Arguments Returned {A} a.
Arguments Thrown {A} e.

Definition M (A : Type) : Type := console -> outcome A * console.

Definition ret {A} (a : A) : M A := fun c => (Returned a, c).

Definition bind {A B} (m : M A) (k : A -> M B) : M B :=
  fun c =>
    match m c with
    | (Returned a, c') => k a c'
    | (Thrown e, c') => (Thrown e, c')
    end.

Definition throw {A} (e : jsError) : M A := fun c => (Thrown e, c).

(** [try { m } catch (err) { handler(err) }] *)
Definition tryCatch {A} (m : M A) (handler : jsError -> M A) : M A :=
  fun c =>
    match m c with
    | (Returned a, c') => (Returned a, c')
    | (Thrown e, c') => handler e c'
    end.

Definition consoleError (message : string) : M unit :=
  fun c => (Returned tt, c ++ [ConsoleError message]).

Definition consoleWarn (message : string) : M unit :=
  fun c => (Returned tt, c ++ [ConsoleWarn message]).

Declare Scope js_scope.
Delimit Scope js_scope with js.
Notation "x <- m ;; k" := (bind m (fun x => k))
  (at level 61, m at next level, right associativity) : js_scope.
Notation "m ;;; k" := (bind m (fun _ => k))
  (at level 61, right associativity) : js_scope.
Local Open Scope js_scope.

(** [arr.forEach(callback)] inside a [try] block, for a callback that
    updates an object declared outside the block and that can only throw
    before it has touched the object: the loop stops at the first
    exception and the object keeps what the earlier iterations made of it.
    The exception, if any, is handed to the caller, which runs its [catch]
    block. *)
Fixpoint forEachAcc {A S} (body : S -> A -> M S) (l : list A) (acc : S)
  : M (S * option jsError) :=
  match l with
  | [] => ret (acc, None)
  | a :: rest =>
      fun c =>
        match body acc a c with
        | (Returned acc', c') => forEachAcc body rest acc' c'
        | (Thrown e, c') => (Returned (acc, Some e), c')
        end
  end.

(** ** File-system primitives *)

Record Stats : Type := mkStats { isDirectory : bool; isFile : bool }.

Definition statOf (n : node) : option Stats :=
  match n with
  | Unstatable => None
  | RegularFile _ => Some (mkStats false true)
  | Directory _ | LockedDirectory => Some (mkStats true false)
  | Special => Some (mkStats false false)
  end.

(** [fs.existsSync(path)]: never throws. *)
Definition existsSync (n : node) : bool :=
  match statOf n with Some _ => true | None => false end.

(** [fs.statSync(path)] *)
Definition statSync (path : string) (n : node) : M Stats :=
  match statOf n with
  | Some st => ret st
  | None => throw (FsError "stat" path)
  end.

(** [fs.readdirSync(path)].  A directory entry is handed out with the node
    it names and with [R], the walk of that node; [listing] is the
    directory's entries so decorated, in the order of the directory. *)
Definition dirent (R : Type) : Type := (string * node * R)%type.

Definition direntName {R} (e : dirent R) : string := fst (fst e).
Definition direntNode {R} (e : dirent R) : node := snd (fst e).

Definition readdirSync {R} (path : string) (n : node)
  (listing : list (dirent R)) : M (list (dirent R)) :=
  match n with
  | Directory _ => ret listing
  | _ => throw (FsError "scandir" path)
  end.

(** [matter(fs.readFileSync(path, 'utf-8')).data].  [RegularFile None] is a
    file that [readFileSync] cannot read: it throws at every call.
    [Malformed] is a text that [matter] cannot parse, at its first parse:
    the parser keeps the texts it was given, and a later parse of the same
    text is answered from that store with empty data, without an
    exception.  The store is not modelled.  With empty data a file has no
    title and no tags, which is what the [catch] blocks of the walks make
    of the exception: the values that the walks return are the same either
    way, and only the log of a later parse of such a text would differ. *)
Definition readFrontmatter (path : string) (n : node) : M frontmatter :=
  match n with
  | RegularFile (Some (Parsed fm)) => ret fm
  | RegularFile (Some Malformed) => throw (YamlError path)
  | RegularFile None => throw (FsError "open" path)
  | Directory _ | LockedDirectory => throw (FsError "read" path)
  | Special => throw (FsError "read" path)
  | Unstatable => throw (FsError "open" path)
  end.

(** [path.join(dirPath, entry)] for a normalized [dirPath] and a plain
    entry name.  For another [dirPath] (one that starts with [./], say)
    [path.join] returns the normalized path; the walks pass the joined
    path on to the file system, to [path.relative], which undoes the join,
    and to the log, and the text of a logged message is the only place
    where the difference shows. *)
Definition pathJoin (dirPath entry : string) : string :=
  if Str.endsWith dirPath "/" then (dirPath ++ entry)%string
  else (dirPath ++ "/" ++ entry)%string.

(** [path.relative(from, to)] for a path [to] below [from]: what follows
    [from] and the separator. *)
Definition pathRelative (from to : string) : string :=
  let from' : string :=
    if Str.endsWith from "/" then from else (from ++ "/")%string in
  match Str.stripPrefix from' to with
  | Some rest => rest
  | None => to
  end.

(** ** [Array.prototype.sort] *)

(** The sort is stable; for a consistent comparator its result is the one
    stable arrangement, whatever the algorithm.  The model is the stable
    insertion sort: an element goes before the first element of the sorted
    rest that the comparator does not put before it.  For a comparator
    that is not consistent the language leaves the order to the engine,
    and the insertion sort is one possible engine: what is proved below
    about the order of a sorted array is proved for consistent
    comparators, or does not depend on the algorithm. *)
Section ArraySort.

Context {A : Type}.
Variable compareFn : A -> A -> Z.

Fixpoint insertSorted (x : A) (l : list A) : list A :=
  match l with
  | [] => [x]
  | y :: rest =>
      if (compareFn x y <=? 0)%Z then x :: l
      else y :: insertSorted x rest
  end.

Definition arraySort (l : list A) : list A :=
  fold_right insertSorted [] l.

End ArraySort.

(** ** The tag index *)

(** [interface TagPageInfo] *)
Record TagPageInfo : Type := mkTagPageInfo {
  link : string;
  text : string;
  relativePath : string
}.

(** [Map<string, TagPageInfo[]>]; the keys are kept in insertion order, the
    order in which [tagsMap.keys()] yields them. *)
Definition TagsMap : Type := list (string * list TagPageInfo).

Fixpoint mapGet (m : TagsMap) (key : string) : option (list TagPageInfo) :=
  match m with
  | [] => None
  | (k, v) :: rest => if String.eqb k key then Some v else mapGet rest key
  end.

Definition mapHas (m : TagsMap) (key : string) : bool :=
  match mapGet m key with Some _ => true | None => false end.

Fixpoint mapSet (m : TagsMap) (key : string) (value : list TagPageInfo)
  : TagsMap :=
  match m with
  | [] => [(key, value)]
  | (k, v) :: rest =>
      if String.eqb k key then (k, value) :: rest
      else (k, v) :: mapSet rest key value
  end.

Definition mapKeys (m : TagsMap) : list string := List.map fst m.

(** The body of [fileTags.forEach(tag => ...)]. *)
Definition addTagPage (page : TagPageInfo) (tagsMap : TagsMap) (tag : string)
  : TagsMap :=
  let tagName := Str.trim tag in
  let tagsMap1 := if negb (mapHas tagsMap tagName)
                  then mapSet tagsMap tagName [] else tagsMap in
  let tagPages := match mapGet tagsMap1 tagName with
                  | Some pages => pages
                  | None => []
                  end in
  if negb (existsb (fun item => String.eqb (link item) (link page)) tagPages)
  then mapSet tagsMap1 tagName (tagPages ++ [page])
  else tagsMap1.

(** The tags of a file: [frontmatter.tags] split, trimmed and filtered. *)
Definition fileTagsOf (fm : frontmatter) : list string :=
  match tags fm with
  | TagsString s =>
      if Str.isEmpty s then []
      else Str.filterBoolean (List.map Str.trim (Str.splitOn "," s))
  | TagsArray elements => Str.filterBoolean (List.map Str.trim elements)
  | TagsAbsent => []
  | TagsOther _ => []
  end.

(** The title shown for a file: [frontmatter.title.trim()] when the title is
    a string that is not blank, the cleaned file name otherwise. *)
Definition displayText (fm : frontmatter) (entry : string) : string :=
  match title fm with
  | Some t => if Str.isEmpty (Str.trim t) then cleanName entry else Str.trim t
  | None => cleanName entry
  end.

(** [s.replace(/\\/g, '/')] *)
Definition normalizeSlashes (s : string) : string :=
  Str.map (fun c => if Ascii.eqb c "\" then "/"%char else c) s.

(** [s.replace(/\/+/g, '/')]: every run of slashes becomes one slash.
    [inRun] tells whether the previous character is a slash. *)
Fixpoint collapseSlashesFrom (inRun : bool) (s : string) : string :=
  match s with
  | EmptyString => EmptyString
  | String c r =>
      if Ascii.eqb c "/"
      then if inRun then collapseSlashesFrom true r
           else String "/" (collapseSlashesFrom true r)
      else String c (collapseSlashesFrom false r)
  end.

Definition collapseSlashes (s : string) : string :=
  collapseSlashesFrom false s.

(** ** The walks *)

Section Walks.

(** [a.localeCompare(b)]: negative, zero or positive. *)
Variable localeCompare : string -> string -> Z.

(** *** [generateSidebarItems] *)

(** [/^(index|readme)\.md$/i.test(name)] *)
Definition isIndexMd (name : string) : bool :=
  Str.matchesIgnoreCase "index.md" name
  || Str.matchesIgnoreCase "readme.md" name.

(** The comparator handed to [entries.sort]. *)
Definition entryCompare {R} (a b : dirent R) : Z :=
  let isIndexA := isIndexMd (direntName a) in
  let isIndexB := isIndexMd (direntName b) in
  if negb (Bool.eqb isIndexA isIndexB) then (if isIndexA then -1 else 1)%Z
  else
    match statOf (direntNode a), statOf (direntNode b) with
    | Some statA, Some statB =>
        let isDirA := isDirectory statA in
        let isDirB := isDirectory statB in
        if negb (Bool.eqb isDirA isDirB) then (if isDirA then -1 else 1)%Z
        else localeCompare (direntName a) (direntName b)
    | _, _ =>
        (* ignore stat errors during sort *)
        localeCompare (direntName a) (direntName b)
    end.

Definition walker : Type := string -> string -> M (list SidebarItem).

(** The callback of [entries.forEach] in [generateSidebarItems]. *)
Definition sidebarEntry (dirPath baseUrl : string)
  (items : list SidebarItem) (e : dirent walker) : M (list SidebarItem) :=
  let entry := direntName e in
  if Str.startsWith entry "." then ret items            (* Skip hidden *)
  else
    let fullPath := pathJoin dirPath entry in
    stats <- tryCatch (st <- statSync fullPath (direntNode e) ;; ret (Some st))
               (fun err =>
                  consoleError ("[Sidebar] Error stating file/dir "
                                ++ fullPath ++ ":") ;;;
                  ret None) ;;
    match stats with
    | None => ret items
    | Some stats =>
        if isDirectory stats then
          let subDirBaseUrl := (baseUrl ++ entry ++ "/")%string in
          subItems <- snd e fullPath subDirBaseUrl ;;
          if (0 <? List.length subItems)%nat
          then ret (items ++ [Group (cleanName entry) subItems true])
          else ret items
        else if isFile stats
                && Str.endsWith (Str.toLowerCase entry) ".md" then
          let link := getFileLink entry baseUrl in
          text <- tryCatch
                    (fm <- readFrontmatter fullPath (direntNode e) ;;
                     ret (displayText fm entry))
                    (fun err =>
                       consoleError
                         ("[Sidebar] Error reading frontmatter for "
                          ++ fullPath ++ ":") ;;;
                       ret (cleanName entry)) ;;
          ret (items ++ [Leaf text link])
        else ret items
    end.

(** The body of [generateSidebarItems] for the node at [dirPath];
    [listing] is what [readdirSync] yields when that node is a readable
    directory. *)
Definition generateSidebarItemsAt (n : node) (listing : list (dirent walker))
  (dirPath baseUrl : string) : M (list SidebarItem) :=
  if negb (existsSync n) then ret []
  else
    st <- statSync dirPath n ;;
    if negb (isDirectory st) then ret []
    else
      baseUrl <- (if negb (Str.endsWith baseUrl "/")
                  then consoleWarn
                         ("[Sidebar] Base URL passed to generateSidebarItems should end with a slash: "
                          ++ baseUrl) ;;;
                       ret (baseUrl ++ "/")%string
                  else ret baseUrl) ;;
      r <- tryCatch
             (entries <- readdirSync dirPath n listing ;;
              forEachAcc (sidebarEntry dirPath baseUrl)
                         (arraySort entryCompare entries) [])
             (fun err => ret ([], Some err)) ;;
      match snd r with
      | Some err =>
          consoleError ("[Sidebar] Error reading directory "
                        ++ dirPath ++ ":") ;;;
          ret (fst r)
      | None => ret (fst r)
      end.

(** The entries of a node, each with the walk of the node it names. *)
Definition decorate {R} (walk : node -> R) (n : node) : list (dirent R) :=
  match n with
  | Directory entries =>
      List.map (fun e : string * node => (fst e, snd e, walk (snd e)))
               entries
  | _ => []
  end.

Fixpoint generateSidebarItems (n : node) : walker :=
  generateSidebarItemsAt n (decorate generateSidebarItems n).

(** *** [scanFilesForTags] *)

(** The tag map is an object shared by all the calls; a call takes the
    map as it is and returns it as the call leaves it. *)
Definition tagWalker : Type :=
  string -> string -> TagsMap -> string -> M TagsMap.

(** The callback of [entries.forEach] in [scanFilesForTags]. *)
Definition tagEntry (dirPath baseUrl scanRoot : string)
  (tagsMap : TagsMap) (e : dirent tagWalker) : M TagsMap :=
  let entry := direntName e in
  if Str.startsWith entry "." then ret tagsMap          (* Skip hidden *)
  else
    let fullPath := pathJoin dirPath entry in
    stats <- tryCatch (st <- statSync fullPath (direntNode e) ;; ret (Some st))
               (fun err => ret None) ;;                  (* Skip if cannot stat *)
    match stats with
    | None => ret tagsMap
    | Some stats =>
        if isDirectory stats then
          snd e fullPath (baseUrl ++ entry ++ "/")%string tagsMap scanRoot
        else if isFile stats
                && Str.endsWith (Str.toLowerCase entry) ".md" then
          tryCatch
            (fm <- readFrontmatter fullPath (direntNode e) ;;
             let fileTags := fileTagsOf fm in
             if (0 <? List.length fileTags)%nat then
               let page :=
                 mkTagPageInfo
                   (getFileLink entry baseUrl)
                   (displayText fm entry)
                   (normalizeSlashes (pathRelative scanRoot fullPath)) in
               ret (fold_left (addTagPage page) fileTags tagsMap)
             else ret tagsMap)
            (fun err =>
               consoleError ("[Sidebar Tags] Error processing file "
                             ++ fullPath ++ ":") ;;;
               ret tagsMap)
        else ret tagsMap
    end.

Definition scanFilesForTagsAt (n : node) (listing : list (dirent tagWalker))
  (dirPath baseUrl : string) (tagsMap : TagsMap) (scanRoot : string)
  : M TagsMap :=
  if negb (existsSync n) then ret tagsMap
  else
    st <- statSync dirPath n ;;
    if negb (isDirectory st) then ret tagsMap
    else
      let baseUrl := if negb (Str.endsWith baseUrl "/")
                     then (baseUrl ++ "/")%string else baseUrl in
      r <- tryCatch
             (entries <- readdirSync dirPath n listing ;;
              forEachAcc (tagEntry dirPath baseUrl scanRoot) entries tagsMap)
             (fun err => ret (tagsMap, Some err)) ;;
      match snd r with
      | Some err =>
          consoleError ("[Sidebar Tags] Error reading directory "
                        ++ dirPath ++ ":") ;;;
          ret (fst r)
      | None => ret (fst r)
      end.

Fixpoint scanFilesForTags (n : node) : tagWalker :=
  scanFilesForTagsAt n (decorate scanFilesForTags n).

(** *** [sidebarItemSorter] and [insertPageIntoStructure] *)

Definition sidebarItemSorter (a b : SidebarItem) : Z :=
  let isDirA := hasItems a in
  let isDirB := hasItems b in
  if negb (Bool.eqb isDirA isDirB) then (if isDirA then -1 else 1)%Z
  else localeCompare (itemText a) (itemText b).

(** [item.text === dirName && item.items] *)
Definition isGroupNamed (dirName : string) (it : SidebarItem) : bool :=
  String.eqb (itemText it) dirName && hasItems it.

(** The first item that [test] accepts is replaced by its image; this is
    what a mutation of the object found by [parentItems.find] does to
    [parentItems]. *)
Fixpoint updateFirst (test : SidebarItem -> bool)
  (f : SidebarItem -> SidebarItem) (l : list SidebarItem)
  : list SidebarItem :=
  match l with
  | [] => []
  | it :: rest =>
      if test it then f it :: rest else it :: updateFirst test f rest
  end.

(** [parentItems] is mutated in place by the source; the function returns
    the array as the call leaves it.  A group created here is pushed
    empty, the array is sorted, and the recursive call fills the group:
    the comparator does not look inside a group, so the group may as well
    be filled before the sort. *)
Fixpoint insertPageIntoStructure (parentItems : list SidebarItem)
  (segments : list string) (pageLink pageText : string)
  : list SidebarItem :=
  match segments with
  | [] => parentItems
  | currentSegment :: rest =>
      match rest with
      | [] =>
          if negb (existsb (linkIs pageLink) parentItems)
          then arraySort sidebarItemSorter
                 (parentItems ++ [Leaf pageText pageLink])
          else parentItems
      | _ :: _ =>
          let dirName := cleanName currentSegment in
          if existsb (isGroupNamed dirName) parentItems
          then updateFirst (isGroupNamed dirName)
                 (fun dirItem =>
                    match dirItem with
                    | Group t its col =>
                        Group t (insertPageIntoStructure its rest
                                   pageLink pageText) col
                    | Leaf _ _ => dirItem
                    end)
                 parentItems
          else arraySort sidebarItemSorter
                 (parentItems
                  ++ [Group dirName
                        (insertPageIntoStructure [] rest pageLink pageText)
                        true])
      end
  end.

(** *** [generateTagsSidebarGroup] *)

(** The callback of [pages.forEach]. *)
Definition insertTagPage (tagRootItems : list SidebarItem)
  (page : TagPageInfo) : list SidebarItem :=
  let segments := Str.filterBoolean (Str.splitOn "/" (relativePath page)) in
  if (0 <? List.length segments)%nat
  then insertPageIntoStructure tagRootItems segments (link page) (text page)
  else tagRootItems.

(** The callback of [sortedTags.map]. *)
Definition tagGroup (tagsMap : TagsMap) (tag : string) : SidebarItem :=
  let pages := match mapGet tagsMap tag with
               | Some pages => pages
               | None => []
               end in
  Group tag (fold_left insertTagPage pages []) true.

Definition generateTagsSidebarGroup (root : node) (scanRoot baseUrl : string)
  : M (option SidebarItem) :=
  tagsMap <- scanFilesForTags root scanRoot baseUrl [] scanRoot ;;
  if (List.length tagsMap =? 0)%nat then ret None
  else
    let sortedTags := arraySort localeCompare (mapKeys tagsMap) in
    let tagItems := List.map (tagGroup tagsMap) sortedTags in
    ret (Some (Group "Tags" tagItems true)).

(** *** [generateSidebar] *)

(** The callback of [topLevelEntries.forEach]. *)
Definition topLevelEntry (scanRoot baseUrl : string)
  (sidebarItems : list SidebarItem) (e : dirent walker)
  : M (list SidebarItem) :=
  let entry := direntName e in
  if Str.startsWith entry "." then ret sidebarItems     (* Skip hidden *)
  else
    let groupDirPath := pathJoin scanRoot entry in
    stats <- tryCatch
               (st <- statSync groupDirPath (direntNode e) ;; ret (Some st))
               (fun err => ret None) ;;                  (* Skip if cannot stat *)
    match stats with
    | None => ret sidebarItems
    | Some stats =>
        if isDirectory stats then
          let groupBaseUrl :=
            collapseSlashes (baseUrl ++ entry ++ "/")%string in
          groupItems <- snd e groupDirPath groupBaseUrl ;;
          if (0 <? List.length groupItems)%nat
          then ret (sidebarItems
                    ++ [Group (cleanName entry) groupItems true])
          else ret sidebarItems
        else ret sidebarItems   (* Ignore top-level files *)
    end.

(** [root] is the node at [scanRoot]. *)
Definition generateSidebar (root : node) (scanRoot baseUrl : string)
  (includeTags : bool) : M Sidebar :=
  r <- tryCatch
         (topLevelEntries <-
            readdirSync scanRoot root (decorate generateSidebarItems root) ;;
          forEachAcc (topLevelEntry scanRoot baseUrl) topLevelEntries [])
         (fun err => ret ([], Some err)) ;;
  sidebarItems <-
    match snd r with
    | None =>
        ret (arraySort
               (fun a b => localeCompare (itemText a) (itemText b))
               (fst r))
    | Some err =>
        consoleError ("[Sidebar] Error reading root content directory "
                      ++ scanRoot ++ ":") ;;;
        ret (fst r)
    end ;;
  allSidebarItems <-
    (if includeTags then
       tagsGroup <- generateTagsSidebarGroup root scanRoot baseUrl ;;
       match tagsGroup with
       | Some g => ret (sidebarItems ++ [g])
       | None => ret sidebarItems
       end
     else ret sidebarItems) ;;
  ret [("/", allSidebarItems)].

End Walks.

(** ** What the walks return *)

(** The values the walks return, without the console and without the
    exceptions that the walks catch.  The theorems below show that each
    walk returns the value given here. *)

(** [entry.startsWith('.')] *)
Definition isHidden (entry : string) : bool := Str.startsWith entry ".".

(** [entry.toLowerCase().endsWith('.md')] *)
Definition isMarkupName (entry : string) : bool :=
  Str.endsWith (Str.toLowerCase entry) ".md".

(** [baseUrl] after [if (!baseUrl.endsWith('/')) baseUrl += '/']. *)
Definition withTrailingSlash (baseUrl : string) : string :=
  if negb (Str.endsWith baseUrl "/") then (baseUrl ++ "/")%string
  else baseUrl.

(** The text of the leaf of a markup file. *)
Definition leafText (n : node) (entry : string) : string :=
  match n with
  | RegularFile (Some (Parsed fm)) => displayText fm entry
  | _ => cleanName entry
  end.

Section Values.

Variable localeCompare : string -> string -> Z.

(** What one entry adds to [items] in [generateSidebarItems]. *)
Definition entryItems (baseUrl : string)
  (e : dirent (string -> list SidebarItem)) : list SidebarItem :=
  let entry := direntName e in
  if isHidden entry then []
  else
    match statOf (direntNode e) with
    | None => []
    | Some stats =>
        if isDirectory stats then
          let subItems := snd e (baseUrl ++ entry ++ "/")%string in
          if (0 <? List.length subItems)%nat
          then [Group (cleanName entry) subItems true]
          else []
        else if isFile stats && isMarkupName entry
        then [Leaf (leafText (direntNode e) entry)
                   (getFileLink entry baseUrl)]
        else []
    end.

Fixpoint walkItems (n : node) (baseUrl : string) : list SidebarItem :=
  match n with
  | Directory _ =>
      flat_map (entryItems (withTrailingSlash baseUrl))
               (arraySort (entryCompare localeCompare)
                          (decorate walkItems n))
  | _ => []
  end.

(** What one entry makes of the tag map in [scanFilesForTags]. *)
Definition tagEntryValue (dirPath baseUrl scanRoot : string)
  (tagsMap : TagsMap)
  (e : dirent (string -> string -> TagsMap -> string -> TagsMap))
  : TagsMap :=
  let entry := direntName e in
  if isHidden entry then tagsMap
  else
    let fullPath := pathJoin dirPath entry in
    match statOf (direntNode e) with
    | None => tagsMap
    | Some stats =>
        if isDirectory stats then
          snd e fullPath (baseUrl ++ entry ++ "/")%string tagsMap scanRoot
        else if isFile stats && isMarkupName entry then
          match direntNode e with
          | RegularFile (Some (Parsed fm)) =>
              if (0 <? List.length (fileTagsOf fm))%nat then
                fold_left
                  (addTagPage
                     (mkTagPageInfo
                        (getFileLink entry baseUrl)
                        (displayText fm entry)
                        (normalizeSlashes (pathRelative scanRoot fullPath))))
                  (fileTagsOf fm) tagsMap
              else tagsMap
          | _ => tagsMap
          end
        else tagsMap
    end.

Fixpoint scanTags (n : node) (dirPath baseUrl : string) (tagsMap : TagsMap)
  (scanRoot : string) : TagsMap :=
  match n with
  | Directory _ =>
      fold_left (tagEntryValue dirPath (withTrailingSlash baseUrl) scanRoot)
                (decorate scanTags n) tagsMap
  | _ => tagsMap
  end.

(** What one top-level entry adds to [sidebarItems]. *)
Definition topLevelItems (baseUrl : string)
  (e : dirent (string -> list SidebarItem)) : list SidebarItem :=
  let entry := direntName e in
  if isHidden entry then []
  else
    match statOf (direntNode e) with
    | None => []
    | Some stats =>
        if isDirectory stats then
          let groupItems :=
            snd e (collapseSlashes (baseUrl ++ entry ++ "/")%string) in
          if (0 <? List.length groupItems)%nat
          then [Group (cleanName entry) groupItems true]
          else []
        else []
    end.

(** The directory-derived groups of the navigation model. *)
Definition structuralItems (root : node) (baseUrl : string)
  : list SidebarItem :=
  match root with
  | Directory _ =>
      arraySort (fun a b => localeCompare (itemText a) (itemText b))
                (flat_map (topLevelItems baseUrl)
                          (decorate walkItems root))
  | _ => []
  end.

(** The tag index of the content root. *)
Definition tagIndex (root : node) (scanRoot baseUrl : string) : TagsMap :=
  scanTags root scanRoot baseUrl [] scanRoot.

(** The tag-derived part of the navigation model. *)
Definition tagsItems (root : node) (scanRoot baseUrl : string)
  : list SidebarItem :=
  let tagsMap := tagIndex root scanRoot baseUrl in
  if (List.length tagsMap =? 0)%nat then []
  else [Group "Tags"
          (List.map (tagGroup localeCompare tagsMap)
                    (arraySort localeCompare (mapKeys tagsMap)))
          true].

Definition sidebarValue (root : node) (scanRoot baseUrl : string)
  (includeTags : bool) : Sidebar :=
  [("/", structuralItems root baseUrl
         ++ (if includeTags then tagsItems root scanRoot baseUrl else []))].

End Values.

(** ** Properties of navigation items and content trees *)

(** The links of the leaves among [items]. *)
Fixpoint leafLinks (items : list SidebarItem) : list string :=
  match items with
  | [] => []
  | Leaf _ l :: rest => l :: leafLinks rest
  | Group _ _ _ :: rest => leafLinks rest
  end.

(** In the item and in every group below it, no two leaves of one child
    list carry the same link. *)
Inductive LinksUnique : SidebarItem -> Prop :=
| LinksUnique_leaf (t l : string) : LinksUnique (Leaf t l)
| LinksUnique_group (t : string) (items : list SidebarItem) (col : bool) :
    NoDup (leafLinks items) ->
    Forall LinksUnique items ->
    LinksUnique (Group t items col).

(** The item is not an empty group and has no empty group below it. *)
Inductive GroupsNonEmpty : SidebarItem -> Prop :=
| GroupsNonEmpty_leaf (t l : string) : GroupsNonEmpty (Leaf t l)
| GroupsNonEmpty_group (t : string) (items : list SidebarItem) (col : bool) :
    items <> [] ->
    Forall GroupsNonEmpty items ->
    GroupsNonEmpty (Group t items col).

(** A leaf with link [l] is the item or lies below it. *)
Inductive LeafBelow (l : string) : SidebarItem -> Prop :=
| LeafBelow_here (t : string) : LeafBelow l (Leaf t l)
| LeafBelow_group (t : string) (items : list SidebarItem) (col : bool)
    (it : SidebarItem) :
    In it items -> LeafBelow l it -> LeafBelow l (Group t items col).

Fixpoint nodupStrings (l : list string) : bool :=
  match l with
  | [] => true
  | x :: rest => negb (existsb (String.eqb x) rest) && nodupStrings rest
  end.

(** A regular file with a markup name that is not hidden: an entry the
    walks turn into a leaf. *)
Definition isMarkupEntry (e : string * node) : bool :=
  negb (isHidden (fst e))
  && match snd e with
     | RegularFile _ => isMarkupName (fst e)
     | _ => false
     end.

(** In the directory [n] walked with [baseUrl], and in every directory
    that the walk reaches below it, the markup files of one directory
    resolve to different links. *)
Fixpoint linksDistinct (n : node) (baseUrl : string) : bool :=
  match n with
  | Directory entries =>
      let base := withTrailingSlash baseUrl in
      nodupStrings
        (List.map (fun e => getFileLink (fst e) base)
                  (List.filter isMarkupEntry entries))
      && forallb (fun e : string * node =>
                    isHidden (fst e)
                    || linksDistinct (snd e) (base ++ fst e ++ "/")%string)
                 entries
  | _ => true
  end.

(** The same for the directories at the top of the content root, which
    [generateSidebar] walks with a base URL of its own making. *)
Definition linksDistinctBelow (root : node) (baseUrl : string) : bool :=
  match root with
  | Directory entries =>
      forallb (fun e : string * node =>
                 isHidden (fst e)
                 || linksDistinct (snd e)
                      (collapseSlashes (baseUrl ++ fst e ++ "/")%string))
              entries
  | _ => true
  end.

(** Some markup file can be reached from [n] without going through a
    hidden entry. *)
Fixpoint hasMarkup (n : node) : bool :=
  match n with
  | Directory entries =>
      existsb (fun e : string * node =>
                 negb (isHidden (fst e))
                 && match snd e with
                    | RegularFile _ => isMarkupName (fst e)
                    | _ => hasMarkup (snd e)
                    end)
              entries
  | _ => false
  end.

(** Some markup file that can be reached and read declares a tag. *)
Fixpoint declaresTag (n : node) : bool :=
  match n with
  | Directory entries =>
      existsb (fun e : string * node =>
                 negb (isHidden (fst e))
                 && match snd e with
                    | RegularFile (Some (Parsed fm)) =>
                        isMarkupName (fst e)
                        && (0 <? List.length (fileTagsOf fm))%nat
                    | RegularFile _ => false
                    | _ => declaresTag (snd e)
                    end)
              entries
  | _ => false
  end.

(** [statSync] succeeds on every entry. *)
Definition allStatable (entries : list (string * node)) : bool :=
  forallb (fun e => existsSync (snd e)) entries.

(** On [names] the comparator is total and transitive, as the order of a
    collation is. *)
Definition consistentOn (compare : string -> string -> Z)
  (names : list string) : bool :=
  forallb (fun a =>
    forallb (fun b =>
      ((compare a b <=? 0)%Z || (compare b a <=? 0)%Z)
      && forallb (fun c =>
           implb ((compare a b <=? 0)%Z && (compare b c <=? 0)%Z)
                 (compare a c <=? 0)%Z)
         names)
    names)
  names.

Definition isDirNode (n : node) : bool :=
  match statOf n with
  | Some st => isDirectory st
  | None => false
  end.

(** The order of the structural walk: index and readme first, then
    directories before files, then the names as the collation orders them. *)
Definition entryOrder (compare : string -> string -> Z)
  (a b : string * node) : Prop :=
  (isIndexMd (fst a) = true /\ isIndexMd (fst b) = false)
  \/ (isIndexMd (fst a) = isIndexMd (fst b)
      /\ ((isDirNode (snd a) = true /\ isDirNode (snd b) = false)
          \/ (isDirNode (snd a) = isDirNode (snd b)
              /\ (compare (fst a) (fst b) <= 0)%Z))).

(** A directory entry without the walk attached to it. *)
Definition plainEntry {R} (e : dirent R) : string * node := fst e.

(** A comparator to run the walks on examples: the order of the code
    units, with which the collations agree on lower-case letters. *)
Definition codeUnitCompare (a b : string) : Z :=
  match String.compare a b with
  | Lt => (-1)%Z
  | Eq => 0%Z
  | Gt => 1%Z
  end.

(** A readable markup file with the given title and tags. *)
Definition markupFile (t : option string) (tg : tagsField) : node :=
  RegularFile (Some (Parsed (mkFrontmatter t tg))).

(** The computation returns [a], whatever the console holds. *)
Definition returns {A} (m : M A) (a : A) : Prop :=
  forall c, exists c', m c = (Returned a, c').


(** The entry with another walk attached to it. *)
Definition withValue {R R'} (f : node -> R') (e : dirent R) : dirent R' :=
  (fst e, f (direntNode e)).

(** The pages recorded under a tag, as [tagsMap.get(tag) || []]. *)
Definition pagesOf (tagsMap : TagsMap) (tag : string) : list TagPageInfo :=
  match mapGet tagsMap tag with
  | Some pages => pages
  | None => []
  end.

(** [pages] after one guarded push of [page]. *)
Definition pushOnce (page : TagPageInfo) (pages : list TagPageInfo)
  : list TagPageInfo :=
  if existsb (fun item => String.eqb (link item) (link page)) pages
  then pages else pages ++ [page].

(** ** Content trees of the examples *)

(** A content root with [2025/may/intro.md] and [2025/june/advanced.md],
    both tagged [tutorial]; [juneFirst] is the order in which the directory
    lists its two entries. *)
Definition tutorialTree (juneFirst : bool) : node :=
  let may := ("may", Directory
                [("intro.md", markupFile (Some "Intro") (TagsString "tutorial"))]) in
  let june := ("june", Directory
                 [("advanced.md",
                   markupFile (Some "Advanced") (TagsString "tutorial"))]) in
  Directory [("2025", Directory (if juneFirst then [june; may] else [may; june]))].


(** A directory [guide] with both an index and a readme. *)
Definition indexAndReadmeTree : node :=
  Directory [("guide", Directory [("index.md", markupFile None TagsAbsent);
                                  ("readme.md", markupFile None TagsAbsent)])].

(** A directory with a file, a dangling link and a subdirectory, listed in
    that order. *)
Definition danglingLinkEntries : list (string * node) :=
  [("a.md", markupFile None TagsAbsent);
   ("m", Unstatable);
   ("z", Directory [("k.md", markupFile None TagsAbsent)])].

(** A content root with a loose file next to a directory. *)
Definition looseFileTree : node :=
  Directory [("about.md", markupFile (Some "About") (TagsString "meta"));
             ("guide", Directory [("setup.md", markupFile None TagsAbsent)])].

(** [dirPath] with the separator that [path.join] puts before an entry. *)
Definition withSeparator (dirPath : string) : string :=
  if Str.endsWith dirPath "/" then dirPath else (dirPath ++ "/")%string.

(** The path of [entry] in the directory [rel], both relative to the
    content root. *)
Definition relativeJoin (rel entry : string) : string :=
  if Str.isEmpty rel || Str.endsWith rel "/" then (rel ++ entry)%string
  else (rel ++ "/" ++ entry)%string.

(** A content root in which no markup file can be reached: a hidden
    directory, an image, and a directory of style sheets. *)
Definition noMarkupTree : node :=
  Directory [(".drafts", Directory [("idea.md", markupFile None TagsAbsent)]);
             ("logo.png", RegularFile (Some Malformed));
             ("assets", Directory [("site.css", RegularFile None)])].

(** No two leaves among [items] carry the same link, and the same holds in
    every group among them. *)
Definition LinksUniqueIn (items : list SidebarItem) : Prop :=
  NoDup (leafLinks items) /\ Forall LinksUnique items.

(** The last character of a string. *)
Fixpoint lastChar (s : string) : option ascii :=
  match s with
  | EmptyString => None
  | String c EmptyString => Some c
  | String _ r => lastChar r
  end.

(** The path segments of a page, as [generateTagsSidebarGroup] splits
    them. *)
Definition segmentsOf (page : TagPageInfo) : list string :=
  Str.filterBoolean (Str.splitOn "/" (relativePath page)).

(** Every page of the tag map has a path segment. *)
Definition AllRooted (tagsMap : TagsMap) : Prop :=
  forall tag, Forall (fun page => segmentsOf page <> []) (pagesOf tagsMap tag).

(** The tag map records a page with link [l] under [tag]. *)
Definition HasPage (tagsMap : TagsMap) (tag l : string) : Prop :=
  exists page, In page (pagesOf tagsMap tag) /\ link page = l.

(** A file name before its extension, as [fs.readdirSync] gives names: not
    empty, not starting with a dot, without a slash. *)
Definition isPlainStem (s : string) : bool :=
  match s with
  | EmptyString => false
  | String c _ =>
      negb (Ascii.eqb c ".")
      && Str.forallb (fun x => negb (Ascii.eqb x "/")) s
  end.

(** An extension after its dot: without a dot, without a slash. *)
Definition isPlainExtension (s : string) : bool :=
  Str.forallb (fun x => negb (Ascii.eqb x "/") && negb (Ascii.eqb x ".")) s.

(** Every tag of the tag map has a page. *)
Definition KeysInhabited (tagsMap : TagsMap) : Prop :=
  forall tag, In tag (mapKeys tagsMap) -> pagesOf tagsMap tag <> [].


(** A top-level directory named [index] with a readme file. *)
Definition indexDirectoryTree : node :=
  Directory [("index", Directory [("readme.md", markupFile None TagsAbsent)])].

(** ** Properties of the tag-derived groups and of the processing order *)

(** The comparator is total and transitive, as the order of a collation
    is. *)
Definition Consistent (compare : string -> string -> Z) : Prop :=
  (forall a b, (compare a b <= 0)%Z \/ (compare b a <= 0)%Z)
  /\ (forall a b c, (compare a b <= 0)%Z -> (compare b c <= 0)%Z ->
                    (compare a c <= 0)%Z).

(** [P] holds of the child list of the item, if it is a group, and of the
    child list of every group below it. *)
Inductive EveryLevel (P : list SidebarItem -> Prop) : SidebarItem -> Prop :=
| EveryLevel_leaf (t l : string) : EveryLevel P (Leaf t l)
| EveryLevel_group (t : string) (items : list SidebarItem) (col : bool) :
    P items ->
    Forall (EveryLevel P) items ->
    EveryLevel P (Group t items col).

(** No leaf stands before a group. *)
Definition GroupsFirst (items : list SidebarItem) : Prop :=
  StronglySorted (fun a b => hasItems b = true -> hasItems a = true) items.

(** The texts of the groups among [items]. *)
Fixpoint groupTexts (items : list SidebarItem) : list string :=
  match items with
  | [] => []
  | Leaf _ _ :: rest => groupTexts rest
  | Group t _ _ :: rest => t :: groupTexts rest
  end.

(** No two groups among [items] have the same text. *)
Definition DistinctGroupNames (items : list SidebarItem) : Prop :=
  NoDup (groupTexts items).

(** The items are in the order of [sidebarItemSorter]. *)
Definition SortedSiblings (compare : string -> string -> Z)
  (items : list SidebarItem) : Prop :=
  StronglySorted (fun a b => (sidebarItemSorter compare a b <= 0)%Z) items.

(** What the scan keeps true of the tag map: the tags are distinct, not
    empty and trimmed, every tag has a page, and no two pages of a tag
    have the same link. *)
Definition TagIndexOk (tagsMap : TagsMap) : Prop :=
  NoDup (mapKeys tagsMap)
  /\ forall tag, In tag (mapKeys tagsMap) ->
       tag <> EmptyString
       /\ Str.trim tag = tag
       /\ pagesOf tagsMap tag <> []
       /\ NoDup (List.map link (pagesOf tagsMap tag)).

(** ** What the walks write to the console *)

Definition isErrorEntry (e : logEntry) : bool :=
  match e with
  | ConsoleError _ => true
  | ConsoleWarn _ => false
  end.

(** The computation only appends to the console, and every entry it
    appends satisfies [Q]. *)
Definition logsOnly {A} (Q : logEntry -> bool) (m : M A) : Prop :=
  forall c, exists log, snd (m c) = (c ++ log)%list /\ forallb Q log = true.

(** The walks have nothing to report about the entry [name] of a
    directory before they go into it: it can be statted, and its front
    matter can be parsed if it is a markup file. *)
Definition readsQuietly (name : string) (n : node) : bool :=
  match n with
  | Unstatable => false
  | RegularFile content =>
      negb (isMarkupName name)
      || match content with
         | Some (Parsed _) => true
         | _ => false
         end
  | Directory _ | LockedDirectory | Special => true
  end.

(** The walks have nothing to report about [n]: it is not a directory
    that cannot be read, and every entry that the walks reach from it can
    be statted and, according to what it is, read or parsed. *)
Fixpoint quiet (n : node) : bool :=
  match n with
  | Directory entries =>
      forallb (fun e : string * node =>
                 isHidden (fst e)
                 || (readsQuietly (fst e) (snd e) && quiet (snd e)))
              entries
  | LockedDirectory => false
  | _ => true
  end.

(** ** The pages of the tag index and the leaves of the structure *)

(** A leaf with text [t] and link [l] is the item or lies below it. *)
Inductive PageBelow (t l : string) : SidebarItem -> Prop :=
| PageBelow_here : PageBelow t l (Leaf t l)
| PageBelow_group (g : string) (items : list SidebarItem) (col : bool)
    (it : SidebarItem) :
    In it items -> PageBelow t l it -> PageBelow t l (Group g items col).

(** Every page of the tag map satisfies [P]. *)
Definition AllPages (P : TagPageInfo -> Prop) (tagsMap : TagsMap) : Prop :=
  forall tag, Forall P (pagesOf tagsMap tag).

(** For every entry at the top of the content root, the base URL that
    [generateSidebar] makes for the structural walk, with its runs of
    slashes collapsed, is the base URL that the tag scan makes, with the
    final slash of [baseUrl] completed. *)
Definition basesAgree (root : node) (baseUrl : string) : bool :=
  match root with
  | Directory entries =>
      forallb (fun e : string * node =>
                 String.eqb
                   (collapseSlashes (baseUrl ++ fst e ++ "/")%string)
                   (withTrailingSlash baseUrl ++ fst e ++ "/")%string)
              entries
  | _ => true
  end.

(** The page is a readable markup file of the content root itself. *)
Definition IsRootFile (root : node) (baseUrl : string) (page : TagPageInfo)
  : Prop :=
  exists name fm,
    In (name, RegularFile (Some (Parsed fm))) (match root with
                                               | Directory entries => entries
                                               | _ => []
                                               end)
    /\ link page = getFileLink name (withTrailingSlash baseUrl)
    /\ text page = displayText fm name.

(** A name as [fs.readdirSync] gives it: not empty and without a slash. *)
Definition isEntryName (s : string) : bool :=
  negb (Str.isEmpty s) && Str.forallb (fun c => negb (Ascii.eqb c "/")) s.

(** ** The site configuration *)

(** [sidebar: generateSidebar()] in the site configuration: the content
    root, the base URL "/" and the tags are the defaults of the call.
    [content] is the node at [contentRoot]. *)
Definition siteSidebar (localeCompare : string -> string -> Z)
  (content : node) (contentRoot : string) : M Sidebar :=
  generateSidebar localeCompare content contentRoot contentBaseUrl true.

(** ** File names and the links they resolve to *)

(** What tells the links of the markup files of one directory apart: the
    empty string for an index or readme file, the name without its
    extension for every other file. *)
Definition linkKey (name : string) : string :=
  let stem := fileNameWithoutExtension name in
  if isIndexOrReadme stem then EmptyString else stem.

(** In the directory [n], and in every directory that the walk reaches
    below it, no two markup files have the same name without its
    extension, and at most one of them is an index or readme file. *)
Fixpoint namesDistinct (n : node) : bool :=
  match n with
  | Directory entries =>
      nodupStrings
        (List.map (fun e => linkKey (fst e))
                  (List.filter isMarkupEntry entries))
      && forallb (fun e : string * node =>
                    isHidden (fst e) || namesDistinct (snd e))
                 entries
  | _ => true
  end.

(** The same for the directories at the top of the content root. *)
Definition namesDistinctBelow (root : node) : bool :=
  match root with
  | Directory entries =>
      forallb (fun e : string * node =>
                 isHidden (fst e) || namesDistinct (snd e))
              entries
  | _ => true
  end.




(** In the directory [n], and in every directory that the walk reaches
    below it, every entry can be statted and the comparator is total and
    transitive on the names: the comparator of the walk's sort is
    consistent wherever the walk sorts. *)
Fixpoint sortsConsistently (compare : string -> string -> Z) (n : node)
  : bool :=
  match n with
  | Directory entries =>
      allStatable entries
      && consistentOn compare (List.map fst entries)
      && forallb (fun e : string * node =>
                    isHidden (fst e) || sortsConsistently compare (snd e))
                 entries
  | _ => true
  end.

(** * Proofs *)

(** ** Induction on content trees *)

Lemma node_nested_ind (P : node -> Prop) :
  P Unstatable ->
  (forall content, P (RegularFile content)) ->
  (forall entries, Forall (fun e => P (snd e)) entries ->
                   P (Directory entries)) ->
  P LockedDirectory ->
  P Special ->
  forall n, P n.
Proof.
  intros Hu Hf Hd Hl Hs.
  fix IH 1.
  intros [ | content | entries | | ];
    [ exact Hu | apply Hf | | exact Hl | exact Hs ].
  apply Hd.
  induction entries as [ | [name child] rest IHrest ]; constructor;
    [ apply IH | exact IHrest ].
Qed.

(** ** The monad *)

Lemma returns_ret {A} (a : A) : returns (ret a) a.
Proof. intros c. exists c. reflexivity. Qed.

Lemma returns_bind {A B} (m : M A) (k : A -> M B) (a : A) (b : B) :
  returns m a -> returns (k a) b -> returns (bind m k) b.
Proof.
  intros Hm Hk c. unfold bind.
  destruct (Hm c) as [c1 ->]. apply Hk.
Qed.

Lemma returns_tryCatch {A} (m : M A) (h : jsError -> M A) (a : A) :
  returns m a -> returns (tryCatch m h) a.
Proof.
  intros Hm c. unfold tryCatch.
  destruct (Hm c) as [c1 ->]. now exists c1.
Qed.

Lemma forEachAcc_returns {A S} (body : S -> A -> M S) (g : S -> A -> S)
  (l : list A) :
  (forall a, In a l -> forall acc, returns (body acc a) (g acc a)) ->
  forall acc, returns (forEachAcc body l acc) (fold_left g l acc, None).
Proof.
  induction l as [ | a l IH ]; intros Hbody acc c; simpl.
  - exists c. reflexivity.
  - destruct (Hbody a (or_introl eq_refl) acc c) as [c1 ->].
    apply IH. intros a' Ha'. apply Hbody. now right.
Qed.

Lemma fold_left_app_flat_map {A B} (g : A -> list B) (l : list A)
  (acc : list B) :
  fold_left (fun acc a => acc ++ g a) l acc = acc ++ flat_map g l.
Proof.
  revert acc. induction l as [ | a l IH ]; intros acc; simpl.
  - now rewrite app_nil_r.
  - rewrite IH. now rewrite app_assoc.
Qed.

(** ** The sort *)

Section ArraySortFacts.

Context {A : Type}.
Variable compareFn : A -> A -> Z.

Lemma insertSorted_perm (x : A) (l : list A) :
  Permutation (insertSorted compareFn x l) (x :: l).
Proof.
  induction l as [ | y l IH ]; simpl.
  - apply Permutation_refl.
  - destruct (compareFn x y <=? 0)%Z.
    + apply Permutation_refl.
    + eapply perm_trans; [ apply perm_skip, IH | apply perm_swap ].
Qed.

Lemma arraySort_perm (l : list A) : Permutation (arraySort compareFn l) l.
Proof.
  induction l as [ | x l IH ]; simpl.
  - constructor.
  - eapply perm_trans; [ apply insertSorted_perm | now apply perm_skip ].
Qed.

Lemma arraySort_In (x : A) (l : list A) :
  In x (arraySort compareFn l) <-> In x l.
Proof.
  split; apply Permutation_in;
    [ apply arraySort_perm | apply Permutation_sym, arraySort_perm ].
Qed.

End ArraySortFacts.

Lemma arraySort_map {A B} (f : A -> B) (cmpA : A -> A -> Z)
  (cmpB : B -> B -> Z) (l : list A) :
  (forall x y, cmpB (f x) (f y) = cmpA x y) ->
  arraySort cmpB (map f l) = map f (arraySort cmpA l).
Proof.
  intros Hcmp. induction l as [ | x l IH ]; simpl; [ reflexivity | ].
  rewrite IH. generalize (arraySort cmpA l) as s.
  induction s as [ | y s IHs ]; simpl; [ reflexivity | ].
  rewrite Hcmp. destruct (cmpA x y <=? 0)%Z; simpl; [ reflexivity | ].
  now rewrite IHs.
Qed.

(** ** Directory entries and the walks attached to them *)

Lemma decorate_map {R R'} (f : node -> R) (g : node -> R') (n : node) :
  decorate g n = map (withValue g) (decorate f n).
Proof.
  destruct n; simpl; try reflexivity.
  rewrite map_map. reflexivity.
Qed.

Lemma decorate_In {R} (f : node -> R) (entries : list (string * node))
  (e : dirent R) :
  In e (decorate f (Directory entries)) ->
  snd e = f (direntNode e) /\ In (plainEntry e) entries.
Proof.
  simpl. rewrite in_map_iff. intros [[name child] [<- Hin]]. now split.
Qed.

Lemma entryCompare_withValue {R R'} (lc : string -> string -> Z)
  (g : node -> R') (x y : dirent R) :
  entryCompare lc (withValue g x) (withValue g y) = entryCompare lc x y.
Proof. reflexivity. Qed.

Lemma generateSidebarItems_unfold (lc : string -> string -> Z) (n : node) :
  generateSidebarItems lc n
  = generateSidebarItemsAt lc n (decorate (generateSidebarItems lc) n).
Proof. destruct n; reflexivity. Qed.

Lemma scanFilesForTags_unfold (n : node) :
  scanFilesForTags n = scanFilesForTagsAt n (decorate scanFilesForTags n).
Proof. destruct n; reflexivity. Qed.

(** ** The structural walk returns [walkItems] *)

Lemma sidebarEntry_returns (lc : string -> string -> Z)
  (dirPath baseUrl : string) (items : list SidebarItem) (e : dirent walker) :
  (forall dp b, returns (snd e dp b) (walkItems lc (direntNode e) b)) ->
  returns (sidebarEntry dirPath baseUrl items e)
          (items ++ entryItems baseUrl (withValue (walkItems lc) e)).
Proof.
  destruct e as [[name n] w]. intros Hw c.
  unfold sidebarEntry, entryItems, withValue, direntName, direntNode, isHidden
    in *.
  cbn [fst snd] in *.
  destruct (Str.startsWith name ".").
  { exists c. now rewrite app_nil_r. }
  unfold bind, tryCatch, statSync.
  destruct n as [ | content | entries | | ]; cbn -[walkItems].
  - eexists. now rewrite app_nil_r.
  - fold (isMarkupName name). destruct (isMarkupName name); cbn.
    + destruct content as [ [ | fm ] | ]; cbn; eexists; reflexivity.
    + eexists. now rewrite app_nil_r.
  - destruct (Hw (pathJoin dirPath name) (baseUrl ++ name ++ "/")%string c)
      as [c1 ->].
    destruct (walkItems lc (Directory entries) (baseUrl ++ name ++ "/"));
      cbn; eexists; try reflexivity.
    now rewrite app_nil_r.
  - destruct (Hw (pathJoin dirPath name) (baseUrl ++ name ++ "/")%string c)
      as [c1 ->]. cbn. eexists. now rewrite app_nil_r.
  - eexists. now rewrite app_nil_r.
Qed.

Lemma flat_map_map {A B C} (f : A -> B) (g : B -> list C) (l : list A) :
  flat_map g (map f l) = flat_map (fun a => g (f a)) l.
Proof.
  induction l as [ | a l IH ]; simpl; [ reflexivity | now rewrite IH ].
Qed.

Lemma sidebarLoop_returns (lc : string -> string -> Z)
  (entries : list (string * node)) (dirPath baseUrl : string) :
  Forall (fun e => forall dp b,
            returns (generateSidebarItems lc (snd e) dp b)
                    (walkItems lc (snd e) b)) entries ->
  returns
    (forEachAcc (sidebarEntry dirPath baseUrl)
       (arraySort (entryCompare lc)
          (decorate (generateSidebarItems lc) (Directory entries))) [])
    (flat_map (entryItems baseUrl)
       (arraySort (entryCompare lc)
          (decorate (walkItems lc) (Directory entries))), None).
Proof.
  intros IH.
  rewrite (decorate_map (generateSidebarItems lc) (walkItems lc)).
  rewrite (arraySort_map (withValue (walkItems lc)) (entryCompare lc)
             (entryCompare lc))
    by (intros; apply entryCompare_withValue).
  rewrite flat_map_map.
  rewrite <- (app_nil_l (flat_map _ _)).
  rewrite <- fold_left_app_flat_map.
  apply forEachAcc_returns.
  intros e He acc. apply sidebarEntry_returns.
  apply arraySort_In in He. apply decorate_In in He. destruct He as [Hw Hin].
  rewrite Hw. rewrite Forall_forall in IH.
  intros dp b. apply (IH _ Hin).
Qed.

Lemma generateSidebarItems_returns (lc : string -> string -> Z) (n : node) :
  forall dirPath baseUrl,
    returns (generateSidebarItems lc n dirPath baseUrl)
            (walkItems lc n baseUrl).
Proof.
  induction n as [ | content | entries IH | | ] using node_nested_ind;
    intros dirPath baseUrl c.
  - eexists. reflexivity.
  - eexists. reflexivity.
  - rewrite generateSidebarItems_unfold.
    unfold generateSidebarItemsAt, walkItems. fold (walkItems lc).
    unfold withTrailingSlash.
    cbn [existsSync statOf negb isDirectory statSync bind ret].
    unfold bind at 1. cbn [ret].
    unfold bind at 1.
    destruct (Str.endsWith baseUrl "/"); cbn [negb ret bind consoleWarn];
      unfold bind at 1.
    all: unfold bind at 1, tryCatch, readdirSync, bind at 1, ret at 1.
    all: match goal with
         | |- context [forEachAcc (sidebarEntry ?dp ?b) _ _ ?c] =>
             destruct (sidebarLoop_returns lc entries dp b IH c) as [c1 ->]
         end.
    all: cbn; eexists; reflexivity.
  - cbn. destruct (Str.endsWith baseUrl "/"); cbn; eexists; reflexivity.
  - eexists. reflexivity.
Qed.

(** ** The tag scan returns [scanTags] *)

Lemma fold_left_map {A B S} (f : A -> B) (g : S -> B -> S) (l : list A)
  (acc : S) :
  fold_left g (map f l) acc = fold_left (fun s a => g s (f a)) l acc.
Proof.
  revert acc. induction l as [ | a l IH ]; intros acc; simpl;
    [ reflexivity | apply IH ].
Qed.

Lemma tagEntry_returns (dirPath baseUrl scanRoot : string) (tagsMap : TagsMap)
  (e : dirent tagWalker) :
  (forall dp b m r, returns (snd e dp b m r) (scanTags (direntNode e) dp b m r)) ->
  returns (tagEntry dirPath baseUrl scanRoot tagsMap e)
          (tagEntryValue dirPath baseUrl scanRoot tagsMap
             (withValue scanTags e)).
Proof.
  destruct e as [[name n] w]. intros Hw c.
  unfold tagEntry, tagEntryValue, withValue, direntName, direntNode, isHidden
    in *.
  cbn [fst snd] in *.
  destruct (Str.startsWith name ".").
  { exists c. reflexivity. }
  unfold bind, tryCatch, statSync.
  destruct n as [ | content | entries | | ]; cbn -[scanTags].
  - eexists. reflexivity.
  - fold (isMarkupName name). destruct (isMarkupName name); cbn.
    + destruct content as [ [ | fm ] | ]; cbn; try (eexists; reflexivity).
      destruct (fileTagsOf fm); cbn; eexists; reflexivity.
    + eexists. reflexivity.
  - apply Hw.
  - apply Hw.
  - eexists. reflexivity.
Qed.

Lemma scanLoop_returns (entries : list (string * node))
  (dirPath baseUrl scanRoot : string) (tagsMap : TagsMap) :
  Forall (fun e => forall dp b m r,
            returns (scanFilesForTags (snd e) dp b m r)
                    (scanTags (snd e) dp b m r)) entries ->
  returns
    (forEachAcc (tagEntry dirPath baseUrl scanRoot)
       (decorate scanFilesForTags (Directory entries)) tagsMap)
    (fold_left (tagEntryValue dirPath baseUrl scanRoot)
       (decorate scanTags (Directory entries)) tagsMap, None).
Proof.
  intros IH.
  rewrite (decorate_map scanFilesForTags scanTags).
  rewrite fold_left_map.
  apply forEachAcc_returns.
  intros e He acc. apply tagEntry_returns.
  apply decorate_In in He. destruct He as [Hw Hin].
  rewrite Hw. rewrite Forall_forall in IH.
  intros dp b m r. apply (IH _ Hin).
Qed.

Lemma scanFilesForTags_returns (n : node) :
  forall dirPath baseUrl tagsMap scanRoot,
    returns (scanFilesForTags n dirPath baseUrl tagsMap scanRoot)
            (scanTags n dirPath baseUrl tagsMap scanRoot).
Proof.
  induction n as [ | content | entries IH | | ] using node_nested_ind;
    intros dirPath baseUrl tagsMap scanRoot c.
  - eexists. reflexivity.
  - eexists. reflexivity.
  - rewrite scanFilesForTags_unfold.
    unfold scanFilesForTagsAt, scanTags. fold scanTags.
    cbn [existsSync statOf negb isDirectory statSync bind ret].
    unfold bind at 1. cbn [ret].
    unfold bind at 1, tryCatch, readdirSync, bind at 1, ret at 1.
    fold (withTrailingSlash baseUrl).
    destruct (scanLoop_returns entries dirPath (withTrailingSlash baseUrl)
                scanRoot tagsMap IH c) as [c1 ->].
    cbn. eexists. reflexivity.
  - cbn. eexists. reflexivity.
  - eexists. reflexivity.
Qed.

(** ** [generateSidebar] returns [sidebarValue] *)

Lemma topLevelEntry_returns (lc : string -> string -> Z)
  (scanRoot baseUrl : string) (items : list SidebarItem) (e : dirent walker) :
  (forall dp b, returns (snd e dp b) (walkItems lc (direntNode e) b)) ->
  returns (topLevelEntry scanRoot baseUrl items e)
          (items ++ topLevelItems baseUrl (withValue (walkItems lc) e)).
Proof.
  destruct e as [[name n] w]. intros Hw c.
  unfold topLevelEntry, topLevelItems, withValue, direntName, direntNode,
    isHidden in *.
  cbn [fst snd] in *.
  destruct (Str.startsWith name ".").
  { exists c. now rewrite app_nil_r. }
  unfold bind, tryCatch, statSync.
  destruct n as [ | content | entries | | ]; cbn -[walkItems].
  - eexists. now rewrite app_nil_r.
  - eexists. now rewrite app_nil_r.
  - match goal with
    | |- context [w ?dp ?b c] => destruct (Hw dp b c) as [c1 ->]
    end.
    destruct (walkItems lc (Directory entries) _);
      cbn; eexists; try reflexivity.
    now rewrite app_nil_r.
  - match goal with
    | |- context [w ?dp ?b c] => destruct (Hw dp b c) as [c1 ->]
    end.
    cbn. eexists. now rewrite app_nil_r.
  - eexists. now rewrite app_nil_r.
Qed.

Lemma generateTagsSidebarGroup_returns (lc : string -> string -> Z)
  (root : node) (scanRoot baseUrl : string) :
  returns (generateTagsSidebarGroup lc root scanRoot baseUrl)
          (match tagsItems lc root scanRoot baseUrl with
           | [] => None
           | g :: _ => Some g
           end).
Proof.
  intros c. unfold generateTagsSidebarGroup, tagsItems, tagIndex, bind.
  destruct (scanFilesForTags_returns root scanRoot baseUrl [] scanRoot c)
    as [c1 ->].
  destruct (Nat.eqb (List.length _) 0); eexists; reflexivity.
Qed.

Lemma tagsItems_shape (lc : string -> string -> Z) (root : node)
  (scanRoot baseUrl : string) :
  tagsItems lc root scanRoot baseUrl = []
  \/ exists g, tagsItems lc root scanRoot baseUrl = [g].
Proof.
  unfold tagsItems. destruct (Nat.eqb (List.length _) 0); [ now left | right ].
  eexists. reflexivity.
Qed.

Lemma returns_consoleError (message : string) :
  returns (consoleError message) tt.
Proof. intros c. eexists. reflexivity. Qed.

Lemma topLevelLoop_returns (lc : string -> string -> Z) (root : node)
  (scanRoot baseUrl : string) :
  returns
    (tryCatch
       (bind (readdirSync scanRoot root (decorate (generateSidebarItems lc) root))
             (fun topLevelEntries =>
                forEachAcc (topLevelEntry scanRoot baseUrl) topLevelEntries []))
       (fun err => ret ([], Some err)))
    (match root with
     | Directory _ =>
         (flat_map (topLevelItems baseUrl) (decorate (walkItems lc) root), None)
     | _ => ([], Some (FsError "scandir" scanRoot))
     end).
Proof.
  destruct root as [ | content | entries | | ];
    try (intros c; eexists; reflexivity).
  apply returns_tryCatch. eapply returns_bind; [ apply returns_ret | ].
  rewrite (decorate_map (generateSidebarItems lc) (walkItems lc)).
  rewrite flat_map_map.
  rewrite <- (app_nil_l (flat_map _ _)).
  rewrite <- fold_left_app_flat_map.
  apply forEachAcc_returns.
  intros e He acc. apply topLevelEntry_returns.
  apply decorate_In in He. destruct He as [Hw Hin].
  rewrite Hw. intros dp b. apply generateSidebarItems_returns.
Qed.

Lemma generateSidebar_returns (lc : string -> string -> Z) (root : node)
  (scanRoot baseUrl : string) (includeTags : bool) :
  returns (generateSidebar lc root scanRoot baseUrl includeTags)
          (sidebarValue lc root scanRoot baseUrl includeTags).
Proof.
  unfold generateSidebar, sidebarValue.
  eapply returns_bind; [ apply topLevelLoop_returns | ].
  eapply returns_bind with (a := structuralItems lc root baseUrl).
  { destruct root; cbn [snd fst structuralItems];
      try apply returns_ret;
      (eapply returns_bind; [ apply returns_consoleError | apply returns_ret ]). }
  eapply returns_bind; [ | apply returns_ret ].
  destruct includeTags; [ | rewrite app_nil_r; apply returns_ret ].
  eapply returns_bind; [ apply generateTagsSidebarGroup_returns | ].
  destruct (tagsItems_shape lc root scanRoot baseUrl) as [-> | [g ->]].
  - rewrite app_nil_r. apply returns_ret.
  - apply returns_ret.
Qed.

(** ** The walks on small trees *)

Example guide_index_and_setup :
  generateSidebar codeUnitCompare
    (Directory [("guide", Directory [("setup.md", markupFile None TagsAbsent);
                                     ("index.md", markupFile None TagsAbsent)])])
    "/srv/content" "/" true []
  = (Returned [("/", [Group "Guide" [Leaf "Index" "/guide/";
                                     Leaf "Setup" "/guide/setup"] true])],
     []).
Proof. vm_compute. reflexivity. Qed.

Example missing_root_is_logged :
  generateSidebar codeUnitCompare Unstatable "/srv/content" "/" true []
  = (Returned [("/", [])],
     [ConsoleError
        "[Sidebar] Error reading root content directory /srv/content:"]).
Proof. vm_compute. reflexivity. Qed.

Example loose_file_only_under_tags :
  generateSidebar codeUnitCompare looseFileTree "/srv/content" "/" true []
  = (Returned
       [("/", [Group "Guide" [Leaf "Setup" "/guide/setup"] true;
               Group "Tags" [Group "meta" [Leaf "About" "/about"] true] true])],
     []).
Proof. vm_compute. reflexivity. Qed.

Example extname_examples :
  extname "index.md" = ".md" /\ extname ".bashrc" = EmptyString
  /\ extname "archive.tar.gz" = ".gz" /\ extname "index." = "."
  /\ extname "notes" = EmptyString /\ extname ".." = EmptyString.
Proof. vm_compute. repeat split. Qed.

(** ** The name normalizer *)

(** C2, as the code has it: [cleanName] maps "01-my_post-name.md" to
    "My Post Name" and leaves "README" as "README": the first letter of
    every word is capitalized, and a character that follows a word
    character is left as it is. *)
Theorem cleanName_examples :
  cleanName "01-my_post-name.md" = "My Post Name"
  /\ cleanName "README" = "README"
  /\ (forall c r, titleCaseFrom true (String c r)
                  = String c (titleCaseFrom (Chars.isWord c) r)).
Proof.
  split; [ reflexivity | split; [ reflexivity | ] ].
  intros c r. simpl. now rewrite andb_false_r.
Qed.

(** C2 fails as stated: "README" is not turned into "Readme". *)
Lemma cleanName_README_not_Readme :
  ~ (cleanName "01-my_post-name.md" = "My Post Name"
     /\ cleanName "README" = "Readme").
Proof. intros [_ H]. vm_compute in H. discriminate H. Qed.

(** ** The key of the navigation model *)

(** C3: whatever the base URL, the model has the one key "/"; with the
    base URL "/blog/" the key is not the base URL. *)
Theorem generateSidebar_key_is_root_marker
  (lc : string -> string -> Z) (root : node) (scanRoot : string)
  (includeTags : bool) (c : console) :
  exists items c',
    generateSidebar lc root scanRoot "/blog/" includeTags c
    = (Returned [("/", items)], c')
    /\ "/" <> "/blog/".
Proof.
  destruct (generateSidebar_returns lc root scanRoot "/blog/" includeTags c)
    as [c' H].
  unfold sidebarValue in H. eexists. exists c'. split; [ exact H | discriminate ].
Qed.

(** ** The tag index *)

Lemma mapGet_mapSet_same (m : TagsMap) (k : string) (v : list TagPageInfo) :
  mapGet (mapSet m k v) k = Some v.
Proof.
  induction m as [ | [k' v'] m IH ]; simpl.
  - now rewrite String.eqb_refl.
  - destruct (String.eqb k' k) eqn:E; simpl; rewrite E; [ reflexivity | exact IH ].
Qed.

Lemma mapGet_mapSet_other (m : TagsMap) (k k' : string)
  (v : list TagPageInfo) :
  k' <> k -> mapGet (mapSet m k v) k' = mapGet m k'.
Proof.
  intros Hne. induction m as [ | [k0 v0] m IH ]; simpl.
  - destruct (String.eqb k k') eqn:E; [ | reflexivity ].
    apply String.eqb_eq in E. congruence.
  - destruct (String.eqb k0 k) eqn:E; simpl.
    + apply String.eqb_eq in E. subst k0.
      destruct (String.eqb k k') eqn:E'; [ | reflexivity ].
      apply String.eqb_eq in E'. congruence.
    + now rewrite IH.
Qed.

Lemma pagesOf_addTagPage_same (page : TagPageInfo) (m : TagsMap)
  (tag : string) :
  pagesOf (addTagPage page m tag) (Str.trim tag)
  = pushOnce page (pagesOf m (Str.trim tag)).
Proof.
  unfold addTagPage, pagesOf, pushOnce, mapHas.
  destruct (mapGet m (Str.trim tag)) as [pages | ] eqn:E; cbn [negb].
  - rewrite E.
    destruct (existsb _ pages); cbn [negb];
      [ rewrite E | rewrite mapGet_mapSet_same ]; reflexivity.
  - rewrite mapGet_mapSet_same. cbn.
    now rewrite mapGet_mapSet_same.
Qed.

Lemma mapGet_addTagPage_other (page : TagPageInfo) (m : TagsMap)
  (tag k : string) :
  k <> Str.trim tag -> mapGet (addTagPage page m tag) k = mapGet m k.
Proof.
  intros Hne. unfold addTagPage.
  destruct (negb (mapHas m (Str.trim tag)));
    destruct (negb (existsb _ _));
    repeat rewrite mapGet_mapSet_other by exact Hne; reflexivity.
Qed.

Lemma pagesOf_addTagPage_other (page : TagPageInfo) (m : TagsMap)
  (tag k : string) :
  k <> Str.trim tag -> pagesOf (addTagPage page m tag) k = pagesOf m k.
Proof.
  intros Hne. unfold pagesOf. now rewrite mapGet_addTagPage_other.
Qed.




(** ** Paths *)

Lemma append_nil_r (s : string) : (s ++ EmptyString)%string = s.
Proof. induction s as [ | c s IH ]; simpl; [ reflexivity | now rewrite IH ]. Qed.

Lemma append_assoc (a b c : string) :
  ((a ++ b) ++ c)%string = (a ++ (b ++ c))%string.
Proof. induction a as [ | x a IH ]; simpl; [ reflexivity | now rewrite IH ]. Qed.

Lemma append_empty_inv (a b : string) :
  (a ++ b)%string = EmptyString -> a = EmptyString /\ b = EmptyString.
Proof. destruct a; simpl; [ now split | discriminate ]. Qed.

Lemma endsWith_app_char (a b : string) (c : ascii) :
  b <> EmptyString ->
  Str.endsWith (a ++ b) (String c EmptyString) = Str.endsWith b (String c EmptyString).
Proof.
  intros Hb. induction a as [ | x a IH ]; [ reflexivity | ].
  cbn [append Str.endsWith]. rewrite IH.
  destruct (String.eqb (String x (a ++ b)) (String c EmptyString)) eqn:E;
    [ | reflexivity ].
  apply String.eqb_eq in E. injection E as _ E.
  apply append_empty_inv in E. now destruct E.
Qed.

Lemma stripPrefix_app (p s : string) :
  Str.stripPrefix p (p ++ s) = Some s.
Proof.
  induction p as [ | c p IH ]; simpl; [ now destruct s | ].
  now rewrite Ascii.eqb_refl.
Qed.

Lemma pathJoin_separator (dirPath entry : string) :
  pathJoin dirPath entry = (withSeparator dirPath ++ entry)%string.
Proof.
  unfold pathJoin, withSeparator.
  destruct (Str.endsWith dirPath "/"); [ reflexivity | ].
  now rewrite append_assoc.
Qed.

Lemma pathRelative_below (root rest : string) :
  pathRelative root (withSeparator root ++ rest) = rest.
Proof.
  unfold pathRelative. fold (withSeparator root).
  now rewrite stripPrefix_app.
Qed.

Lemma endsWith_refl (s : string) : Str.endsWith s s = true.
Proof.
  destruct s; cbn [Str.endsWith]; now rewrite String.eqb_refl.
Qed.

Lemma endsWith_app (a p : string) : Str.endsWith (a ++ p) p = true.
Proof.
  induction a as [ | x a IH ]; [ apply endsWith_refl | ].
  cbn [append Str.endsWith]. rewrite IH. apply orb_true_r.
Qed.

Lemma withSeparator_endsWith (dirPath : string) :
  Str.endsWith (withSeparator dirPath) "/" = true.
Proof.
  unfold withSeparator. destruct (Str.endsWith dirPath "/") eqn:E;
    [ exact E | apply endsWith_app ].
Qed.

(** [path.join] below the content root: the root, its separator, and a
    relative path that does not depend on the root. *)
Lemma pathJoin_relative (root rel entry : string) :
  pathJoin (withSeparator root ++ rel) entry
  = (withSeparator root ++ relativeJoin rel entry)%string.
Proof.
  unfold pathJoin, relativeJoin.
  destruct rel as [ | c rel ].
  - rewrite append_nil_r, withSeparator_endsWith. reflexivity.
  - rewrite endsWith_app_char by discriminate.
    cbn [Str.isEmpty orb].
    destruct (Str.endsWith (String c rel) "/"); now rewrite !append_assoc.
Qed.

Lemma fold_left_ext_in {A S} (f g : S -> A -> S) (l : list A) :
  (forall a, In a l -> forall s, f s a = g s a) ->
  forall s, fold_left f l s = fold_left g l s.
Proof.
  induction l as [ | a l IH ]; intros H s; simpl; [ reflexivity | ].
  rewrite H by now left. apply IH. intros a' Ha'. apply H. now right.
Qed.

(** The tag index does not depend on where the content root lies. *)
Lemma scanTags_root_independent (n : node) :
  forall rel baseUrl tagsMap root1 root2,
    scanTags n (withSeparator root1 ++ rel) baseUrl tagsMap root1
    = scanTags n (withSeparator root2 ++ rel) baseUrl tagsMap root2.
Proof.
  induction n as [ | content | entries IH | | ] using node_nested_ind;
    intros rel baseUrl tagsMap root1 root2; try reflexivity.
  cbn [scanTags decorate]. rewrite !fold_left_map.
  apply fold_left_ext_in.
  intros [name child] Hin m. rewrite Forall_forall in IH.
  specialize (IH _ Hin). cbn [snd] in IH.
  unfold tagEntryValue, direntName, direntNode. cbn [fst snd].
  rewrite !pathJoin_relative, !pathRelative_below.
  destruct (isHidden name); [ reflexivity | ].
  destruct (statOf child) as [ st | ]; [ | reflexivity ].
  destruct (isDirectory st); [ apply IH | reflexivity ].
Qed.

Lemma scanTags_dirPath (n : node) (dirPath1 dirPath2 : string) :
  (forall entry, pathJoin dirPath1 entry = pathJoin dirPath2 entry) ->
  forall baseUrl tagsMap scanRoot,
    scanTags n dirPath1 baseUrl tagsMap scanRoot
    = scanTags n dirPath2 baseUrl tagsMap scanRoot.
Proof.
  intros Hjoin baseUrl tagsMap scanRoot.
  destruct n as [ | content | entries | | ]; try reflexivity.
  cbn [scanTags]. apply fold_left_ext_in.
  intros e _ m. unfold tagEntryValue. now rewrite Hjoin.
Qed.

Lemma tagIndex_root_independent (root : node)
  (scanRoot1 scanRoot2 baseUrl : string) :
  tagIndex root scanRoot1 baseUrl = tagIndex root scanRoot2 baseUrl.
Proof.
  unfold tagIndex.
  rewrite (scanTags_dirPath root scanRoot1 (withSeparator scanRoot1 ++ EmptyString)).
  2: { intros entry. now rewrite pathJoin_relative, pathJoin_separator. }
  rewrite (scanTags_dirPath root scanRoot2 (withSeparator scanRoot2 ++ EmptyString)).
  2: { intros entry. now rewrite pathJoin_relative, pathJoin_separator. }
  apply scanTags_root_independent.
Qed.

(** ** The tag-group structurer on the tutorial example *)

Lemma tutorial_tagsItems (lc : string -> string -> Z) (juneFirst : bool)
  (scanRoot : string) :
  let may := Group "May" [Leaf "Intro" "/2025/may/intro"] true in
  let june := Group "June" [Leaf "Advanced" "/2025/june/advanced"] true in
  exists children,
    tagsItems lc (tutorialTree juneFirst) scanRoot "/"
    = [Group "Tags" [Group "tutorial" [Group "2025" children true] true] true]
    /\ (children = [may; june] \/ children = [june; may]).
Proof.
  intros may june. unfold tagsItems.
  rewrite (tagIndex_root_independent _ scanRoot "/").
  destruct juneFirst;
    [ destruct (lc "June" "May") eqn:E | destruct (lc "May" "June") eqn:E ];
    eexists;
    (split; [ vm_compute; rewrite E; reflexivity | ]);
    solve [ now left | now right ].
Qed.

(** C8: with 2025/may/intro.md and 2025/june/advanced.md both tagged
    tutorial, the Tags group of the navigation model holds the one group
    tutorial, which holds the one group "2025", whose children are the
    group "May" with the leaf "Intro" and the group "June" with the leaf
    "Advanced", in the order the comparator gives the two groups. *)
Theorem tutorial_groups_are_nested_once
  (lc : string -> string -> Z) (juneFirst : bool) (scanRoot : string)
  (c : console) :
  let may := Group "May" [Leaf "Intro" "/2025/may/intro"] true in
  let june := Group "June" [Leaf "Advanced" "/2025/june/advanced"] true in
  exists structural children c',
    generateSidebar lc (tutorialTree juneFirst) scanRoot "/" true c
    = (Returned
         [("/", structural
                ++ [Group "Tags"
                      [Group "tutorial" [Group "2025" children true] true]
                      true])], c')
    /\ (children = [may; june] \/ children = [june; may]).
Proof.
  intros may june.
  destruct (generateSidebar_returns lc (tutorialTree juneFirst) scanRoot "/"
              true c) as [c' H].
  destruct (tutorial_tagsItems lc juneFirst scanRoot) as [children [Ht Hc]].
  exists (structuralItems lc (tutorialTree juneFirst) "/"), children, c'.
  split; [ | exact Hc ].
  rewrite H. unfold sidebarValue. now rewrite Ht.
Qed.

(** ** Failures of the file system *)

Lemma endsWith_cons (c : ascii) (s p : string) :
  Str.endsWith s p = true -> Str.endsWith (String c s) p = true.
Proof. intros H. cbn [Str.endsWith]. rewrite H. apply orb_true_r. Qed.

Lemma collapseSlashesFrom_endsWith (s : string) :
  forall inRun,
    Str.endsWith (collapseSlashesFrom inRun (s ++ "/")) "/" = true
    \/ (inRun = true /\ collapseSlashesFrom inRun (s ++ "/") = EmptyString).
Proof.
  induction s as [ | c s IH ]; intros inRun.
  - destruct inRun; cbn; [ right; now split | now left ].
  - cbn [append collapseSlashesFrom].
    destruct (Ascii.eqb c "/").
    + destruct inRun.
      * apply IH.
      * left. destruct (IH true) as [ H | [_ H] ].
        -- now apply endsWith_cons.
        -- rewrite H. reflexivity.
    + left. destruct (IH false) as [ H | [H _] ]; [ | discriminate ].
      now apply endsWith_cons.
Qed.

Lemma collapseSlashes_endsWith (s : string) :
  Str.endsWith (collapseSlashes (s ++ "/")) "/" = true.
Proof.
  unfold collapseSlashes.
  destruct (collapseSlashesFrom_endsWith s false) as [ H | [H _] ];
    [ exact H | discriminate ].
Qed.

Lemma subDirBaseUrl_endsWith (baseUrl entry : string) :
  Str.endsWith (baseUrl ++ entry ++ "/") "/" = true.
Proof. rewrite <- append_assoc. apply endsWith_app. Qed.

Lemma groupBaseUrl_endsWith (baseUrl entry : string) :
  Str.endsWith (collapseSlashes (baseUrl ++ entry ++ "/")) "/" = true.
Proof. rewrite <- append_assoc. apply collapseSlashes_endsWith. Qed.


(** ** Trees without markup files, trees without tags *)

Lemma sorted_decorate_In {R} (cmp : dirent R -> dirent R -> Z)
  (f : node -> R) (entries : list (string * node)) (e : dirent R) :
  In e (arraySort cmp (decorate f (Directory entries))) ->
  exists name child, e = (name, child, f child) /\ In (name, child) entries.
Proof.
  intros H. apply arraySort_In in H. cbn [decorate] in H.
  apply in_map_iff in H. destruct H as [[name child] [<- Hin]].
  now exists name, child.
Qed.

Lemma flat_map_nil {A B} (g : A -> list B) (l : list A) :
  (forall a, In a l -> g a = []) -> flat_map g l = [].
Proof.
  induction l as [ | a l IH ]; intros H; simpl; [ reflexivity | ].
  rewrite H by now left. apply IH. intros a' Ha'. apply H. now right.
Qed.

Lemma fold_left_fixed {A S} (g : S -> A -> S) (l : list A) (s : S) :
  (forall a, In a l -> g s a = s) -> fold_left g l s = s.
Proof.
  induction l as [ | a l IH ]; intros H; simpl; [ reflexivity | ].
  rewrite H by now left. apply IH. intros a' Ha'. apply H. now right.
Qed.

Lemma walkItems_without_markup (lc : string -> string -> Z) (n : node) :
  forall baseUrl, hasMarkup n = false -> walkItems lc n baseUrl = [].
Proof.
  induction n as [ | content | entries IH | | ] using node_nested_ind;
    intros baseUrl Hno; try reflexivity.
  cbn [walkItems]. apply flat_map_nil. intros e He.
  apply sorted_decorate_In in He. destruct He as [name [child [-> Hin]]].
  cbn [hasMarkup] in Hno.
  assert (Hentry : negb (isHidden name)
                   && match child with
                      | RegularFile _ => isMarkupName name
                      | _ => hasMarkup child
                      end = false).
  { destruct (negb (isHidden name) && _) eqn:E; [ | reflexivity ].
    rewrite <- Hno. symmetry. apply existsb_exists.
    exists (name, child). now split. }
  rewrite Forall_forall in IH. specialize (IH _ Hin). cbn [snd] in IH.
  unfold entryItems, direntName, direntNode. cbn [fst snd].
  destruct (isHidden name); [ reflexivity | ]. cbn [negb andb] in Hentry.
  destruct child as [ | content | sub | | ]; cbn -[walkItems]; try reflexivity.
  - now rewrite Hentry.
  - now rewrite IH.
Qed.

Lemma walkItems_groups_nonempty (lc : string -> string -> Z) (n : node) :
  forall baseUrl, Forall GroupsNonEmpty (walkItems lc n baseUrl).
Proof.
  induction n as [ | content | entries IH | | ] using node_nested_ind;
    intros baseUrl; try constructor.
  cbn [walkItems]. apply Forall_flat_map, Forall_forall. intros e He.
  apply sorted_decorate_In in He. destruct He as [name [child [-> Hin]]].
  rewrite Forall_forall in IH. specialize (IH _ Hin). cbn [snd] in IH.
  unfold entryItems, direntName, direntNode. cbn [fst snd].
  destruct (isHidden name); [ constructor | ].
  destruct (statOf child) as [ st | ]; [ | constructor ].
  destruct (isDirectory st).
  - specialize (IH (withTrailingSlash baseUrl ++ name ++ "/")%string).
    destruct (walkItems lc child _) as [ | it its ]; cbn; constructor;
      [ | constructor ].
    constructor; [ discriminate | exact IH ].
  - destruct (isFile st && isMarkupName name); repeat constructor.
Qed.

Lemma scanTags_without_tags (n : node) :
  forall dirPath baseUrl tagsMap scanRoot,
    declaresTag n = false ->
    scanTags n dirPath baseUrl tagsMap scanRoot = tagsMap.
Proof.
  induction n as [ | content | entries IH | | ] using node_nested_ind;
    intros dirPath baseUrl tagsMap scanRoot Hno; try reflexivity.
  cbn [scanTags]. apply fold_left_fixed. intros e He.
  cbn [decorate] in He. apply in_map_iff in He.
  destruct He as [[name child] [<- Hin]].
  cbn [declaresTag] in Hno.
  assert (Hentry : negb (isHidden name)
                   && match child with
                      | RegularFile (Some (Parsed fm)) =>
                          isMarkupName name
                          && (0 <? List.length (fileTagsOf fm))%nat
                      | RegularFile _ => false
                      | _ => declaresTag child
                      end = false).
  { destruct (negb (isHidden name) && _) eqn:E; [ | reflexivity ].
    rewrite <- Hno. symmetry. apply existsb_exists.
    exists (name, child). now split. }
  rewrite Forall_forall in IH. specialize (IH _ Hin). cbn [snd] in IH.
  unfold tagEntryValue, direntName, direntNode. cbn [fst snd].
  destruct (isHidden name); [ reflexivity | ]. cbn [negb andb] in Hentry.
  destruct child as [ | [ [ | fm ] | ] | sub | | ];
    cbn -[scanTags Nat.ltb fileTagsOf];
    try reflexivity; try (now destruct (isMarkupName name)).
  - destruct (isMarkupName name); [ | reflexivity ].
    cbn [andb] in Hentry. now rewrite Hentry.
  - now apply IH.
Qed.

(** ** Links of sibling leaves *)

Lemma leafLinks_app (a b : list SidebarItem) :
  leafLinks (a ++ b) = leafLinks a ++ leafLinks b.
Proof.
  induction a as [ | [t l | t its col] a IH ]; simpl;
    [ reflexivity | now rewrite IH | exact IH ].
Qed.

Lemma leafLinks_flat_map {A} (g : A -> list SidebarItem) (l : list A) :
  leafLinks (flat_map g l) = flat_map (fun a => leafLinks (g a)) l.
Proof.
  induction l as [ | a l IH ]; simpl; [ reflexivity | ].
  now rewrite leafLinks_app, IH.
Qed.

Lemma leafLinks_perm (l l' : list SidebarItem) :
  Permutation l l' -> Permutation (leafLinks l) (leafLinks l').
Proof.
  induction 1 as [ | x l l' _ IH | x y l | l l' l'' _ IH1 _ IH2 ].
  - constructor.
  - destruct x; simpl; [ now constructor | exact IH ].
  - destruct x, y; simpl; try apply Permutation_refl; constructor.
  - now apply perm_trans with (leafLinks l').
Qed.

Lemma leafLinks_In (l : string) (items : list SidebarItem) :
  In l (leafLinks items) <-> existsb (linkIs l) items = true.
Proof.
  induction items as [ | [t l' | t its col] items IH ]; simpl.
  - split; [ tauto | discriminate ].
  - rewrite orb_true_iff, String.eqb_eq, IH. tauto.
  - exact IH.
Qed.

Lemma filter_perm {A} (p : A -> bool) (l l' : list A) :
  Permutation l l' -> Permutation (filter p l) (filter p l').
Proof.
  induction 1 as [ | x l l' _ IH | x y l | l l' l'' _ IH1 _ IH2 ]; simpl.
  - constructor.
  - destruct (p x); [ now constructor | exact IH ].
  - destruct (p x), (p y); try apply Permutation_refl. constructor.
  - now apply perm_trans with (filter p l').
Qed.

Lemma nodupStrings_NoDup (l : list string) :
  nodupStrings l = true -> NoDup l.
Proof.
  induction l as [ | x l IH ]; simpl; intros H; constructor.
  - apply andb_true_iff in H. destruct H as [H _].
    intros Hin. apply negb_true_iff in H.
    assert (existsb (String.eqb x) l = true); [ | congruence ].
    apply existsb_exists. exists x. split; [ exact Hin | apply String.eqb_refl ].
  - apply andb_true_iff in H. now apply IH.
Qed.

Lemma Forall_perm {A} (P : A -> Prop) (l l' : list A) :
  Permutation l l' -> Forall P l -> Forall P l'.
Proof.
  intros Hp H. rewrite Forall_forall in *. intros x Hx.
  apply H. eapply Permutation_in; [ apply Permutation_sym, Hp | exact Hx ].
Qed.

Lemma LinksUniqueIn_perm (l l' : list SidebarItem) :
  Permutation l l' -> LinksUniqueIn l -> LinksUniqueIn l'.
Proof.
  intros Hp [Hn Hf]. split.
  - eapply Permutation_NoDup; [ apply leafLinks_perm, Hp | exact Hn ].
  - eapply Forall_perm; eassumption.
Qed.

(** *** The structural walk *)

Lemma entryItems_leafLinks (baseUrl name : string) (child : node)
  (w : string -> list SidebarItem) :
  leafLinks (entryItems baseUrl (name, child, w))
  = if isMarkupEntry (name, child) then [getFileLink name baseUrl] else [].
Proof.
  unfold entryItems, isMarkupEntry, direntName, direntNode. cbn [fst snd].
  destruct (isHidden name); [ reflexivity | ].
  destruct child as [ | content | sub | | ]; cbn -[getFileLink];
    try reflexivity.
  - destruct (isMarkupName name); reflexivity.
  - destruct (w _); reflexivity.
  - destruct (w _); reflexivity.
Qed.

Lemma walkItems_leafLinks (lc : string -> string -> Z)
  (entries : list (string * node)) (baseUrl : string) :
  Permutation
    (leafLinks (walkItems lc (Directory entries) baseUrl))
    (map (fun e => getFileLink (fst e) (withTrailingSlash baseUrl))
         (filter isMarkupEntry entries)).
Proof.
  cbn [walkItems]. rewrite leafLinks_flat_map.
  eapply perm_trans.
  { apply Permutation_flat_map, arraySort_perm. }
  cbn [decorate]. rewrite flat_map_map.
  induction entries as [ | [name child] entries IH ]; simpl;
    [ constructor | ].
  rewrite entryItems_leafLinks. cbn [fst snd].
  destruct (isMarkupEntry (name, child)); simpl;
    [ now constructor | exact IH ].
Qed.

Lemma walkItems_links_unique (lc : string -> string -> Z) (n : node) :
  forall baseUrl,
    linksDistinct n baseUrl = true ->
    LinksUniqueIn (walkItems lc n baseUrl).
Proof.
  induction n as [ | content | entries IH | | ] using node_nested_ind;
    intros baseUrl Hd; try (split; constructor).
  cbn [linksDistinct] in Hd. apply andb_true_iff in Hd.
  destruct Hd as [Hnodup Hsub]. split.
  - eapply Permutation_NoDup;
      [ apply Permutation_sym, walkItems_leafLinks | ].
    now apply nodupStrings_NoDup.
  - cbn [walkItems]. apply Forall_flat_map, Forall_forall. intros e He.
    apply sorted_decorate_In in He. destruct He as [name [child [-> Hin]]].
    rewrite Forall_forall in IH. specialize (IH _ Hin). cbn [snd] in IH.
    rewrite forallb_forall in Hsub. specialize (Hsub _ Hin).
    cbn [fst snd] in Hsub.
    unfold entryItems, direntName, direntNode. cbn [fst snd].
    destruct (isHidden name); [ constructor | ]. cbn [orb] in Hsub.
    destruct (statOf child) as [ st | ]; [ | constructor ].
    destruct (isDirectory st).
    + destruct (IH _ Hsub) as [Hn Hf].
      destruct (walkItems lc child _) as [ | it its ] eqn:E; cbn;
        constructor; [ | constructor ].
      now constructor.
    + destruct (isFile st && isMarkupName name); repeat constructor.
Qed.

(** *** The tag-group structurer *)

Lemma updateFirst_leafLinks (test : SidebarItem -> bool)
  (f : SidebarItem -> SidebarItem) (l : list SidebarItem) :
  (forall it, leafLinks [f it] = leafLinks [it]) ->
  leafLinks (updateFirst test f l) = leafLinks l.
Proof.
  intros Hf. induction l as [ | it l IH ]; cbn [updateFirst];
    [ reflexivity | ].
  destruct (test it).
  - change (f it :: l) with ([f it] ++ l).
    change (it :: l) with ([it] ++ l).
    now rewrite !leafLinks_app, Hf.
  - change (it :: updateFirst test f l) with ([it] ++ updateFirst test f l).
    change (it :: l) with ([it] ++ l).
    now rewrite !leafLinks_app, IH.
Qed.

Lemma updateFirst_Forall (P : SidebarItem -> Prop)
  (test : SidebarItem -> bool) (f : SidebarItem -> SidebarItem)
  (l : list SidebarItem) :
  (forall it, P it -> P (f it)) ->
  Forall P l -> Forall P (updateFirst test f l).
Proof.
  intros Hf. induction 1 as [ | it l Hit Hl IH ]; simpl; [ constructor | ].
  destruct (test it); constructor; auto.
Qed.

Lemma insertPageIntoStructure_links_unique (lc : string -> string -> Z)
  (segments : list string) (pageLink pageText : string) :
  forall parentItems,
    LinksUniqueIn parentItems ->
    LinksUniqueIn
      (insertPageIntoStructure lc parentItems segments pageLink pageText).
Proof.
  induction segments as [ | currentSegment rest IH ];
    intros parentItems Hu; [ exact Hu | ].
  cbn [insertPageIntoStructure].
  destruct rest as [ | next rest' ].
  - destruct (existsb (linkIs pageLink) parentItems) eqn:E; cbn [negb];
      [ exact Hu | ].
    eapply LinksUniqueIn_perm;
      [ apply Permutation_sym, arraySort_perm | ].
    destruct Hu as [Hn Hf]. split.
    + rewrite leafLinks_app. cbn [leafLinks].
      apply Permutation_NoDup with (l := pageLink :: leafLinks parentItems).
      * apply Permutation_cons_append.
      * constructor; [ | exact Hn ].
        rewrite leafLinks_In. congruence.
    + apply Forall_app. split; [ exact Hf | repeat constructor ].
  - set (dirName := cleanName currentSegment).
    destruct (existsb (isGroupNamed dirName) parentItems).
    + destruct Hu as [Hn Hf]. split.
      * rewrite updateFirst_leafLinks; [ exact Hn | ].
        now intros [ t l | t its col ].
      * apply updateFirst_Forall; [ | exact Hf ].
        intros [ t l | t its col ] Hit; [ exact Hit | ].
        inversion Hit as [ | t' its' col' Hn' Hf' ]; subst.
        destruct (IH its (conj Hn' Hf')) as [Hn'' Hf''].
        now constructor.
    + eapply LinksUniqueIn_perm;
        [ apply Permutation_sym, arraySort_perm | ].
      destruct Hu as [Hn Hf]. split.
      * rewrite leafLinks_app. cbn [leafLinks]. now rewrite app_nil_r.
      * apply Forall_app. split; [ exact Hf | ].
        constructor; [ | constructor ].
        destruct (IH [] (conj (NoDup_nil _) (Forall_nil _))) as [Hn' Hf'].
        now constructor.
Qed.

Lemma tagGroup_links_unique (lc : string -> string -> Z) (tagsMap : TagsMap)
  (tag : string) :
  LinksUnique (tagGroup lc tagsMap tag).
Proof.
  unfold tagGroup.
  assert (H : forall pages items,
             LinksUniqueIn items ->
             LinksUniqueIn (fold_left (insertTagPage lc) pages items)).
  { induction pages as [ | page pages IH ]; intros items Hu; [ exact Hu | ].
    cbn [fold_left]. apply IH. unfold insertTagPage.
    destruct (0 <? _)%nat; [ | exact Hu ].
    now apply insertPageIntoStructure_links_unique. }
  destruct (H (match mapGet tagsMap tag with
               | Some pages => pages
               | None => []
               end) [] (conj (NoDup_nil _) (Forall_nil _))) as [Hn Hf].
  now constructor.
Qed.

Lemma leafLinks_groups (items : list SidebarItem) :
  Forall (fun it => hasItems it = true) items -> leafLinks items = [].
Proof.
  induction 1 as [ | [ t l | t its col ] items Hit _ IH ];
    [ reflexivity | discriminate | exact IH ].
Qed.

Lemma tagsItems_links_unique (lc : string -> string -> Z) (root : node)
  (scanRoot baseUrl : string) :
  Forall (fun it => hasItems it = true) (tagsItems lc root scanRoot baseUrl)
  /\ Forall LinksUnique (tagsItems lc root scanRoot baseUrl).
Proof.
  unfold tagsItems. destruct (Nat.eqb _ 0); [ split; constructor | ].
  split; constructor; try constructor; try reflexivity.
  - rewrite leafLinks_groups; [ constructor | ].
    apply Forall_forall. intros it Hit. apply in_map_iff in Hit.
    destruct Hit as [tag [<- _]]. reflexivity.
  - apply Forall_forall. intros it Hit. apply in_map_iff in Hit.
    destruct Hit as [tag [<- _]]. apply tagGroup_links_unique.
Qed.

Lemma topLevelItems_groups (baseUrl : string)
  (e : dirent (string -> list SidebarItem)) :
  Forall (fun it => hasItems it = true) (topLevelItems baseUrl e).
Proof.
  unfold topLevelItems. destruct (isHidden _); [ constructor | ].
  destruct (statOf _) as [ st | ]; [ | constructor ].
  destruct (isDirectory st); [ | constructor ].
  destruct (0 <? _)%nat; repeat constructor.
Qed.

Lemma structuralItems_groups (lc : string -> string -> Z) (root : node)
  (baseUrl : string) :
  Forall (fun it => hasItems it = true) (structuralItems lc root baseUrl).
Proof.
  unfold structuralItems. destruct root; try constructor.
  eapply Forall_perm; [ apply Permutation_sym, arraySort_perm | ].
  apply Forall_flat_map, Forall_forall. intros e _.
  apply topLevelItems_groups.
Qed.

Lemma structuralItems_links_unique (lc : string -> string -> Z) (root : node)
  (baseUrl : string) :
  linksDistinctBelow root baseUrl = true ->
  Forall LinksUnique (structuralItems lc root baseUrl).
Proof.
  intros Hd. unfold structuralItems.
  destruct root as [ | content | entries | | ]; try constructor.
  eapply Forall_perm; [ apply Permutation_sym, arraySort_perm | ].
  apply Forall_flat_map, Forall_forall. intros e He.
  cbn [decorate] in He. apply in_map_iff in He.
  destruct He as [[name child] [<- Hin]].
  cbn [linksDistinctBelow] in Hd. rewrite forallb_forall in Hd.
  specialize (Hd _ Hin). cbn [fst snd] in Hd.
  unfold topLevelItems, direntName, direntNode. cbn [fst snd].
  destruct (isHidden name); [ constructor | ]. cbn [orb] in Hd.
  destruct (statOf child) as [ st | ]; [ | constructor ].
  destruct (isDirectory st); [ | constructor ].
  destruct (walkItems_links_unique lc child _ Hd) as [Hn Hf].
  destruct (walkItems lc child _) as [ | it its ]; cbn; constructor;
    [ | constructor ].
  now constructor.
Qed.

(** C1 fails as stated: an index and a readme in one directory give two
    sibling leaves with the link of the directory. *)
Lemma index_and_readme_share_a_link :
  exists items c',
    generateSidebar codeUnitCompare indexAndReadmeTree "/srv/content" "/"
                    true []
    = (Returned [("/", items)], c')
    /\ ~ Forall LinksUnique items.
Proof.
  eexists. eexists. split; [ vm_compute; reflexivity | ].
  intros H. inversion H as [ | it its Hit _ ]; subst.
  inversion Hit as [ | t items col Hn _ ]; subst.
  cbn in Hn. inversion Hn as [ | l ls Hnot _ ]; subst.
  apply Hnot. now left.
Qed.

(** ** The order of the structural walk *)

Section SortedOnDomain.

Context {A : Type}.
Variable compareFn : A -> A -> Z.
Variable domain : list A.

Hypothesis compare_total :
  forall a b, In a domain -> In b domain ->
              (compareFn a b <= 0)%Z \/ (compareFn b a <= 0)%Z.
Hypothesis compare_trans :
  forall a b c, In a domain -> In b domain -> In c domain ->
                (compareFn a b <= 0)%Z -> (compareFn b c <= 0)%Z ->
                (compareFn a c <= 0)%Z.

Lemma insertSorted_sorted (x : A) (l : list A) :
  In x domain -> incl l domain ->
  StronglySorted (fun a b => (compareFn a b <= 0)%Z) l ->
  StronglySorted (fun a b => (compareFn a b <= 0)%Z)
                 (insertSorted compareFn x l).
Proof.
  intros Hx Hl Hs. induction Hs as [ | y l Hs IH Hy ]; simpl.
  - repeat constructor.
  - assert (Hyd : In y domain) by (apply Hl; now left).
    assert (Hld : incl l domain) by (intros z Hz; apply Hl; now right).
    destruct (compareFn x y <=? 0)%Z eqn:E.
    + apply Z.leb_le in E. constructor; [ now constructor | ].
      constructor; [ exact E | ].
      rewrite Forall_forall in *. intros z Hz.
      apply (compare_trans x y z); auto.
    + apply Z.leb_gt in E. constructor; [ now apply IH | ].
      rewrite Forall_forall in *. intros z Hz.
      apply (Permutation_in _ (insertSorted_perm compareFn x l)) in Hz.
      destruct Hz as [ <- | Hz ]; [ | now apply Hy ].
      destruct (compare_total x y Hx Hyd) as [ H | H ]; [ lia | exact H ].
Qed.

Lemma arraySort_sorted (l : list A) :
  incl l domain ->
  StronglySorted (fun a b => (compareFn a b <= 0)%Z) (arraySort compareFn l).
Proof.
  induction l as [ | x l IH ]; intros Hl; simpl; [ constructor | ].
  apply insertSorted_sorted.
  - apply Hl. now left.
  - intros z Hz. apply arraySort_In in Hz. apply Hl. now right.
  - apply IH. intros z Hz. apply Hl. now right.
Qed.

End SortedOnDomain.

Lemma entryCompare_le_iff {R} (lc : string -> string -> Z) (a b : dirent R) :
  existsSync (direntNode a) = true ->
  existsSync (direntNode b) = true ->
  (entryCompare lc a b <= 0)%Z <-> entryOrder lc (plainEntry a) (plainEntry b).
Proof.
  destruct a as [[na ca] wa], b as [[nb cb] wb].
  unfold entryCompare, entryOrder, plainEntry, isDirNode, existsSync,
    direntName, direntNode.
  cbn [fst snd]. intros Ha Hb.
  destruct (statOf ca) as [ sa | ]; [ | discriminate ].
  destruct (statOf cb) as [ sb | ]; [ | discriminate ].
  destruct (isIndexMd na), (isIndexMd nb), (isDirectory sa), (isDirectory sb);
    cbn; split; intros H;
    try lia;
    try (now left);
    try (right; split; [ reflexivity | now left ]);
    try (right; split; [ reflexivity | right; split; [ reflexivity | exact H ] ]);
    try (destruct H as [ [H1 H2] | [H1 [ [H2 H3] | [H2 H3] ] ] ];
         try discriminate; try exact H3; lia).
Qed.

Lemma consistentOn_total (lc : string -> string -> Z) (names : list string) :
  consistentOn lc names = true ->
  forall a b, In a names -> In b names ->
              (lc a b <= 0)%Z \/ (lc b a <= 0)%Z.
Proof.
  unfold consistentOn. intros H a b Ha Hb.
  rewrite forallb_forall in H. specialize (H a Ha).
  rewrite forallb_forall in H. specialize (H b Hb).
  apply andb_true_iff in H. destruct H as [H _].
  apply orb_true_iff in H. destruct H as [ H | H ]; apply Z.leb_le in H; auto.
Qed.

Lemma consistentOn_trans (lc : string -> string -> Z) (names : list string) :
  consistentOn lc names = true ->
  forall a b c, In a names -> In b names -> In c names ->
                (lc a b <= 0)%Z -> (lc b c <= 0)%Z -> (lc a c <= 0)%Z.
Proof.
  unfold consistentOn. intros H a b c Ha Hb Hc Hab Hbc.
  rewrite forallb_forall in H. specialize (H a Ha).
  rewrite forallb_forall in H. specialize (H b Hb).
  apply andb_true_iff in H. destruct H as [_ H].
  rewrite forallb_forall in H. specialize (H c Hc).
  apply Z.leb_le in Hab, Hbc. rewrite Hab, Hbc in H. cbn in H.
  now apply Z.leb_le.
Qed.

Lemma entryOrder_total (lc : string -> string -> Z) (a b : string * node) :
  (lc (fst a) (fst b) <= 0)%Z \/ (lc (fst b) (fst a) <= 0)%Z ->
  entryOrder lc a b \/ entryOrder lc b a.
Proof.
  unfold entryOrder. intros H.
  destruct (isIndexMd (fst a)), (isIndexMd (fst b)),
    (isDirNode (snd a)), (isDirNode (snd b)); tauto.
Qed.

Lemma entryOrder_trans (lc : string -> string -> Z) (a b c : string * node) :
  ((lc (fst a) (fst b) <= 0)%Z -> (lc (fst b) (fst c) <= 0)%Z ->
   (lc (fst a) (fst c) <= 0)%Z) ->
  entryOrder lc a b -> entryOrder lc b c -> entryOrder lc a c.
Proof.
  unfold entryOrder. intros H.
  destruct (isIndexMd (fst a)), (isIndexMd (fst b)), (isIndexMd (fst c)),
    (isDirNode (snd a)), (isDirNode (snd b)), (isDirNode (snd c));
    intuition (try discriminate).
Qed.

Lemma StronglySorted_map_weaken {A B} (f : A -> B) (R : A -> A -> Prop)
  (R' : B -> B -> Prop) (l : list A) :
  (forall a b, In a l -> In b l -> R a b -> R' (f a) (f b)) ->
  StronglySorted R l -> StronglySorted R' (map f l).
Proof.
  intros HR Hs. induction Hs as [ | x l Hs IH Hx ]; simpl; constructor.
  - apply IH. intros a b Ha Hb. apply HR; now right.
  - rewrite Forall_forall in *. intros y Hy. apply in_map_iff in Hy.
    destruct Hy as [z [<- Hz]]. apply HR; [ now left | now right | auto ].
Qed.

Lemma entryItems_at_most_one (baseUrl : string)
  (e : dirent (string -> list SidebarItem)) :
  (List.length (entryItems baseUrl e) <= 1)%nat.
Proof.
  unfold entryItems. destruct (isHidden _); [ cbn; lia | ].
  destruct (statOf _) as [ st | ]; [ | cbn; lia ].
  destruct (isDirectory st).
  - destruct (0 <? _)%nat; cbn; lia.
  - destruct (isFile st && _); cbn; lia.
Qed.

(** The entries of a directory in the order in which
    [generateSidebarItems] goes through them. *)
Lemma processed_entries (lc : string -> string -> Z)
  (entries : list (string * node)) :
  allStatable entries = true ->
  consistentOn lc (map fst entries) = true ->
  StronglySorted (entryOrder lc)
    (map plainEntry
       (arraySort (entryCompare lc)
          (decorate (generateSidebarItems lc) (Directory entries)))).
Proof.
  intros Hstat Hcons.
  set (domain := decorate (generateSidebarItems lc) (Directory entries)).
  assert (Hdom : forall e, In e domain ->
                           In (plainEntry e) entries
                           /\ existsSync (direntNode e) = true).
  { intros e He. apply decorate_In in He. destruct He as [_ Hin].
    split; [ exact Hin | ].
    unfold allStatable in Hstat. rewrite forallb_forall in Hstat.
    apply (Hstat _ Hin). }
  assert (Hname : forall e, In e domain -> In (fst (plainEntry e))
                                             (map fst entries)).
  { intros e He. apply in_map, Hdom, He. }
  apply StronglySorted_map_weaken
    with (R := fun a b => (entryCompare lc a b <= 0)%Z).
  - intros a b Ha Hb Hab.
    apply arraySort_In in Ha, Hb.
    apply entryCompare_le_iff; [ apply Hdom, Ha | apply Hdom, Hb | exact Hab ].
  - apply arraySort_sorted with (domain := domain).
    + intros a b Ha Hb.
      destruct (entryOrder_total lc (plainEntry a) (plainEntry b)) as [ H | H ].
      * apply (consistentOn_total lc _ Hcons); auto.
      * left. apply entryCompare_le_iff; [ apply Hdom, Ha | apply Hdom, Hb | exact H ].
      * right. apply entryCompare_le_iff; [ apply Hdom, Hb | apply Hdom, Ha | exact H ].
    + intros a b c Ha Hb Hc Hab Hbc.
      apply entryCompare_le_iff; [ apply Hdom, Ha | apply Hdom, Hc | ].
      apply entryCompare_le_iff in Hab; [ | apply Hdom, Ha | apply Hdom, Hb ].
      apply entryCompare_le_iff in Hbc; [ | apply Hdom, Hb | apply Hdom, Hc ].
      apply (entryOrder_trans lc _ (plainEntry b)); auto.
      apply (consistentOn_trans lc _ Hcons); auto.
    + intros e He. exact He.
Qed.

(** C6: the walk does not keep the order that the comment on its sort
    announces (index and readme first, then directories, then other
    files) when an entry cannot be statted: the comparator then compares
    that entry by name only.  With a dangling link between them in the
    listing, a file is processed, and its leaf emitted, before a
    subdirectory. *)
Lemma dangling_link_breaks_the_order :
  generateSidebarItems codeUnitCompare (Directory danglingLinkEntries)
                       "/srv/content/d" "/d/" []
  = (Returned [Leaf "A" "/d/a"; Group "Z" [Leaf "K" "/d/z/k"] true],
     [ConsoleError "[Sidebar] Error stating file/dir /srv/content/d/m:"])
  /\ ~ StronglySorted (entryOrder codeUnitCompare)
         (map plainEntry
            (arraySort (entryCompare codeUnitCompare)
               (decorate (generateSidebarItems codeUnitCompare)
                         (Directory danglingLinkEntries)))).
Proof.
  split; [ vm_compute; reflexivity | ].
  intros H. cbn in H.
  inversion H as [ | x l _ Hx ]; subst.
  inversion Hx as [ | y l' _ Hy ]; subst.
  inversion Hy as [ | z l'' Hz _ ]; subst.
  unfold entryOrder in Hz. cbn in Hz.
  destruct Hz as [ [Hz _] | [_ [ [Hz _] | [Hz _] ] ] ]; discriminate.
Qed.

(** X12: in a directory all of whose entries can be statted, for a
    comparator that is total and transitive on the names of the directory,
    and the same in every directory that the walk reaches below it, the
    entries are processed with index and readme first (whatever the case
    of the name), then directories before files, then in the order of the
    comparator on the raw names; every entry emits at most one item, and
    the items returned are the emitted ones in the order of processing. *)
Theorem structural_walk_order
  (lc : string -> string -> Z) (entries : list (string * node))
  (dirPath baseUrl : string) :
  sortsConsistently lc (Directory entries) = true ->
  let processed :=
    map plainEntry
        (arraySort (entryCompare lc)
           (decorate (generateSidebarItems lc) (Directory entries))) in
  let emitted (e : string * node) :=
    entryItems (withTrailingSlash baseUrl)
               (fst e, snd e, walkItems lc (snd e)) in
  Permutation processed entries
  /\ StronglySorted (entryOrder lc) processed
  /\ Forall (fun e => (List.length (emitted e) <= 1)%nat) processed
  /\ returns (generateSidebarItems lc (Directory entries) dirPath baseUrl)
             (flat_map emitted processed).
Proof.
  intros Hsorts processed emitted.
  cbn [sortsConsistently] in Hsorts.
  apply andb_true_iff in Hsorts. destruct Hsorts as [Hsorts _].
  apply andb_true_iff in Hsorts. destruct Hsorts as [Hstat Hcons].
  split; [ | split; [ | split ] ].
  - unfold processed. eapply perm_trans.
    + apply Permutation_map, arraySort_perm.
    + cbn [decorate]. rewrite map_map.
      erewrite map_ext; [ rewrite map_id; apply Permutation_refl | ].
      now intros [name child].
  - now apply processed_entries.
  - apply Forall_forall. intros e _. apply entryItems_at_most_one.
  - pose proof (generateSidebarItems_returns lc (Directory entries) dirPath
                  baseUrl) as H.
    cbn [walkItems] in H.
    rewrite (decorate_map (generateSidebarItems lc) (walkItems lc)) in H.
    rewrite (arraySort_map (withValue (walkItems lc)) (entryCompare lc)
               (entryCompare lc)) in H
      by (intros; apply entryCompare_withValue).
    rewrite flat_map_map in H.
    unfold processed. rewrite flat_map_map. exact H.
Qed.

Lemma structural_walk_order_witness :
  let entries :=
    [("zebra.md", markupFile None TagsAbsent);
     ("guide", Directory [("setup.md", markupFile None TagsAbsent)]);
     ("README.md", markupFile None TagsAbsent)] in
  let processed :=
    map plainEntry
        (arraySort (entryCompare codeUnitCompare)
           (decorate (generateSidebarItems codeUnitCompare)
                     (Directory entries))) in
  let emitted (e : string * node) :=
    entryItems (withTrailingSlash "/docs/")
               (fst e, snd e, walkItems codeUnitCompare (snd e)) in
  Permutation processed entries
  /\ StronglySorted (entryOrder codeUnitCompare) processed
  /\ Forall (fun e => (List.length (emitted e) <= 1)%nat) processed
  /\ returns (generateSidebarItems codeUnitCompare (Directory entries)
                "/srv/content/docs" "/docs/")
             (flat_map emitted processed).
Proof.
  exact (structural_walk_order codeUnitCompare
           [("zebra.md", markupFile None TagsAbsent);
            ("guide", Directory [("setup.md", markupFile None TagsAbsent)]);
            ("README.md", markupFile None TagsAbsent)]
           "/srv/content/docs" "/docs/" eq_refl).
Defined.

(** ** Loose files of the content root *)

(** *** Last characters and path segments *)

Lemma lastChar_cons (c : ascii) (s : string) :
  s <> EmptyString -> lastChar (String c s) = lastChar s.
Proof. destruct s; [ congruence | reflexivity ]. Qed.

Lemma lastChar_app (a b : string) :
  b <> EmptyString -> lastChar (a ++ b) = lastChar b.
Proof.
  intros Hb. induction a as [ | c a IH ]; [ reflexivity | ].
  cbn [append]. rewrite lastChar_cons; [ exact IH | ].
  intros H. apply append_empty_inv in H. now destruct H.
Qed.

Lemma lastChar_some_nonempty (s : string) (c : ascii) :
  lastChar s = Some c -> s <> EmptyString.
Proof. now destruct s. Qed.

Lemma lastChar_map (f : ascii -> ascii) (s : string) :
  lastChar (Str.map f s) = option_map f (lastChar s).
Proof.
  induction s as [ | c s IH ]; [ reflexivity | ].
  destruct s as [ | d s ]; [ reflexivity | ].
  cbn [Str.map] in *. rewrite lastChar_cons by discriminate.
  rewrite IH. reflexivity.
Qed.

Lemma endsWith_empty (p : string) :
  Str.endsWith EmptyString p = true -> p = EmptyString.
Proof. destruct p; [ reflexivity | discriminate ]. Qed.

Lemma endsWith_lastChar (s p : string) :
  p <> EmptyString -> Str.endsWith s p = true -> lastChar s = lastChar p.
Proof.
  intros Hp. induction s as [ | c s IH ]; intros H.
  - apply endsWith_empty in H. contradiction.
  - cbn [Str.endsWith] in H.
    apply orb_true_iff in H. destruct H as [ H | H ].
    + apply String.eqb_eq in H. now subst.
    + rewrite lastChar_cons; [ now apply IH | ].
      intros ->. apply endsWith_empty in H. contradiction.
Qed.

Lemma toLowerChar_d (c : ascii) :
  Chars.toLowerChar c = "d"%char -> c <> "/"%char /\ c <> "\"%char.
Proof.
  intros H. split; intros ->; vm_compute in H; discriminate.
Qed.

Lemma markup_name_lastChar (entry : string) :
  isMarkupName entry = true ->
  exists c, lastChar entry = Some c /\ c <> "/"%char /\ c <> "\"%char.
Proof.
  unfold isMarkupName. intros H.
  apply endsWith_lastChar in H; [ | discriminate ].
  unfold Str.toLowerCase in H. rewrite lastChar_map in H.
  cbn [lastChar] in H.
  destruct (lastChar entry) as [ c | ]; cbn [option_map] in H;
    [ | discriminate ].
  exists c. split; [ reflexivity | ].
  apply toLowerChar_d. now injection H.
Qed.

Lemma stripPrefix_some (p s rest : string) :
  Str.stripPrefix p s = Some rest -> s = (p ++ rest)%string.
Proof.
  revert s. induction p as [ | c p IH ]; intros s H.
  - destruct s; cbn in *; congruence.
  - destruct s as [ | d s ]; cbn in H; [ discriminate | ].
    destruct (Ascii.eqb c d) eqn:E; [ | discriminate ].
    apply Ascii.eqb_eq in E. subst d. cbn. f_equal. now apply IH.
Qed.

Lemma pathJoin_lastChar (dirPath entry : string) :
  entry <> EmptyString -> lastChar (pathJoin dirPath entry) = lastChar entry.
Proof.
  intros He. unfold pathJoin. destruct (Str.endsWith dirPath "/").
  - now apply lastChar_app.
  - rewrite lastChar_app by discriminate.
    now apply (lastChar_app "/").
Qed.

Lemma pathRelative_lastChar (root to : string) (c : ascii) :
  lastChar to = Some c -> c <> "/"%char ->
  lastChar (pathRelative root to) = Some c.
Proof.
  intros Hto Hc. unfold pathRelative. fold (withSeparator root).
  destruct (Str.stripPrefix (withSeparator root) to) as [ rest | ] eqn:E;
    [ | exact Hto ].
  apply stripPrefix_some in E. subst to.
  destruct rest as [ | d rest ].
  - rewrite append_nil_r in Hto.
    pose proof (withSeparator_endsWith root) as Hs.
    apply endsWith_lastChar in Hs; [ | discriminate ].
    cbn in Hs. congruence.
  - now rewrite lastChar_app in Hto by discriminate.
Qed.

Lemma splitOn_nonempty_piece (sep : ascii) (s : string) (c : ascii) :
  lastChar s = Some c -> c <> sep ->
  exists piece, In piece (Str.splitOn sep s) /\ piece <> EmptyString.
Proof.
  intros Hs Hc. induction s as [ | x s IH ]; [ discriminate | ].
  destruct s as [ | y s ].
  - cbn in Hs. injection Hs as ->. cbn.
    destruct (Ascii.eqb c sep) eqn:E.
    + apply Ascii.eqb_eq in E. contradiction.
    + exists (String c EmptyString). split; [ now left | discriminate ].
  - rewrite lastChar_cons in Hs by discriminate.
    destruct (IH Hs) as [piece [Hin Hne]].
    cbn [Str.splitOn]. cbn [Str.splitOn] in Hin.
    destruct (Ascii.eqb x sep).
    + exists piece. split; [ now right | exact Hne ].
    + destruct (if Ascii.eqb y sep then _ else _) as [ | p0 ps ];
        [ contradiction | ].
      destruct Hin as [ <- | Hin ].
      * exists (String x p0). split; [ now left | discriminate ].
      * exists piece. split; [ now right | exact Hne ].
Qed.

Lemma markup_page_has_segment (scanRoot dirPath entry l t : string) :
  isMarkupName entry = true ->
  segmentsOf (mkTagPageInfo l t
                (normalizeSlashes
                   (pathRelative scanRoot (pathJoin dirPath entry)))) <> [].
Proof.
  intros Hm. destruct (markup_name_lastChar entry Hm) as [c [Hl [Hs Hb]]].
  unfold segmentsOf. cbn [relativePath].
  assert (Hlast : lastChar (normalizeSlashes
                              (pathRelative scanRoot (pathJoin dirPath entry)))
                  = Some c).
  { unfold normalizeSlashes. rewrite lastChar_map.
    rewrite (pathRelative_lastChar _ _ c); [ | | exact Hs ].
    - cbn. destruct (Ascii.eqb c "\") eqn:E; [ | reflexivity ].
      apply Ascii.eqb_eq in E. contradiction.
    - rewrite pathJoin_lastChar; [ exact Hl | ].
      now apply lastChar_some_nonempty with c. }
  destruct (splitOn_nonempty_piece "/" _ c Hlast Hs) as [piece [Hin Hne]].
  intros Hnil.
  assert (Hf : In piece (Str.filterBoolean
                           (Str.splitOn "/"
                              (normalizeSlashes
                                 (pathRelative scanRoot
                                    (pathJoin dirPath entry)))))).
  { apply filter_In. split; [ exact Hin | ]. now destruct piece. }
  rewrite Hnil in Hf. contradiction.
Qed.

(** *** What the scan records *)

Lemma pagesOf_addTagPage (page : TagPageInfo) (m : TagsMap) (tag k : string) :
  pagesOf (addTagPage page m tag) k
  = if String.eqb k (Str.trim tag) then pushOnce page (pagesOf m k)
    else pagesOf m k.
Proof.
  destruct (String.eqb k (Str.trim tag)) eqn:E.
  - apply String.eqb_eq in E. subst k. apply pagesOf_addTagPage_same.
  - apply String.eqb_neq in E. now apply pagesOf_addTagPage_other.
Qed.

Lemma pushOnce_incl (page p : TagPageInfo) (pages : list TagPageInfo) :
  In p pages -> In p (pushOnce page pages).
Proof.
  unfold pushOnce. destruct (existsb _ pages); [ auto | ].
  intros H. apply in_or_app. now left.
Qed.

Lemma pushOnce_has (page : TagPageInfo) (pages : list TagPageInfo) :
  exists p, In p (pushOnce page pages) /\ link p = link page.
Proof.
  unfold pushOnce. destruct (existsb _ pages) eqn:E.
  - apply existsb_exists in E. destruct E as [p [Hin Hp]].
    apply String.eqb_eq in Hp. now exists p.
  - exists page. split; [ | reflexivity ]. apply in_or_app. right. now left.
Qed.

Lemma pushOnce_Forall (P : TagPageInfo -> Prop) (page : TagPageInfo)
  (pages : list TagPageInfo) :
  P page -> Forall P pages -> Forall P (pushOnce page pages).
Proof.
  intros Hp H. unfold pushOnce. destruct (existsb _ pages); [ exact H | ].
  apply Forall_app. split; [ exact H | now constructor ].
Qed.

Lemma addTagPage_HasPage_mono (page : TagPageInfo) (m : TagsMap)
  (tag k l : string) :
  HasPage m k l -> HasPage (addTagPage page m tag) k l.
Proof.
  intros [p [Hin Hl]]. exists p. split; [ | exact Hl ].
  rewrite pagesOf_addTagPage.
  destruct (String.eqb k (Str.trim tag)); [ now apply pushOnce_incl | exact Hin ].
Qed.


Lemma fold_addTagPage_HasPage_mono (page : TagPageInfo) (tags : list string)
  (k l : string) :
  forall m, HasPage m k l -> HasPage (fold_left (addTagPage page) tags m) k l.
Proof.
  induction tags as [ | t tags IH ]; intros m H; [ exact H | ].
  cbn [fold_left]. now apply IH, addTagPage_HasPage_mono.
Qed.


Lemma fold_addTagPage_AllRooted (page : TagPageInfo) (tags : list string) :
  segmentsOf page <> [] ->
  forall m, AllRooted m -> AllRooted (fold_left (addTagPage page) tags m).
Proof.
  intros Hp. induction tags as [ | t tags IH ]; intros m H; [ exact H | ].
  cbn [fold_left]. apply IH. intros k. rewrite pagesOf_addTagPage.
  destruct (String.eqb k (Str.trim t)); [ | apply H ].
  apply pushOnce_Forall; [ exact Hp | apply H ].
Qed.

(** Both facts go through the scan of any tree. *)
Lemma scanTags_invariants (n : node) :
  forall dirPath baseUrl tagsMap scanRoot,
    (forall k l, HasPage tagsMap k l ->
                 HasPage (scanTags n dirPath baseUrl tagsMap scanRoot) k l)
    /\ (AllRooted tagsMap ->
        AllRooted (scanTags n dirPath baseUrl tagsMap scanRoot)).
Proof.
  induction n as [ | content | entries IH | | ] using node_nested_ind;
    intros dirPath baseUrl tagsMap scanRoot; try (split; auto; fail).
  cbn [scanTags decorate]. rewrite fold_left_map.
  set (base := withTrailingSlash baseUrl).
  revert tagsMap.
  induction entries as [ | [name child] entries IHentries ]; intros tagsMap;
    [ split; auto | ].
  inversion IH as [ | e es Hchild Hrest ]; subst. cbn [snd] in Hchild.
  cbn [fold_left].
  set (m1 := tagEntryValue dirPath base scanRoot tagsMap
               (name, child, scanTags child)).
  assert (Hstep : (forall k l, HasPage tagsMap k l -> HasPage m1 k l)
                  /\ (AllRooted tagsMap -> AllRooted m1)).
  { unfold m1, tagEntryValue, direntName, direntNode. cbn [fst snd].
    destruct (isHidden name); [ split; auto | ].
    destruct (statOf child) as [ st | ]; [ | split; auto ].
    destruct (isDirectory st); [ apply Hchild | ].
    destruct (isFile st && isMarkupName name) eqn:E; [ | split; auto ].
    apply andb_true_iff in E. destruct E as [_ Hm].
    destruct child as [ | [ [ | fm ] | ] | sub | | ]; try (split; auto; fail).
    destruct (0 <? _)%nat; [ | split; auto ].
    split.
    - intros k l. apply fold_addTagPage_HasPage_mono.
    - apply fold_addTagPage_AllRooted.
      now apply markup_page_has_segment. }
  destruct (IHentries Hrest m1) as [H1 H2].
  destruct Hstep as [S1 S2]. split; auto.
Qed.

(** *** What the structurer keeps *)

Lemma updateFirst_Exists (P : SidebarItem -> Prop)
  (test : SidebarItem -> bool) (f : SidebarItem -> SidebarItem)
  (l : list SidebarItem) :
  existsb test l = true ->
  (forall it, test it = true -> P (f it)) ->
  Exists P (updateFirst test f l).
Proof.
  intros He Hf. induction l as [ | it l IH ]; [ discriminate | ].
  cbn [updateFirst existsb] in *.
  destruct (test it) eqn:E.
  - left. now apply Hf.
  - right. now apply IH.
Qed.

Lemma updateFirst_Exists_mono (P : SidebarItem -> Prop)
  (test : SidebarItem -> bool) (f : SidebarItem -> SidebarItem)
  (l : list SidebarItem) :
  (forall it, P it -> P (f it)) ->
  Exists P l -> Exists P (updateFirst test f l).
Proof.
  intros Hf. induction 1 as [ it l Hit | it l Hl IH ]; cbn [updateFirst].
  - destruct (test it); left; auto.
  - destruct (test it); right; auto.
Qed.

Lemma Exists_perm {A} (P : A -> Prop) (l l' : list A) :
  Permutation l l' -> Exists P l -> Exists P l'.
Proof.
  intros Hp H. apply Exists_exists in H. destruct H as [x [Hin Hx]].
  apply Exists_exists. exists x. split; [ | exact Hx ].
  eapply Permutation_in; eassumption.
Qed.

Lemma LeafBelow_group_Exists (l t : string) (items : list SidebarItem)
  (col : bool) :
  LeafBelow l (Group t items col) <-> Exists (LeafBelow l) items.
Proof.
  split.
  - intros H. inversion H as [ | t' its col' it Hin Hit ]; subst.
    apply Exists_exists. now exists it.
  - intros H. apply Exists_exists in H. destruct H as [it [Hin Hit]].
    now apply LeafBelow_group with it.
Qed.

Lemma insertPageIntoStructure_keeps (lc : string -> string -> Z)
  (l : string) (segments : list string) (pageLink pageText : string) :
  forall parentItems,
    Exists (LeafBelow l) parentItems ->
    Exists (LeafBelow l)
      (insertPageIntoStructure lc parentItems segments pageLink pageText).
Proof.
  induction segments as [ | currentSegment rest IH ];
    intros parentItems H; [ exact H | ].
  cbn [insertPageIntoStructure].
  destruct rest as [ | next rest' ].
  - destruct (negb _); [ | exact H ].
    eapply Exists_perm; [ apply Permutation_sym, arraySort_perm | ].
    apply Exists_app. now left.
  - destruct (existsb _ parentItems).
    + apply updateFirst_Exists_mono; [ | exact H ].
      intros [ t l' | t its col ] Hit; [ exact Hit | ].
      apply LeafBelow_group_Exists. apply IH.
      now apply LeafBelow_group_Exists in Hit.
    + eapply Exists_perm; [ apply Permutation_sym, arraySort_perm | ].
      apply Exists_app. now left.
Qed.

Lemma insertPageIntoStructure_inserts (lc : string -> string -> Z)
  (segments : list string) (pageLink pageText : string) :
  segments <> [] ->
  forall parentItems,
    Exists (LeafBelow pageLink)
      (insertPageIntoStructure lc parentItems segments pageLink pageText).
Proof.
  induction segments as [ | currentSegment rest IH ];
    intros Hne parentItems; [ congruence | ].
  cbn [insertPageIntoStructure].
  destruct rest as [ | next rest' ].
  - destruct (existsb (linkIs pageLink) parentItems) eqn:E; cbn [negb].
    + apply existsb_exists in E. destruct E as [it [Hin Hit]].
      apply Exists_exists. exists it. split; [ exact Hin | ].
      destruct it as [ t l | t its col ]; [ | discriminate ].
      cbn in Hit. apply String.eqb_eq in Hit. subst l. constructor.
    + eapply Exists_perm; [ apply Permutation_sym, arraySort_perm | ].
      apply Exists_app. right. left. constructor.
  - assert (Hrest : next :: rest' <> []) by discriminate.
    destruct (existsb _ parentItems) eqn:E.
    + apply updateFirst_Exists; [ exact E | ].
      intros [ t l | t its col ] Hit.
      * unfold isGroupNamed in Hit. cbn in Hit.
        now rewrite andb_false_r in Hit.
      * apply LeafBelow_group_Exists. now apply IH.
    + eapply Exists_perm; [ apply Permutation_sym, arraySort_perm | ].
      apply Exists_app. right. left.
      apply LeafBelow_group_Exists. now apply IH.
Qed.

Lemma fold_insertTagPage_keeps (lc : string -> string -> Z) (l : string)
  (pages : list TagPageInfo) :
  forall items,
    Exists (LeafBelow l) items ->
    Exists (LeafBelow l) (fold_left (insertTagPage lc) pages items).
Proof.
  induction pages as [ | page pages IH ]; intros items H; [ exact H | ].
  cbn [fold_left]. apply IH. unfold insertTagPage.
  destruct (0 <? _)%nat; [ | exact H ].
  now apply insertPageIntoStructure_keeps.
Qed.

Lemma fold_insertTagPage_inserts (lc : string -> string -> Z)
  (page : TagPageInfo) (pages : list TagPageInfo) :
  In page pages ->
  Forall (fun p => segmentsOf p <> []) pages ->
  forall items,
    Exists (LeafBelow (link page)) (fold_left (insertTagPage lc) pages items).
Proof.
  induction pages as [ | p pages IH ]; intros Hin Hall items;
    [ contradiction | ].
  inversion Hall as [ | p' ps Hp Hps ]; subst.
  cbn [fold_left]. destruct Hin as [ -> | Hin ].
  - apply fold_insertTagPage_keeps. unfold insertTagPage.
    fold (segmentsOf page).
    destruct (segmentsOf page) as [ | s ss ] eqn:E; [ congruence | ].
    cbn [List.length Nat.ltb Nat.leb].
    apply insertPageIntoStructure_inserts. discriminate.
  - now apply IH.
Qed.


(** *** Trimmed tags *)

Lemma rev_append_app (s acc : string) :
  Str.rev_append s acc = (Str.rev s ++ acc)%string.
Proof.
  unfold Str.rev. revert acc.
  induction s as [ | c s IH ]; intros acc; cbn [Str.rev_append];
    [ reflexivity | ].
  rewrite IH, (IH (String c EmptyString)), append_assoc. reflexivity.
Qed.

Lemma rev_cons (c : ascii) (s : string) :
  Str.rev (String c s) = (Str.rev s ++ String c EmptyString)%string.
Proof. unfold Str.rev at 1. cbn [Str.rev_append]. apply rev_append_app. Qed.

Lemma rev_app (a b : string) :
  Str.rev (a ++ b) = (Str.rev b ++ Str.rev a)%string.
Proof.
  induction a as [ | c a IH ]; cbn [append].
  - now rewrite append_nil_r.
  - now rewrite !rev_cons, IH, append_assoc.
Qed.

Lemma rev_involutive (s : string) : Str.rev (Str.rev s) = s.
Proof.
  induction s as [ | c s IH ]; [ reflexivity | ].
  rewrite rev_cons, rev_app, IH. reflexivity.
Qed.

Lemma dropWhile_suffix (p : ascii -> bool) (s : string) :
  exists pre, s = (pre ++ Str.dropWhile p s)%string.
Proof.
  induction s as [ | c s [pre IH] ]; [ now exists EmptyString | ].
  cbn [Str.dropWhile]. destruct (p c).
  - exists (String c pre). cbn. now rewrite <- IH.
  - now exists EmptyString.
Qed.

Lemma dropWhile_head (p : ascii -> bool) (s : string) (c : ascii) (r : string) :
  Str.dropWhile p s = String c r -> p c = false.
Proof.
  induction s as [ | x s IH ]; [ discriminate | ].
  cbn [Str.dropWhile]. destruct (p x) eqn:E; [ exact IH | ].
  intros H. injection H as -> _. exact E.
Qed.

Lemma dropWhile_fixed (p : ascii -> bool) (s : string) :
  match s with
  | EmptyString => True
  | String c _ => p c = false
  end ->
  Str.dropWhile p s = s.
Proof.
  destruct s as [ | c s ]; [ reflexivity | ].
  intros H. cbn [Str.dropWhile]. now rewrite H.
Qed.

Lemma dropWhile_idempotent (p : ascii -> bool) (s : string) :
  Str.dropWhile p (Str.dropWhile p s) = Str.dropWhile p s.
Proof.
  apply dropWhile_fixed.
  destruct (Str.dropWhile p s) as [ | c r ] eqn:E; [ exact I | ].
  now apply dropWhile_head with s r.
Qed.

Lemma trim_idempotent (s : string) : Str.trim (Str.trim s) = Str.trim s.
Proof.
  unfold Str.trim.
  set (s' := Str.dropWhile Chars.isWhiteSpace s).
  set (u := Str.dropWhile Chars.isWhiteSpace (Str.rev s')).
  assert (Hu : Str.dropWhile Chars.isWhiteSpace u = u)
    by apply dropWhile_idempotent.
  assert (Ht : Str.dropWhile Chars.isWhiteSpace (Str.rev u) = Str.rev u).
  { apply dropWhile_fixed.
    destruct (Str.rev u) as [ | c r ] eqn:Et; [ exact I | ].
    destruct (dropWhile_suffix Chars.isWhiteSpace (Str.rev s')) as [pre Hpre].
    fold u in Hpre.
    assert (Hs' : s' = (Str.rev u ++ Str.rev pre)%string).
    { rewrite <- rev_app, <- Hpre. symmetry. apply rev_involutive. }
    rewrite Et in Hs'. cbn [append] in Hs'.
    now apply dropWhile_head with s (r ++ Str.rev pre)%string. }
  now rewrite Ht, rev_involutive, Hu.
Qed.

Lemma filterBoolean_trim_In (pieces : list string) (tag : string) :
  In tag (Str.filterBoolean (map Str.trim pieces)) -> Str.trim tag = tag.
Proof.
  unfold Str.filterBoolean. intros H. apply filter_In in H.
  destruct H as [H _]. apply in_map_iff in H. destruct H as [x [<- _]].
  apply trim_idempotent.
Qed.

(** The tags of a file are trimmed already: [tag.trim()] leaves them as
    they are. *)
Lemma fileTagsOf_trimmed (fm : frontmatter) (tag : string) :
  In tag (fileTagsOf fm) -> Str.trim tag = tag.
Proof.
  unfold fileTagsOf. destruct (tags fm) as [ | s | elements | truthy ];
    try contradiction.
  - destruct (Str.isEmpty s); [ contradiction | apply filterBoolean_trim_In ].
  - apply filterBoolean_trim_In.
Qed.

(** *** The loose files *)


Lemma AllRooted_empty : AllRooted [].
Proof. intros tag. constructor. Qed.


(** ** The link resolver *)

Lemma length_append (a b : string) :
  String.length (a ++ b) = (String.length a + String.length b)%nat.
Proof. induction a as [ | c a IH ]; simpl; [ reflexivity | now rewrite IH ]. Qed.

Lemma substring_all (s : string) : substring 0 (String.length s) s = s.
Proof. induction s as [ | c s IH ]; simpl; [ reflexivity | now rewrite IH ]. Qed.

Lemma substring_app_prefix (a b : string) :
  substring 0 (String.length a) (a ++ b) = a.
Proof.
  induction a as [ | c a IH ]; simpl; [ now destruct b | now rewrite IH ].
Qed.

Lemma substring_app_suffix (a b : string) :
  substring (String.length a) (String.length b) (a ++ b) = b.
Proof.
  induction a as [ | c a IH ]; simpl; [ apply substring_all | exact IH ].
Qed.

Lemma list_ascii_of_string_app (a b : string) :
  list_ascii_of_string (a ++ b)
  = list_ascii_of_string a ++ list_ascii_of_string b.
Proof. induction a as [ | c a IH ]; simpl; [ reflexivity | now rewrite IH ]. Qed.

Lemma length_list_ascii (s : string) :
  List.length (list_ascii_of_string s) = String.length s.
Proof. induction s as [ | c s IH ]; simpl; [ reflexivity | now rewrite IH ]. Qed.

Lemma forallb_list_ascii (p : ascii -> bool) (s : string) :
  Str.forallb p s = true -> Forall (fun c => p c = true) (list_ascii_of_string s).
Proof.
  induction s as [ | c s IH ]; simpl; intros H; constructor;
    apply andb_true_iff in H; destruct H; auto.
Qed.

(** The loop of [extname] over the characters of the extension: nothing
    changes once the end of the name is marked. *)
Lemma extnameLoop_extension (l rest : list ascii) :
  Forall (fun c => negb (Ascii.eqb c "/") && negb (Ascii.eqb c ".") = true) l ->
  forall i st,
    startDot st = (-1)%Z -> endIdx st <> (-1)%Z ->
    extnameLoop (l ++ rest) i st
    = extnameLoop rest (i - Z.of_nat (List.length l)) st.
Proof.
  induction 1 as [ | c l Hc _ IH ]; intros i st Hd He.
  - cbn. f_equal. lia.
  - apply andb_true_iff in Hc. destruct Hc as [Hs Hp].
    apply negb_true_iff in Hs, Hp.
    cbn [app extnameLoop]. rewrite Hs, Hp.
    apply Z.eqb_neq in He. rewrite He, Hd. cbn [Z.eqb negb].
    apply Z.eqb_neq in He. rewrite IH by assumption.
    f_equal. cbn [List.length]. lia.
Qed.

(** The loop over the characters before the dot, from the last to the
    first, which is not a dot. *)
Lemma extnameLoop_stem (l : list ascii) (first : ascii) :
  Forall (fun c => negb (Ascii.eqb c "/") = true) (l ++ [first]) ->
  Ascii.eqb first "." = false ->
  forall i st,
    startDot st <> (-1)%Z -> endIdx st <> (-1)%Z ->
    extnameLoop (l ++ [first]) i st
    = mkExtnameState (startDot st) (startPart st) (endIdx st)
                     (matchedSlash st) (-1).
Proof.
  intros Hall Hfirst.
  induction l as [ | c l IH ]; intros i st Hd He.
  - inversion Hall as [ | x xs Hx _ ]; subst. apply negb_true_iff in Hx.
    cbn [app extnameLoop]. rewrite Hx, Hfirst.
    apply Z.eqb_neq in He, Hd. rewrite He, Hd. reflexivity.
  - inversion Hall as [ | x xs Hx Hxs ]; subst. apply negb_true_iff in Hx.
    cbn [app extnameLoop]. rewrite Hx.
    apply Z.eqb_neq in He. rewrite He. apply Z.eqb_neq in He.
    destruct (Ascii.eqb c ".").
    + apply Z.eqb_neq in Hd. rewrite Hd. apply Z.eqb_neq in Hd.
      destruct (negb (preDotState st =? 1)%Z);
        rewrite IH by assumption; reflexivity.
    + apply Z.eqb_neq in Hd. rewrite Hd. apply Z.eqb_neq in Hd.
      cbn [negb]. rewrite IH by assumption. reflexivity.
Qed.

Lemma extnameLoop_dot (rest : list ascii) (i sp e : Z) (ms : bool) (pds : Z) :
  extnameLoop ("."%char :: rest) i (mkExtnameState (-1) sp e ms pds)
  = extnameLoop rest (i - 1)
      (if (e =? -1)%Z then mkExtnameState i sp (i + 1) false pds
       else mkExtnameState i sp e ms pds).
Proof.
  cbn [extnameLoop]. change (Ascii.eqb "." "/") with false.
  change (Ascii.eqb "." ".") with true. cbn [endIdx].
  destruct (e =? -1)%Z; reflexivity.
Qed.

Lemma extnameLoop_first (c : ascii) (rest : list ascii) (i : Z) :
  negb (Ascii.eqb c "/") && negb (Ascii.eqb c ".") = true ->
  extnameLoop (c :: rest) i extnameInit
  = extnameLoop rest (i - 1) (mkExtnameState (-1) 0 (i + 1) false 0).
Proof.
  intros H. apply andb_true_iff in H. destruct H as [Hs Hp].
  apply negb_true_iff in Hs, Hp.
  cbn [extnameLoop]. rewrite Hs, Hp. reflexivity.
Qed.

Lemma rev_string_cons (c : ascii) (s : string) :
  rev (list_ascii_of_string (String c s))
  = rev (list_ascii_of_string s) ++ [c].
Proof. reflexivity. Qed.

Lemma extname_plain (name ext : string) :
  isPlainStem name = true ->
  isPlainExtension ext = true ->
  extname (name ++ "." ++ ext) = ("." ++ ext)%string.
Proof.
  intros Hname Hext.
  destruct name as [ | first name ]; [ discriminate | ].
  cbn [isPlainStem] in Hname. apply andb_true_iff in Hname.
  destruct Hname as [Hfirst Hslash]. apply negb_true_iff in Hfirst.
  apply forallb_list_ascii in Hslash.
  unfold isPlainExtension in Hext. apply forallb_list_ascii in Hext.
  set (stem := String first name) in *.
  assert (Hlen : String.length (stem ++ "." ++ ext)
                 = (String.length stem + S (String.length ext))%nat).
  { now rewrite length_append. }
  assert (Hloop :
            extnameLoop (rev (list_ascii_of_string (stem ++ "." ++ ext)))
              (Z.of_nat (String.length (stem ++ "." ++ ext)) - 1) extnameInit
            = mkExtnameState (Z.of_nat (String.length stem)) 0
                (Z.of_nat (String.length (stem ++ "." ++ ext))) false (-1)).
  { rewrite Hlen. generalize (String.length stem) as ns. intros ns.
    rewrite list_ascii_of_string_app. cbn [append list_ascii_of_string].
    rewrite rev_app_distr. cbn [rev]. rewrite <- !app_assoc. cbn [app].
    assert (Hstem : forall i st,
               startDot st <> (-1)%Z -> endIdx st <> (-1)%Z ->
               extnameLoop (rev (list_ascii_of_string stem)) i st
               = mkExtnameState (startDot st) (startPart st) (endIdx st)
                   (matchedSlash st) (-1)).
    { unfold stem. rewrite rev_string_cons.
      apply extnameLoop_stem; [ | exact Hfirst ].
      rewrite <- rev_string_cons. fold stem.
      apply Forall_rev. exact Hslash. }
    assert (Hext' : Forall (fun c => negb (Ascii.eqb c "/")
                                     && negb (Ascii.eqb c ".") = true)
                           (rev (list_ascii_of_string ext))).
    { apply Forall_rev. exact Hext. }
    assert (Hn : List.length (rev (list_ascii_of_string ext))
                 = String.length ext).
    { rewrite length_rev. apply length_list_ascii. }
    revert Hext' Hn. generalize (String.length ext) as ne.
    generalize (rev (list_ascii_of_string ext)) as re.
    intros [ | last more ] ne Hext' Hn; cbn [List.length] in Hn; subst ne.
    - cbn [app]. unfold extnameInit. rewrite extnameLoop_dot.
      cbn [Z.eqb]. rewrite Hstem by (cbn; lia). cbn. f_equal; lia.
    - inversion Hext' as [ | x xs Hx Hxs ]; subst.
      cbn [app]. rewrite extnameLoop_first by exact Hx.
      rewrite extnameLoop_extension; [ | exact Hxs | reflexivity | cbn; lia ].
      rewrite extnameLoop_dot.
      replace (_ =? -1)%Z with false by (symmetry; apply Z.eqb_neq; lia).
      rewrite Hstem by (cbn; lia).
      cbn [startDot startPart endIdx matchedSlash]. f_equal; lia. }
  unfold extname. rewrite Hloop.
  cbn [startDot endIdx preDotState startPart].
  replace (Z.of_nat (String.length stem) =? -1)%Z with false
    by (symmetry; apply Z.eqb_neq; lia).
  replace (Z.of_nat (String.length (stem ++ "." ++ ext)) =? -1)%Z with false
    by (symmetry; apply Z.eqb_neq; lia).
  cbn [orb andb Z.eqb].
  rewrite Nat2Z.id.
  replace (Z.to_nat _) with (String.length ("." ++ ext)).
  - apply substring_app_suffix.
  - rewrite Hlen. cbn [append String.length]. lia.
Qed.

Lemma fileNameWithoutExtension_plain (name ext : string) :
  isPlainStem name = true ->
  isPlainExtension ext = true ->
  fileNameWithoutExtension (name ++ "." ++ ext) = name.
Proof.
  intros Hname Hext. unfold fileNameWithoutExtension.
  rewrite extname_plain by assumption.
  rewrite length_append.
  replace (_ + _ - _)%nat with (String.length name) by lia.
  apply substring_app_prefix.
Qed.

Lemma isIndexOrReadme_iff (s : string) :
  isIndexOrReadme s = true
  <-> Str.toLowerCase s = "index" \/ Str.toLowerCase s = "readme".
Proof.
  unfold isIndexOrReadme, Str.matchesIgnoreCase.
  rewrite orb_true_iff, !String.eqb_eq. reflexivity.
Qed.

(** C5, as the code has it: when the name without its extension is index
    or readme in any case, the link is the base URL of the directory,
    except when that base URL is "/index/", the one of a directory named
    index at the top of the content root: then the link is the root marker
    "/".  For every other file the link is the base URL followed by the
    name without its extension.  For a plain name [name.ext] the name
    without its extension is [name]. *)
Theorem getFileLink_resolves (filePath baseUrl : string) :
  let stem := fileNameWithoutExtension filePath in
  let indexOrReadme :=
    Str.toLowerCase stem = "index" \/ Str.toLowerCase stem = "readme" in
  (indexOrReadme ->
   getFileLink filePath baseUrl
   = if String.eqb baseUrl "/index/" then "/" else baseUrl)
  /\ (~ indexOrReadme ->
      getFileLink filePath baseUrl = (baseUrl ++ stem)%string)
  /\ (forall name ext,
         isPlainStem name = true -> isPlainExtension ext = true ->
         filePath = (name ++ "." ++ ext)%string -> stem = name).
Proof.
  intros stem indexOrReadme. unfold getFileLink. fold stem.
  split; [ | split ].
  - intros H. apply isIndexOrReadme_iff in H. rewrite H. reflexivity.
  - intros H. destruct (isIndexOrReadme stem) eqn:E; [ | reflexivity ].
    apply isIndexOrReadme_iff in E. contradiction.
  - intros name ext Hn He ->. now apply fileNameWithoutExtension_plain.
Qed.

Lemma getFileLink_resolves_witness :
  getFileLink "ReadMe.MD" "/guide/" = "/guide/"
  /\ getFileLink "index.md" "/index/" = "/"
  /\ getFileLink "setup.md" "/guide/" = "/guide/setup"
  /\ fileNameWithoutExtension "setup.md" = "setup".
Proof.
  destruct (getFileLink_resolves "ReadMe.MD" "/guide/") as [H1 _].
  destruct (getFileLink_resolves "index.md" "/index/") as [H2 _].
  destruct (getFileLink_resolves "setup.md" "/guide/") as [_ [H3 H4]].
  split; [ apply H1; right; vm_compute; reflexivity | ].
  split; [ apply H2; left; vm_compute; reflexivity | ].
  split; [ | apply (H4 "setup" "md"); vm_compute; reflexivity ].
  apply H3. intros [ H | H ]; vm_compute in H; discriminate H.
Defined.

(** ** Pruning of empty results *)

Lemma mapKeys_mapSet (m : TagsMap) (key k : string) (v : list TagPageInfo) :
  In k (mapKeys (mapSet m key v)) -> k = key \/ In k (mapKeys m).
Proof.
  induction m as [ | [k0 v0] m IH ]; cbn.
  - intros [ <- | [] ]. now left.
  - destruct (String.eqb k0 key) eqn:E; cbn.
    + intros [ <- | H ]; right; [ now left | now right ].
    + intros [ <- | H ]; [ right; now left | ].
      destruct (IH H) as [ -> | H' ]; [ now left | right; now right ].
Qed.

Lemma mapKeys_addTagPage (page : TagPageInfo) (m : TagsMap) (tag k : string) :
  In k (mapKeys (addTagPage page m tag)) ->
  k = Str.trim tag \/ In k (mapKeys m).
Proof.
  unfold addTagPage.
  destruct (negb (mapHas m (Str.trim tag)));
    destruct (negb (existsb _ _)); intros H;
    repeat (apply mapKeys_mapSet in H; destruct H as [ -> | H ];
            [ now left | ]);
    now right.
Qed.

Lemma pushOnce_nonempty (page : TagPageInfo) (pages : list TagPageInfo) :
  pushOnce page pages <> [].
Proof.
  destruct (pushOnce_has page pages) as [p [Hin _]].
  intros H. rewrite H in Hin. contradiction.
Qed.

Lemma fold_addTagPage_KeysInhabited (page : TagPageInfo) (tags : list string) :
  forall m, KeysInhabited m ->
            KeysInhabited (fold_left (addTagPage page) tags m).
Proof.
  induction tags as [ | t tags IH ]; intros m H; [ exact H | ].
  cbn [fold_left]. apply IH. intros k Hk. rewrite pagesOf_addTagPage.
  destruct (String.eqb k (Str.trim t)) eqn:E; [ apply pushOnce_nonempty | ].
  apply mapKeys_addTagPage in Hk. destruct Hk as [ -> | Hk ]; [ | now apply H ].
  now rewrite String.eqb_refl in E.
Qed.

Lemma scanTags_KeysInhabited (n : node) :
  forall dirPath baseUrl tagsMap scanRoot,
    KeysInhabited tagsMap ->
    KeysInhabited (scanTags n dirPath baseUrl tagsMap scanRoot).
Proof.
  induction n as [ | content | entries IH | | ] using node_nested_ind;
    intros dirPath baseUrl tagsMap scanRoot; try (intros H; exact H).
  cbn [scanTags decorate]. rewrite fold_left_map.
  set (base := withTrailingSlash baseUrl).
  revert tagsMap.
  induction entries as [ | [name child] entries IHentries ]; intros tagsMap H;
    [ exact H | ].
  inversion IH as [ | e es Hchild Hrest ]; subst. cbn [snd] in Hchild.
  cbn [fold_left]. apply (IHentries Hrest).
  unfold tagEntryValue, direntName, direntNode. cbn [fst snd].
  destruct (isHidden name); [ exact H | ].
  destruct (statOf child) as [ st | ]; [ | exact H ].
  destruct (isDirectory st); [ now apply Hchild | ].
  destruct (isFile st && isMarkupName name); [ | exact H ].
  destruct child as [ | [ [ | fm ] | ] | sub | | ]; try exact H.
  destruct (0 <? _)%nat; [ | exact H ].
  now apply fold_addTagPage_KeysInhabited.
Qed.

Lemma arraySort_nonempty {A} (cmp : A -> A -> Z) (l : list A) :
  l <> [] -> arraySort cmp l <> [].
Proof.
  intros Hl H. apply Hl. apply Permutation_nil. rewrite <- H.
  apply arraySort_perm.
Qed.

Lemma updateFirst_nonempty (test : SidebarItem -> bool)
  (f : SidebarItem -> SidebarItem) (l : list SidebarItem) :
  l <> [] -> updateFirst test f l <> [].
Proof.
  destruct l as [ | it l ]; [ congruence | ].
  intros _. cbn [updateFirst]. now destruct (test it).
Qed.

Lemma insertPageIntoStructure_nonempty (lc : string -> string -> Z)
  (segments : list string) (pageLink pageText : string)
  (parentItems : list SidebarItem) :
  segments <> [] \/ parentItems <> [] ->
  insertPageIntoStructure lc parentItems segments pageLink pageText <> [].
Proof.
  destruct segments as [ | currentSegment rest ];
    [ intros [ H | H ]; [ congruence | exact H ] | ].
  intros _. cbn [insertPageIntoStructure].
  destruct rest as [ | next rest' ].
  - destruct (existsb (linkIs pageLink) parentItems) eqn:E; cbn [negb].
    + destruct parentItems; [ discriminate | discriminate ].
    + apply arraySort_nonempty. now destruct parentItems.
  - destruct (existsb _ parentItems) eqn:E.
    + apply updateFirst_nonempty. destruct parentItems; discriminate.
    + apply arraySort_nonempty. now destruct parentItems.
Qed.

Lemma insertPageIntoStructure_groups_nonempty (lc : string -> string -> Z)
  (segments : list string) (pageLink pageText : string) :
  forall parentItems,
    Forall GroupsNonEmpty parentItems ->
    Forall GroupsNonEmpty
      (insertPageIntoStructure lc parentItems segments pageLink pageText).
Proof.
  induction segments as [ | currentSegment rest IH ];
    intros parentItems Hf; [ exact Hf | ].
  cbn [insertPageIntoStructure].
  destruct rest as [ | next rest' ].
  - destruct (negb _); [ | exact Hf ].
    eapply Forall_perm; [ apply Permutation_sym, arraySort_perm | ].
    apply Forall_app. split; [ exact Hf | repeat constructor ].
  - destruct (existsb _ parentItems).
    + apply updateFirst_Forall; [ | exact Hf ].
      intros [ t l | t its col ] Hit; [ exact Hit | ].
      inversion Hit as [ | t' its' col' Hne Hits ]; subst.
      constructor; [ | now apply IH ].
      apply insertPageIntoStructure_nonempty. now right.
    + eapply Forall_perm; [ apply Permutation_sym, arraySort_perm | ].
      apply Forall_app. split; [ exact Hf | ].
      constructor; [ | constructor ].
      constructor; [ | apply IH; constructor ].
      apply insertPageIntoStructure_nonempty. left. discriminate.
Qed.

Lemma fold_insertTagPage_groups_nonempty (lc : string -> string -> Z)
  (pages : list TagPageInfo) :
  forall items,
    Forall GroupsNonEmpty items ->
    Forall GroupsNonEmpty (fold_left (insertTagPage lc) pages items).
Proof.
  induction pages as [ | page pages IH ]; intros items H; [ exact H | ].
  cbn [fold_left]. apply IH. unfold insertTagPage.
  destruct (0 <? _)%nat; [ | exact H ].
  now apply insertPageIntoStructure_groups_nonempty.
Qed.

Lemma fold_insertTagPage_nonempty (lc : string -> string -> Z)
  (pages : list TagPageInfo) :
  Forall (fun p => segmentsOf p <> []) pages ->
  forall items,
    pages <> [] \/ items <> [] ->
    fold_left (insertTagPage lc) pages items <> [].
Proof.
  induction 1 as [ | page pages Hp _ IH ]; intros items Hne.
  - destruct Hne as [ H | H ]; [ congruence | exact H ].
  - cbn [fold_left]. apply IH. right. unfold insertTagPage.
    fold (segmentsOf page).
    destruct (segmentsOf page) as [ | s ss ] eqn:E; [ congruence | ].
    cbn [List.length Nat.ltb Nat.leb].
    apply insertPageIntoStructure_nonempty. left. discriminate.
Qed.

Lemma tagsItems_groups_nonempty (lc : string -> string -> Z) (root : node)
  (scanRoot baseUrl : string) :
  Forall GroupsNonEmpty (tagsItems lc root scanRoot baseUrl).
Proof.
  unfold tagsItems.
  set (m := tagIndex root scanRoot baseUrl).
  assert (Hrooted : AllRooted m).
  { apply scanTags_invariants, AllRooted_empty. }
  assert (Hkeys : KeysInhabited m).
  { apply scanTags_KeysInhabited. intros tag []. }
  destruct (Nat.eqb (List.length m) 0) eqn:E; constructor; [ | constructor ].
  constructor.
  - intros Hnil. apply map_eq_nil in Hnil.
    destruct m as [ | kv m' ]; [ discriminate E | ].
    revert Hnil. apply arraySort_nonempty. discriminate.
  - apply Forall_forall. intros it Hit. apply in_map_iff in Hit.
    destruct Hit as [tag [<- Htag]]. apply arraySort_In in Htag.
    unfold tagGroup. fold (pagesOf m tag). constructor.
    + apply fold_insertTagPage_nonempty; [ apply Hrooted | ].
      left. now apply Hkeys.
    + apply fold_insertTagPage_groups_nonempty. constructor.
Qed.

Lemma structuralItems_groups_nonempty (lc : string -> string -> Z)
  (root : node) (baseUrl : string) :
  Forall GroupsNonEmpty (structuralItems lc root baseUrl).
Proof.
  unfold structuralItems. destruct root as [ | content | entries | | ];
    try constructor.
  eapply Forall_perm; [ apply Permutation_sym, arraySort_perm | ].
  apply Forall_flat_map, Forall_forall. intros e He.
  cbn [decorate] in He. apply in_map_iff in He.
  destruct He as [[name child] [<- _]].
  unfold topLevelItems, direntName, direntNode. cbn [fst snd].
  destruct (isHidden name); [ constructor | ].
  destruct (statOf child) as [ st | ]; [ | constructor ].
  destruct (isDirectory st); [ | constructor ].
  pose proof (walkItems_groups_nonempty lc child
                (collapseSlashes (baseUrl ++ name ++ "/"))) as H.
  destruct (walkItems lc child _) as [ | it its ]; cbn; constructor;
    [ | constructor ].
  constructor; [ discriminate | exact H ].
Qed.

Lemma sidebarValue_groups_nonempty (lc : string -> string -> Z) (root : node)
  (scanRoot baseUrl : string) (includeTags : bool) :
  exists items,
    sidebarValue lc root scanRoot baseUrl includeTags = [("/", items)]
    /\ Forall GroupsNonEmpty items.
Proof.
  eexists. split; [ reflexivity | ].
  apply Forall_app. split; [ apply structuralItems_groups_nonempty | ].
  destruct includeTags; [ apply tagsItems_groups_nonempty | constructor ].
Qed.

(** C9: a tree in which no markup file can be reached yields an empty
    structural walk; a directory entry with such a tree adds no group, in a
    directory and at the top of the content root; no group is empty, in a
    structural walk and anywhere in the navigation model; and when no file
    declares a tag, the model with tags included is the model without
    them: there is no Tags group. *)
Theorem empty_results_are_pruned (lc : string -> string -> Z) :
  (forall n dirPath baseUrl,
      hasMarkup n = false ->
      returns (generateSidebarItems lc n dirPath baseUrl) [])
  /\ (forall n dirPath baseUrl items name,
         hasMarkup n = false -> isDirNode n = true ->
         returns (sidebarEntry dirPath baseUrl items
                    (name, n, generateSidebarItems lc n)) items)
  /\ (forall n scanRoot baseUrl items name,
         hasMarkup n = false ->
         returns (topLevelEntry scanRoot baseUrl items
                    (name, n, generateSidebarItems lc n)) items)
  /\ (forall n dirPath baseUrl,
         exists items,
           returns (generateSidebarItems lc n dirPath baseUrl) items
           /\ Forall GroupsNonEmpty items)
  /\ (forall root scanRoot baseUrl includeTags,
         exists items,
           returns (generateSidebar lc root scanRoot baseUrl includeTags)
                   [("/", items)]
           /\ Forall GroupsNonEmpty items)
  /\ (forall root scanRoot baseUrl,
         declaresTag root = false ->
         exists items,
           returns (generateSidebar lc root scanRoot baseUrl true)
                   [("/", items)]
           /\ returns (generateSidebar lc root scanRoot baseUrl false)
                      [("/", items)]).
Proof.
  repeat match goal with |- _ /\ _ => split end.
  - intros n dirPath baseUrl Hno.
    rewrite <- (walkItems_without_markup lc n baseUrl Hno).
    apply generateSidebarItems_returns.
  - intros n dirPath baseUrl items name Hno Hdir.
    pose proof (sidebarEntry_returns lc dirPath baseUrl items
                  (name, n, generateSidebarItems lc n)
                  (generateSidebarItems_returns lc n)) as H.
    unfold entryItems, withValue, direntName, direntNode in H.
    cbn [fst snd] in H. unfold isDirNode in Hdir.
    destruct (statOf n) as [ st | ]; [ | discriminate ].
    rewrite Hdir, (walkItems_without_markup lc n _ Hno) in H.
    cbn in H. destruct (isHidden name); now rewrite app_nil_r in H.
  - intros n scanRoot baseUrl items name Hno.
    pose proof (topLevelEntry_returns lc scanRoot baseUrl items
                  (name, n, generateSidebarItems lc n)
                  (generateSidebarItems_returns lc n)) as H.
    unfold topLevelItems, withValue, direntName, direntNode in H.
    cbn [fst snd] in H.
    rewrite (walkItems_without_markup lc n _ Hno) in H.
    destruct (isHidden name); [ now rewrite app_nil_r in H | ].
    destruct (statOf n) as [ st | ]; [ | now rewrite app_nil_r in H ].
    destruct (isDirectory st); cbn in H; now rewrite app_nil_r in H.
  - intros n dirPath baseUrl. exists (walkItems lc n baseUrl).
    split; [ apply generateSidebarItems_returns
           | apply walkItems_groups_nonempty ].
  - intros root scanRoot baseUrl includeTags.
    destruct (sidebarValue_groups_nonempty lc root scanRoot baseUrl
                includeTags) as [items [Hv Hg]].
    exists items. split; [ | exact Hg ].
    rewrite <- Hv. apply generateSidebar_returns.
  - intros root scanRoot baseUrl Hno.
    exists (structuralItems lc root baseUrl).
    pose proof (generateSidebar_returns lc root scanRoot baseUrl true) as Ht.
    pose proof (generateSidebar_returns lc root scanRoot baseUrl false) as Hf.
    unfold sidebarValue, tagsItems, tagIndex in *.
    rewrite (scanTags_without_tags root _ _ _ _ Hno) in Ht.
    cbn [List.length Nat.eqb] in Ht.
    rewrite app_nil_r in Ht, Hf. split; assumption.
Qed.

Lemma empty_results_are_pruned_witness :
  returns (generateSidebarItems codeUnitCompare noMarkupTree
             "/srv/content" "/") []
  /\ exists items,
       returns (generateSidebar codeUnitCompare indexAndReadmeTree
                  "/srv/content" "/" true) [("/", items)]
       /\ returns (generateSidebar codeUnitCompare indexAndReadmeTree
                     "/srv/content" "/" false) [("/", items)].
Proof.
  destruct (empty_results_are_pruned codeUnitCompare)
    as [H1 [_ [_ [_ [_ H6]]]]].
  split; [ apply H1; reflexivity | apply H6; reflexivity ].
Defined.

(** * Further properties *)

(** ** A comparator that puts one class first *)

Section ClassFirst.

Context {A : Type}.
Variable compareFn : A -> A -> Z.
Variable cls : A -> bool.

Hypothesis class_before :
  forall x y, cls x = true -> cls y = false -> (compareFn x y <= 0)%Z.
Hypothesis class_after :
  forall x y, cls x = false -> cls y = true -> (0 < compareFn x y)%Z.

Lemma insertSorted_class_first (x : A) (l : list A) :
  StronglySorted (fun a b => cls b = true -> cls a = true) l ->
  StronglySorted (fun a b => cls b = true -> cls a = true)
                 (insertSorted compareFn x l).
Proof.
  intros Hs. induction Hs as [ | y l Hs IH Hy ]; simpl.
  - repeat constructor.
  - destruct (compareFn x y <=? 0)%Z eqn:E.
    + apply Z.leb_le in E. constructor; [ now constructor | ].
      destruct (cls x) eqn:Ex; [ apply Forall_forall; auto | ].
      assert (Ey : cls y = false).
      { destruct (cls y) eqn:Ey; [ | reflexivity ].
        pose proof (class_after x y Ex Ey). lia. }
      constructor; [ congruence | ].
      rewrite Forall_forall in *. intros z Hz Hcz.
      specialize (Hy z Hz Hcz). congruence.
    + apply Z.leb_gt in E. constructor; [ exact IH | ].
      rewrite Forall_forall in *. intros z Hz.
      apply (Permutation_in _ (insertSorted_perm compareFn x l)) in Hz.
      destruct Hz as [ <- | Hz ]; [ | now apply Hy ].
      intros Ex. destruct (cls y) eqn:Ey; [ reflexivity | ].
      pose proof (class_before x y Ex Ey). lia.
Qed.

Lemma arraySort_class_first (l : list A) :
  StronglySorted (fun a b => cls b = true -> cls a = true)
                 (arraySort compareFn l).
Proof.
  induction l as [ | x l IH ]; simpl; [ constructor | ].
  now apply insertSorted_class_first.
Qed.

End ClassFirst.

(** ** What every level of a tag's group keeps *)

Section EveryLevelOfTagGroup.

Variable lc : string -> string -> Z.
Variable P : list SidebarItem -> Prop.

Hypothesis P_nil : P [].
Hypothesis P_leaf :
  forall items t l,
    P items -> existsb (linkIs l) items = false ->
    P (arraySort (sidebarItemSorter lc) (items ++ [Leaf t l])).
Hypothesis P_group :
  forall items d sub,
    P items -> existsb (isGroupNamed d) items = false ->
    P (arraySort (sidebarItemSorter lc) (items ++ [Group d sub true])).
Hypothesis P_update :
  forall items test f,
    P items ->
    (forall it, hasItems (f it) = hasItems it
                /\ itemText (f it) = itemText it) ->
    P (updateFirst test f items).

Lemma insertPageIntoStructure_every_level (segments : list string)
  (pageLink pageText : string) :
  forall parentItems,
    P parentItems -> Forall (EveryLevel P) parentItems ->
    P (insertPageIntoStructure lc parentItems segments pageLink pageText)
    /\ Forall (EveryLevel P)
         (insertPageIntoStructure lc parentItems segments pageLink pageText).
Proof.
  induction segments as [ | currentSegment rest IH ];
    intros parentItems HP Hall; [ now split | ].
  cbn [insertPageIntoStructure].
  destruct rest as [ | next rest' ].
  - destruct (existsb (linkIs pageLink) parentItems) eqn:E; cbn [negb];
      [ now split | ].
    split; [ now apply P_leaf | ].
    eapply Forall_perm; [ apply Permutation_sym, arraySort_perm | ].
    apply Forall_app. split; [ exact Hall | repeat constructor ].
  - destruct (existsb _ parentItems) eqn:E.
    + split.
      * apply P_update; [ exact HP | ]. now intros [ t l | t its col ].
      * apply updateFirst_Forall; [ | exact Hall ].
        intros [ t l | t its col ] Hit; [ exact Hit | ].
        inversion Hit as [ | t' its' col' HPits Hits ]; subst.
        destruct (IH its HPits Hits) as [H1 H2]. now constructor.
    + destruct (IH [] P_nil (Forall_nil _)) as [H1 H2].
      split; [ now apply P_group | ].
      eapply Forall_perm; [ apply Permutation_sym, arraySort_perm | ].
      apply Forall_app. split; [ exact Hall | ].
      constructor; [ now constructor | constructor ].
Qed.

Lemma tagGroup_every_level (tagsMap : TagsMap) (tag : string) :
  EveryLevel P (tagGroup lc tagsMap tag).
Proof.
  unfold tagGroup.
  assert (H : forall pages items,
             P items -> Forall (EveryLevel P) items ->
             P (fold_left (insertTagPage lc) pages items)
             /\ Forall (EveryLevel P) (fold_left (insertTagPage lc) pages items)).
  { induction pages as [ | page pages IH ]; intros items HP Hall;
      [ now split | ].
    cbn [fold_left]. unfold insertTagPage at 2 4.
    destruct (0 <? _)%nat; [ | now apply IH ].
    destruct (insertPageIntoStructure_every_level
                (Str.filterBoolean (Str.splitOn "/" (relativePath page)))
                (link page) (text page) items HP Hall) as [H1 H2].
    now apply IH. }
  destruct (H (match mapGet tagsMap tag with
               | Some pages => pages
               | None => []
               end) [] P_nil (Forall_nil _)) as [H1 H2].
  now constructor.
Qed.

End EveryLevelOfTagGroup.

Lemma map_updateFirst {K} (k : SidebarItem -> K)
  (test : SidebarItem -> bool) (f : SidebarItem -> SidebarItem)
  (l : list SidebarItem) :
  (forall it, k (f it) = k it) ->
  map k (updateFirst test f l) = map k l.
Proof.
  intros Hk. induction l as [ | it l IH ]; cbn [updateFirst map];
    [ reflexivity | ].
  destruct (test it); cbn [map]; [ now rewrite Hk | now rewrite IH ].
Qed.

Lemma StronglySorted_by_key {A K} (k : A -> K) (R : K -> K -> Prop)
  (l l' : list A) :
  map k l = map k l' ->
  StronglySorted (fun a b => R (k a) (k b)) l ->
  StronglySorted (fun a b => R (k a) (k b)) l'.
Proof.
  intros Hmap Hs.
  assert (H : forall m : list A,
             StronglySorted (fun a b => R (k a) (k b)) m
             <-> StronglySorted R (map k m)).
  { induction m as [ | x m IH ]; cbn [map].
    - split; constructor.
    - split; intros Hx; inversion Hx as [ | y ys Hys Hy ]; subst;
        constructor; try (now apply IH);
        rewrite Forall_forall in *.
      + intros z Hz. apply in_map_iff in Hz. destruct Hz as [a [<- Ha]]. auto.
      + intros a Ha. apply Hy. now apply in_map. }
  apply H. rewrite <- Hmap. now apply H.
Qed.

(** *** Groups before leaves *)

Lemma sidebarItemSorter_group_before (lc : string -> string -> Z)
  (x y : SidebarItem) :
  hasItems x = true -> hasItems y = false ->
  (sidebarItemSorter lc x y <= 0)%Z.
Proof. intros Hx Hy. unfold sidebarItemSorter. rewrite Hx, Hy. cbn. lia. Qed.

Lemma sidebarItemSorter_group_after (lc : string -> string -> Z)
  (x y : SidebarItem) :
  hasItems x = false -> hasItems y = true ->
  (0 < sidebarItemSorter lc x y)%Z.
Proof. intros Hx Hy. unfold sidebarItemSorter. rewrite Hx, Hy. cbn. lia. Qed.

Lemma arraySort_GroupsFirst (lc : string -> string -> Z)
  (items : list SidebarItem) :
  GroupsFirst (arraySort (sidebarItemSorter lc) items).
Proof.
  apply (arraySort_class_first (sidebarItemSorter lc) hasItems).
  - apply sidebarItemSorter_group_before.
  - apply sidebarItemSorter_group_after.
Qed.

(** X5: in the group of a tag, and in every group below it, every group
    stands before every leaf, whatever the comparator does. *)
Theorem tag_groups_put_groups_first
  (lc : string -> string -> Z) (tagsMap : TagsMap) (tag : string) :
  EveryLevel GroupsFirst (tagGroup lc tagsMap tag).
Proof.
  apply tagGroup_every_level.
  - constructor.
  - intros. apply arraySort_GroupsFirst.
  - intros. apply arraySort_GroupsFirst.
  - intros items test f HP Hf. unfold GroupsFirst in *.
    apply (StronglySorted_by_key hasItems
             (fun a b => b = true -> a = true) items); [ | exact HP ].
    symmetry. apply map_updateFirst. intros it. apply Hf.
Qed.

(** *** One group for one name *)

Lemma groupTexts_app (a b : list SidebarItem) :
  groupTexts (a ++ b) = groupTexts a ++ groupTexts b.
Proof.
  induction a as [ | [t l | t its col] a IH ]; simpl;
    [ reflexivity | exact IH | now rewrite IH ].
Qed.

Lemma groupTexts_perm (l l' : list SidebarItem) :
  Permutation l l' -> Permutation (groupTexts l) (groupTexts l').
Proof.
  induction 1 as [ | x l l' _ IH | x y l | l l' l'' _ IH1 _ IH2 ].
  - constructor.
  - destruct x; simpl; [ exact IH | now constructor ].
  - destruct x, y; simpl; try apply Permutation_refl; constructor.
  - now apply perm_trans with (groupTexts l').
Qed.

Lemma groupTexts_In (d : string) (items : list SidebarItem) :
  In d (groupTexts items) <-> existsb (isGroupNamed d) items = true.
Proof.
  induction items as [ | [t l | t its col] items IH ]; simpl.
  - split; [ tauto | discriminate ].
  - unfold isGroupNamed at 1. cbn. rewrite andb_false_r. exact IH.
  - unfold isGroupNamed at 1. cbn. rewrite andb_true_r.
    rewrite orb_true_iff, String.eqb_eq, IH. tauto.
Qed.

Lemma groupTexts_updateFirst (test : SidebarItem -> bool)
  (f : SidebarItem -> SidebarItem) (l : list SidebarItem) :
  (forall it, hasItems (f it) = hasItems it
              /\ itemText (f it) = itemText it) ->
  groupTexts (updateFirst test f l) = groupTexts l.
Proof.
  intros Hf.
  assert (Hone : forall it rest, groupTexts (f it :: rest)
                                 = groupTexts (it :: rest)).
  { intros it rest. destruct (Hf it) as [H1 H2].
    destruct (f it) as [ t' l'' | t' its' col' ];
      destruct it as [ t l' | t its col ]; cbn in *; congruence. }
  induction l as [ | it l IH ]; cbn [updateFirst]; [ reflexivity | ].
  destruct (test it); [ apply Hone | ].
  destruct it; cbn [groupTexts]; now rewrite IH.
Qed.

(** X6: in the group of a tag, and in every group below it, no two groups
    have the same text: directories whose cleaned names agree share one
    group. *)
Theorem tag_groups_have_distinct_names
  (lc : string -> string -> Z) (tagsMap : TagsMap) (tag : string) :
  EveryLevel DistinctGroupNames (tagGroup lc tagsMap tag).
Proof.
  apply tagGroup_every_level; unfold DistinctGroupNames.
  - constructor.
  - intros items t l HP _.
    eapply Permutation_NoDup;
      [ apply groupTexts_perm, Permutation_sym, arraySort_perm | ].
    rewrite groupTexts_app. cbn. now rewrite app_nil_r.
  - intros items d sub HP E.
    eapply Permutation_NoDup;
      [ apply groupTexts_perm, Permutation_sym, arraySort_perm | ].
    rewrite groupTexts_app. cbn.
    apply Permutation_NoDup with (l := d :: groupTexts items);
      [ apply Permutation_cons_append | ].
    constructor; [ | exact HP ].
    rewrite groupTexts_In. congruence.
  - intros items test f HP Hf. now rewrite groupTexts_updateFirst.
Qed.

(** *** Siblings in the order of the sorter *)

Lemma sidebarItemSorter_total (lc : string -> string -> Z) :
  Consistent lc ->
  forall a b, (sidebarItemSorter lc a b <= 0)%Z
              \/ (sidebarItemSorter lc b a <= 0)%Z.
Proof.
  intros [Htot _] a b. unfold sidebarItemSorter.
  destruct (hasItems a), (hasItems b); cbn; try (left; lia); try (right; lia);
    apply Htot.
Qed.

Lemma sidebarItemSorter_trans (lc : string -> string -> Z) :
  Consistent lc ->
  forall a b c, (sidebarItemSorter lc a b <= 0)%Z ->
                (sidebarItemSorter lc b c <= 0)%Z ->
                (sidebarItemSorter lc a c <= 0)%Z.
Proof.
  intros [_ Htr] a b c. unfold sidebarItemSorter.
  destruct (hasItems a), (hasItems b), (hasItems c); cbn; try lia;
    apply Htr.
Qed.

Lemma arraySort_SortedSiblings (lc : string -> string -> Z)
  (items : list SidebarItem) :
  Consistent lc -> SortedSiblings lc (arraySort (sidebarItemSorter lc) items).
Proof.
  intros Hc. apply arraySort_sorted with (domain := items).
  - intros a b _ _. now apply sidebarItemSorter_total.
  - intros a b c _ _ _. now apply sidebarItemSorter_trans.
  - intros x Hx. exact Hx.
Qed.

Lemma codeUnitCompare_le_iff (a b : string) :
  (codeUnitCompare a b <= 0)%Z
  <-> OrderedTypeEx.String_as_OT.lt a b \/ a = b.
Proof.
  unfold codeUnitCompare.
  destruct (String.compare a b) eqn:E.
  - apply OrderedTypeEx.String_as_OT.cmp_eq in E. split; [ now right | lia ].
  - apply OrderedTypeEx.String_as_OT.cmp_lt in E. split; [ now left | lia ].
  - split; [ lia | ]. intros [ H | H ].
    + apply OrderedTypeEx.String_as_OT.cmp_lt in H.
      unfold OrderedTypeEx.String_as_OT.cmp in H. congruence.
    + apply OrderedTypeEx.String_as_OT.cmp_eq in H.
      unfold OrderedTypeEx.String_as_OT.cmp in H. congruence.
Qed.

Lemma codeUnitCompare_consistent : Consistent codeUnitCompare.
Proof.
  split.
  - intros a b. rewrite !codeUnitCompare_le_iff.
    destruct (String.compare a b) eqn:E.
    + apply OrderedTypeEx.String_as_OT.cmp_eq in E. left. now right.
    + apply OrderedTypeEx.String_as_OT.cmp_lt in E. left. now left.
    + right. left. apply OrderedTypeEx.String_as_OT.cmp_lt.
      unfold OrderedTypeEx.String_as_OT.cmp.
      rewrite String.compare_antisym, E. reflexivity.
  - intros a b c. rewrite !codeUnitCompare_le_iff.
    intros [ H1 | -> ] [ H2 | -> ]; auto.
    left. eapply OrderedTypeEx.String_as_OT.lt_trans; eassumption.
Qed.

(** X7: for a comparator that is total and transitive, the siblings in the
    group of a tag, and in every group below it, stand in the order of
    [sidebarItemSorter]: groups first, then by text. *)
Theorem tag_groups_are_sorted
  (lc : string -> string -> Z) (tagsMap : TagsMap) (tag : string) :
  Consistent lc ->
  EveryLevel (SortedSiblings lc) (tagGroup lc tagsMap tag).
Proof.
  intros Hc. apply tagGroup_every_level.
  - constructor.
  - intros. now apply arraySort_SortedSiblings.
  - intros. now apply arraySort_SortedSiblings.
  - intros items test f HP Hf. unfold SortedSiblings in *.
    set (k := fun it : SidebarItem => (hasItems it, itemText it)).
    set (R := fun ka kb : bool * string =>
                ((if negb (Bool.eqb (fst ka) (fst kb))
                  then if fst ka then -1 else 1
                  else lc (snd ka) (snd kb)) <= 0)%Z).
    change (StronglySorted (fun a b => R (k a) (k b))
                           (updateFirst test f items)).
    apply (StronglySorted_by_key k R items); [ | exact HP ].
    symmetry. apply map_updateFirst. intros it. unfold k.
    destruct (Hf it) as [H1 H2]. now rewrite H1, H2.
Qed.

Lemma tag_groups_are_sorted_witness :
  EveryLevel (SortedSiblings codeUnitCompare)
    (tagGroup codeUnitCompare
       [("tutorial",
         [mkTagPageInfo "/2025/may/intro" "Intro" "2025/may/intro.md";
          mkTagPageInfo "/2025/june/advanced" "Advanced"
                        "2025/june/advanced.md"])]
       "tutorial").
Proof.
  exact (tag_groups_are_sorted codeUnitCompare _ "tutorial"
           codeUnitCompare_consistent).
Defined.

(** ** Inserting a page twice *)

Lemma updateFirst_fixed (test : SidebarItem -> bool)
  (f : SidebarItem -> SidebarItem) (l : list SidebarItem) :
  (forall it, In it l -> test it = true -> f it = it) ->
  updateFirst test f l = l.
Proof.
  induction l as [ | it l IH ]; intros H; cbn [updateFirst]; [ reflexivity | ].
  destruct (test it) eqn:E.
  - rewrite H; [ reflexivity | now left | exact E ].
  - rewrite IH; [ reflexivity | ]. intros it' Hin. apply H. now right.
Qed.

Lemma updateFirst_twice (test : SidebarItem -> bool)
  (f g : SidebarItem -> SidebarItem) (l : list SidebarItem) :
  (forall it, test it = true -> test (f it) = true /\ g (f it) = f it) ->
  updateFirst test g (updateFirst test f l) = updateFirst test f l.
Proof.
  intros H. induction l as [ | it l IH ]; cbn [updateFirst]; [ reflexivity | ].
  destruct (test it) eqn:E; cbn [updateFirst].
  - destruct (H it E) as [H1 H2]. now rewrite H1, H2.
  - now rewrite E, IH.
Qed.

Lemma existsb_perm {A} (p : A -> bool) (l l' : list A) :
  Permutation l l' -> existsb p l = existsb p l'.
Proof.
  intros Hp. destruct (existsb p l) eqn:E; symmetry.
  - apply existsb_exists in E. destruct E as [x [Hin Hx]].
    apply existsb_exists. exists x. split; [ | exact Hx ].
    eapply Permutation_in; eassumption.
  - destruct (existsb p l') eqn:E'; [ | reflexivity ].
    apply existsb_exists in E'. destruct E' as [x [Hin Hx]].
    rewrite <- E. symmetry. apply existsb_exists. exists x.
    split; [ | exact Hx ].
    eapply Permutation_in; [ apply Permutation_sym | ]; eassumption.
Qed.

Lemma existsb_updateFirst_named (d : string)
  (f : SidebarItem -> SidebarItem) (l : list SidebarItem) :
  (forall it, isGroupNamed d it = true -> isGroupNamed d (f it) = true) ->
  existsb (isGroupNamed d) l = true ->
  existsb (isGroupNamed d) (updateFirst (isGroupNamed d) f l) = true.
Proof.
  intros Hf. induction l as [ | it l IH ]; cbn [existsb updateFirst];
    [ discriminate | ].
  destruct (isGroupNamed d it) eqn:E; cbn [existsb orb].
  - intros _. now rewrite (Hf it E).
  - intros H. rewrite E. cbn. now apply IH.
Qed.

(** X8: inserting a page into a structure that already holds it changes
    nothing, whatever text the page comes with the second time: the insertion
    is idempotent. *)
Theorem insertPageIntoStructure_idempotent
  (lc : string -> string -> Z) (segments : list string) (pageLink : string) :
  forall (parentItems : list SidebarItem) (pageText pageText' : string),
    insertPageIntoStructure lc
      (insertPageIntoStructure lc parentItems segments pageLink pageText)
      segments pageLink pageText'
    = insertPageIntoStructure lc parentItems segments pageLink pageText.
Proof.
  induction segments as [ | currentSegment rest IH ];
    intros parentItems pageText pageText'; [ reflexivity | ].
  cbn [insertPageIntoStructure].
  destruct rest as [ | next rest' ].
  - destruct (existsb (linkIs pageLink) parentItems) eqn:E; cbn [negb].
    + now rewrite E.
    + rewrite (existsb_perm _ _ _ (arraySort_perm (sidebarItemSorter lc) _)).
      rewrite existsb_app. cbn. rewrite String.eqb_refl.
      now rewrite orb_true_r.
  - set (dirName := cleanName currentSegment).
    set (fill := fun (t : string) (dirItem : SidebarItem) =>
                   match dirItem with
                   | Group g its col =>
                       Group g (insertPageIntoStructure lc its (next :: rest')
                                  pageLink t) col
                   | Leaf _ _ => dirItem
                   end).
    change (fun dirItem : SidebarItem =>
              match dirItem with
              | Group t its col =>
                  Group t (insertPageIntoStructure lc its (next :: rest')
                             pageLink pageText) col
              | Leaf _ _ => dirItem
              end) with (fill pageText).
    change (fun dirItem : SidebarItem =>
              match dirItem with
              | Group t its col =>
                  Group t (insertPageIntoStructure lc its (next :: rest')
                             pageLink pageText') col
              | Leaf _ _ => dirItem
              end) with (fill pageText').
    assert (Hfill : forall it,
               isGroupNamed dirName it = true ->
               isGroupNamed dirName (fill pageText it) = true
               /\ fill pageText' (fill pageText it) = fill pageText it).
    { intros [ t l | t its col ] Hit; unfold fill; [ now split | ].
      split; [ exact Hit | ]. now rewrite IH. }
    destruct (existsb (isGroupNamed dirName) parentItems) eqn:E.
    + rewrite existsb_updateFirst_named;
        [ | intros it Hit; apply Hfill, Hit | exact E ].
      apply updateFirst_twice. exact Hfill.
    + set (created := Group dirName
                        (insertPageIntoStructure lc [] (next :: rest')
                           pageLink pageText) true).
      rewrite (existsb_perm _ _ _ (arraySort_perm (sidebarItemSorter lc) _)).
      rewrite existsb_app, E. cbn [existsb orb].
      unfold isGroupNamed at 1. cbn [itemText hasItems created].
      rewrite String.eqb_refl. cbn [andb orb].
      apply updateFirst_fixed. intros it Hin Hit.
      apply arraySort_In in Hin. apply in_app_or in Hin.
      destruct Hin as [ Hin | [ <- | [] ] ].
      * assert (existsb (isGroupNamed dirName) parentItems = true)
          by (apply existsb_exists; now exists it).
        congruence.
      * unfold created. cbn [fill]. now rewrite IH.
Qed.

(** ** The tag index that the scan builds *)

Lemma mapHas_In (m : TagsMap) (k : string) :
  mapHas m k = true <-> In k (mapKeys m).
Proof.
  unfold mapHas. induction m as [ | [k0 v0] m IH ]; cbn.
  - split; [ discriminate | contradiction ].
  - destruct (String.eqb k0 k) eqn:E.
    + apply String.eqb_eq in E. split; [ now left | reflexivity ].
    + apply String.eqb_neq in E. rewrite IH. split; [ now right | ].
      intros [ H | H ]; [ contradiction | exact H ].
Qed.

Lemma mapKeys_mapSet_eq (m : TagsMap) (k : string) (v : list TagPageInfo) :
  mapKeys (mapSet m k v)
  = if mapHas m k then mapKeys m else (mapKeys m ++ [k])%list.
Proof.
  unfold mapHas, mapKeys.
  induction m as [ | [k0 v0] m IH ]; cbn; [ reflexivity | ].
  destruct (String.eqb k0 k) eqn:E; cbn.
  - apply String.eqb_eq in E. now subst.
  - rewrite IH. now destruct (mapGet m k).
Qed.

Lemma mapHas_mapSet (m : TagsMap) (k : string) (v : list TagPageInfo) :
  mapHas (mapSet m k v) k = true.
Proof. unfold mapHas. now rewrite mapGet_mapSet_same. Qed.

Lemma mapKeys_addTagPage_eq (page : TagPageInfo) (m : TagsMap) (tag : string) :
  mapKeys (addTagPage page m tag)
  = if mapHas m (Str.trim tag) then mapKeys m
    else (mapKeys m ++ [Str.trim tag])%list.
Proof.
  unfold addTagPage.
  destruct (mapHas m (Str.trim tag)) eqn:E; cbn [negb].
  - destruct (negb (existsb _ _)); [ | reflexivity ].
    now rewrite mapKeys_mapSet_eq, E.
  - destruct (negb (existsb _ _)).
    + rewrite mapKeys_mapSet_eq, mapHas_mapSet.
      now rewrite mapKeys_mapSet_eq, E.
    + now rewrite mapKeys_mapSet_eq, E.
Qed.

Lemma pushOnce_NoDup (page : TagPageInfo) (pages : list TagPageInfo) :
  NoDup (List.map link pages) -> NoDup (List.map link (pushOnce page pages)).
Proof.
  intros H. unfold pushOnce.
  destruct (existsb _ pages) eqn:E; [ exact H | ].
  rewrite map_app. cbn [List.map].
  apply NoDup_app; [ exact H | repeat constructor; now intros [] | ].
  intros l Hin [ <- | [] ].
  apply in_map_iff in Hin. destruct Hin as [p [Hl Hp]].
  assert (existsb (fun item => String.eqb (link item) (link page)) pages = true).
  { apply existsb_exists. exists p. split; [ exact Hp | ].
    now apply String.eqb_eq. }
  congruence.
Qed.

Lemma addTagPage_TagIndexOk (page : TagPageInfo) (m : TagsMap) (tag : string) :
  Str.trim tag = tag -> tag <> EmptyString ->
  TagIndexOk m -> TagIndexOk (addTagPage page m tag).
Proof.
  intros Htrim Hne [Hkeys Hall]. split.
  - rewrite mapKeys_addTagPage_eq.
    destruct (mapHas m (Str.trim tag)) eqn:E; [ exact Hkeys | ].
    apply NoDup_app; [ exact Hkeys | repeat constructor; now intros [] | ].
    intros k Hin [ <- | [] ]. apply mapHas_In in Hin. congruence.
  - intros k Hk. rewrite pagesOf_addTagPage.
    destruct (String.eqb k (Str.trim tag)) eqn:E.
    + apply String.eqb_eq in E. rewrite Htrim in E. subst k.
      repeat split; [ exact Hne | exact Htrim | apply pushOnce_nonempty | ].
      apply pushOnce_NoDup. unfold pagesOf.
      destruct (mapGet m tag) as [pages | ] eqn:G; [ | constructor ].
      assert (Hin : In tag (mapKeys m)).
      { apply mapHas_In. unfold mapHas. now rewrite G. }
      destruct (Hall tag Hin) as (_ & _ & _ & Hnd).
      unfold pagesOf in Hnd. now rewrite G in Hnd.
    + apply String.eqb_neq in E.
      apply mapKeys_addTagPage in Hk.
      destruct Hk as [ -> | Hk ]; [ contradiction | now apply Hall ].
Qed.

Lemma filterBoolean_nonempty (pieces : list string) (tag : string) :
  In tag (Str.filterBoolean pieces) -> tag <> EmptyString.
Proof.
  unfold Str.filterBoolean. intros H. apply filter_In in H.
  destruct H as [_ H]. intros ->. discriminate.
Qed.

Lemma fileTagsOf_nonempty (fm : frontmatter) (tag : string) :
  In tag (fileTagsOf fm) -> tag <> EmptyString.
Proof.
  unfold fileTagsOf. destruct (tags fm) as [ | s | elements | truthy ];
    try contradiction.
  - destruct (Str.isEmpty s); [ contradiction | apply filterBoolean_nonempty ].
  - apply filterBoolean_nonempty.
Qed.

Lemma fold_left_preserves {A S} (I : S -> Prop) (g : S -> A -> S)
  (l : list A) :
  (forall s a, In a l -> I s -> I (g s a)) ->
  forall s, I s -> I (fold_left g l s).
Proof.
  induction l as [ | a l IH ]; intros H s Hs; [ exact Hs | ].
  cbn [fold_left]. apply IH.
  - intros s' a' Hin. apply H. now right.
  - apply H; [ now left | exact Hs ].
Qed.

(** Whatever [addTagPage] preserves for the tags of a file, the scan
    preserves. *)
Lemma scanTags_preserves (I : TagsMap -> Prop) :
  (forall page fm tag m,
      In tag (fileTagsOf fm) -> I m -> I (addTagPage page m tag)) ->
  forall n dirPath baseUrl tagsMap scanRoot,
    I tagsMap -> I (scanTags n dirPath baseUrl tagsMap scanRoot).
Proof.
  intros Hadd.
  induction n as [ | content | entries IH | | ] using node_nested_ind;
    intros dirPath baseUrl tagsMap scanRoot; try (intros H; exact H).
  cbn [scanTags decorate]. rewrite fold_left_map.
  apply fold_left_preserves.
  intros m [name child] Hin Hm. rewrite Forall_forall in IH.
  specialize (IH _ Hin). cbn [snd] in IH.
  unfold tagEntryValue, direntName, direntNode. cbn [fst snd].
  destruct (isHidden name); [ exact Hm | ].
  destruct (statOf child) as [ st | ]; [ | exact Hm ].
  destruct (isDirectory st); [ now apply IH | ].
  destruct (isFile st && isMarkupName name); [ | exact Hm ].
  destruct child as [ | [ [ | fm ] | ] | sub | | ]; try exact Hm.
  destruct (0 <? _)%nat; [ | exact Hm ].
  apply fold_left_preserves; [ | exact Hm ].
  intros s tag Htag Hs. now apply Hadd with fm.
Qed.

Lemma scanTags_TagIndexOk (n : node) (dirPath baseUrl scanRoot : string) :
  TagIndexOk (scanTags n dirPath baseUrl [] scanRoot).
Proof.
  apply (scanTags_preserves TagIndexOk).
  - intros page fm tag m Htag.
    apply addTagPage_TagIndexOk;
      [ now apply fileTagsOf_trimmed with fm
      | now apply fileTagsOf_nonempty with fm ].
  - split; [ constructor | intros tag [] ].
Qed.

(** X3: the tag scan of a content tree, started from an empty map, returns
    a well-formed index: no tag occurs twice among the keys, every key is a
    non-empty trimmed string, every key has at least one page, and the
    pages of one key have pairwise distinct links. *)
Theorem scanned_tag_index_is_well_formed
  (root : node) (dirPath baseUrl scanRoot : string) :
  exists tagsMap,
    returns (scanFilesForTags root dirPath baseUrl [] scanRoot) tagsMap
    /\ TagIndexOk tagsMap.
Proof.
  exists (scanTags root dirPath baseUrl [] scanRoot).
  split; [ apply scanFilesForTags_returns | apply scanTags_TagIndexOk ].
Qed.

(** ** The leaves of a tag group *)

Lemma updateFirst_Exists_inv (P : SidebarItem -> Prop)
  (test : SidebarItem -> bool) (f : SidebarItem -> SidebarItem)
  (l : list SidebarItem) :
  Exists P (updateFirst test f l) ->
  Exists P l \/ exists it, In it l /\ test it = true /\ P (f it).
Proof.
  induction l as [ | it l IH ]; cbn [updateFirst]; intros H;
    [ now left | ].
  destruct (test it) eqn:E.
  - inversion H as [ x xs Hx | x xs Hxs ]; subst.
    + right. exists it. repeat split; [ now left | exact E | exact Hx ].
    + left. now right.
  - inversion H as [ x xs Hx | x xs Hxs ]; subst.
    + left. now left.
    + destruct (IH Hxs) as [ H' | [it' [Hin [Ht Hp]]] ].
      * left. now right.
      * right. exists it'. repeat split; [ now right | exact Ht | exact Hp ].
Qed.

Lemma insertPageIntoStructure_only_inserts (lc : string -> string -> Z)
  (l : string) (segments : list string) (pageLink pageText : string) :
  forall parentItems,
    Exists (LeafBelow l)
      (insertPageIntoStructure lc parentItems segments pageLink pageText) ->
    l = pageLink \/ Exists (LeafBelow l) parentItems.
Proof.
  induction segments as [ | currentSegment rest IH ];
    intros parentItems H; [ now right | ].
  cbn [insertPageIntoStructure] in H.
  destruct rest as [ | next rest' ].
  - destruct (negb _); [ | now right ].
    apply (Exists_perm _ _ _ (arraySort_perm _ _)) in H.
    apply Exists_app in H. destruct H as [ H | H ]; [ now right | ].
    inversion H as [ x xs Hx | x xs Hxs ]; subst.
    + inversion Hx; subst. now left.
    + inversion Hxs.
  - destruct (existsb _ parentItems).
    + apply updateFirst_Exists_inv in H.
      destruct H as [ H | [it [Hin [Ht Hp]]] ]; [ now right | ].
      destruct it as [ t l' | t its col ].
      * right. apply Exists_exists. now exists (Leaf t l').
      * apply LeafBelow_group_Exists in Hp.
        destruct (IH _ Hp) as [ -> | Hits ]; [ now left | right ].
        apply Exists_exists. exists (Group t its col).
        split; [ exact Hin | now apply LeafBelow_group_Exists ].
    + apply (Exists_perm _ _ _ (arraySort_perm _ _)) in H.
      apply Exists_app in H. destruct H as [ H | H ]; [ now right | ].
      inversion H as [ x xs Hx | x xs Hxs ]; subst.
      * apply LeafBelow_group_Exists in Hx.
        destruct (IH [] Hx) as [ -> | Hnil ]; [ now left | ].
        inversion Hnil.
      * inversion Hxs.
Qed.

Lemma fold_insertTagPage_only_inserts (lc : string -> string -> Z)
  (l : string) (pages : list TagPageInfo) :
  forall items,
    Exists (LeafBelow l) (fold_left (insertTagPage lc) pages items) ->
    Exists (LeafBelow l) items
    \/ exists page, In page pages /\ link page = l.
Proof.
  induction pages as [ | page pages IH ]; intros items H; [ now left | ].
  cbn [fold_left] in H. apply IH in H.
  destruct H as [ H | [p [Hin Hp]] ].
  - unfold insertTagPage in H.
    destruct (0 <? _)%nat; [ | now left ].
    apply insertPageIntoStructure_only_inserts in H.
    destruct H as [ -> | H ]; [ right | now left ].
    exists page. split; [ now left | reflexivity ].
  - right. exists p. split; [ now right | exact Hp ].
Qed.

(** X4: in the group built for a tag of the scanned index, the leaves at
    any depth carry exactly the links of the pages recorded under the tag:
    no page is lost and no link is made up. *)
Theorem tag_group_lists_exactly_its_pages
  (lc : string -> string -> Z) (root : node) (scanRoot baseUrl : string) :
  exists tagsMap,
    returns (scanFilesForTags root scanRoot baseUrl [] scanRoot) tagsMap
    /\ forall tag l,
         LeafBelow l (tagGroup lc tagsMap tag) <-> HasPage tagsMap tag l.
Proof.
  exists (scanTags root scanRoot baseUrl [] scanRoot).
  split; [ apply scanFilesForTags_returns | ].
  set (tagsMap := scanTags root scanRoot baseUrl [] scanRoot).
  intros tag l. unfold tagGroup. fold (pagesOf tagsMap tag).
  rewrite LeafBelow_group_Exists. split.
  - intros H. apply fold_insertTagPage_only_inserts in H.
    destruct H as [ H | H ]; [ inversion H | exact H ].
  - intros [page [Hin <-]].
    apply fold_insertTagPage_inserts; [ exact Hin | ].
    apply scanTags_invariants. apply AllRooted_empty.
Qed.

(** ** The navigation model as a whole *)

(** X1: the navigation model depends on the content tree and on the base
    URL, not on the path at which the tree is mounted: for one tree, two
    scan roots give the same model. *)
Theorem model_does_not_depend_on_the_root_path
  (lc : string -> string -> Z) (root : node)
  (scanRoot1 scanRoot2 baseUrl : string) (includeTags : bool) :
  exists model,
    returns (generateSidebar lc root scanRoot1 baseUrl includeTags) model
    /\ returns (generateSidebar lc root scanRoot2 baseUrl includeTags) model.
Proof.
  exists (sidebarValue lc root scanRoot1 baseUrl includeTags).
  split; [ apply generateSidebar_returns | ].
  replace (sidebarValue lc root scanRoot1 baseUrl includeTags)
    with (sidebarValue lc root scanRoot2 baseUrl includeTags);
    [ apply generateSidebar_returns | ].
  unfold sidebarValue, tagsItems.
  now rewrite (tagIndex_root_independent root scanRoot1 scanRoot2).
Qed.

Lemma map_itemText_tagGroup (lc : string -> string -> Z) (tagsMap : TagsMap)
  (tagNames : list string) :
  map itemText (map (tagGroup lc tagsMap) tagNames) = tagNames.
Proof.
  rewrite map_map. erewrite map_ext; [ apply map_id | reflexivity ].
Qed.

(** X2: with the tags included, the model is the model without them
    followed by what the tag index gives: nothing when the scan finds no
    tag, and otherwise one collapsed group "Tags" that holds one non-empty
    collapsed group per tag of the index, named after the tag, with the
    tags in the order in which the sort puts the keys of the index. *)
Theorem tags_group_is_appended
  (lc : string -> string -> Z) (root : node) (scanRoot baseUrl : string) :
  exists items tagsMap tagPart,
    returns (generateSidebar lc root scanRoot baseUrl false) [("/", items)]
    /\ returns (scanFilesForTags root scanRoot baseUrl [] scanRoot) tagsMap
    /\ returns (generateSidebar lc root scanRoot baseUrl true)
               [("/", (items ++ tagPart)%list)]
    /\ match tagsMap with
       | [] => tagPart = []
       | _ :: _ =>
           exists tagGroups,
             tagPart = [Group "Tags" tagGroups true]
             /\ map itemText tagGroups = arraySort lc (mapKeys tagsMap)
             /\ Permutation (map itemText tagGroups) (mapKeys tagsMap)
             /\ NoDup (map itemText tagGroups)
             /\ Forall (fun g => exists children,
                            g = Group (itemText g) children true
                            /\ children <> []) tagGroups
       end.
Proof.
  exists (structuralItems lc root baseUrl).
  exists (tagIndex root scanRoot baseUrl).
  exists (tagsItems lc root scanRoot baseUrl).
  split; [ | split; [ | split ] ].
  - pose proof (generateSidebar_returns lc root scanRoot baseUrl false) as H.
    unfold sidebarValue in H. now rewrite app_nil_r in H.
  - apply scanFilesForTags_returns.
  - apply (generateSidebar_returns lc root scanRoot baseUrl true).
  - pose proof (tagsItems_groups_nonempty lc root scanRoot baseUrl) as Hne.
    assert (Hok : TagIndexOk (tagIndex root scanRoot baseUrl)).
    { apply scanTags_TagIndexOk. }
    unfold tagsItems in *.
    destruct (tagIndex root scanRoot baseUrl) as [ | kv m' ] eqn:Em;
      [ reflexivity | ].
    rewrite <- Em in *.
    replace (Nat.eqb (List.length (tagIndex root scanRoot baseUrl)) 0)
      with false in * by (now rewrite Em).
    eexists. split; [ reflexivity | ].
    rewrite map_itemText_tagGroup.
    split; [ reflexivity | ]. split; [ apply arraySort_perm | ].
    split.
    + eapply Permutation_NoDup;
        [ apply Permutation_sym, arraySort_perm | apply Hok ].
    + inversion Hne as [ | g gs Hg _ ]; subst.
      inversion Hg as [ | t its col _ Hall ]; subst.
      apply Forall_forall. intros g Hin.
      rewrite Forall_forall in Hall. specialize (Hall g Hin).
      apply in_map_iff in Hin. destruct Hin as [tag [<- _]].
      unfold tagGroup in *. cbn [itemText].
      eexists. split; [ reflexivity | ].
      now inversion Hall.
Qed.

(** X11: the leaves that the structural walk of a directory returns carry
    exactly the links of the directory's markup files that are not hidden,
    one leaf per file, whether or not the file can be read. *)
Theorem directory_leaves_are_its_markup_files
  (lc : string -> string -> Z) (entries : list (string * node))
  (dirPath baseUrl : string) :
  exists items,
    returns (generateSidebarItems lc (Directory entries) dirPath baseUrl)
            items
    /\ Permutation
         (leafLinks items)
         (map (fun e => getFileLink (fst e) (withTrailingSlash baseUrl))
              (filter isMarkupEntry entries)).
Proof.
  exists (walkItems lc (Directory entries) baseUrl).
  split; [ apply generateSidebarItems_returns | apply walkItems_leafLinks ].
Qed.

(** ** Links and names *)

Lemma append_inj_l (a x y : string) :
  (a ++ x)%string = (a ++ y)%string -> x = y.
Proof.
  induction a as [ | c a IH ]; cbn; intros H; [ exact H | ].
  injection H as H. now apply IH.
Qed.

Lemma append_self_inv (a x : string) : a = (a ++ x)%string -> x = EmptyString.
Proof.
  intros H. apply (append_inj_l a). now rewrite append_nil_r.
Qed.

Lemma indexLink_not_below (baseUrl stem : string) :
  (if String.eqb baseUrl (contentBaseUrl ++ "index/")
   then contentBaseUrl else baseUrl) = (baseUrl ++ stem)%string ->
  stem = EmptyString.
Proof.
  destruct (String.eqb baseUrl (contentBaseUrl ++ "index/")) eqn:E.
  - apply String.eqb_eq in E. subst baseUrl. cbn. discriminate.
  - apply append_self_inv.
Qed.

(** X9: two file names resolve to the same link under one base URL only
    when their names without the extension are equal, when both are index
    or readme files, or when one is an index or readme file and the other
    has nothing before its extension. *)
Theorem getFileLink_collisions (filePath1 filePath2 baseUrl : string) :
  getFileLink filePath1 baseUrl = getFileLink filePath2 baseUrl ->
  let stem1 := fileNameWithoutExtension filePath1 in
  let stem2 := fileNameWithoutExtension filePath2 in
  stem1 = stem2
  \/ (isIndexOrReadme stem1 = true /\ isIndexOrReadme stem2 = true)
  \/ (isIndexOrReadme stem1 = true /\ stem2 = EmptyString)
  \/ (stem1 = EmptyString /\ isIndexOrReadme stem2 = true).
Proof.
  intros H stem1 stem2. unfold getFileLink in H. fold stem1 stem2 in H.
  destruct (isIndexOrReadme stem1) eqn:E1;
    destruct (isIndexOrReadme stem2) eqn:E2.
  - right. left. now split.
  - right. right. left. split; [ reflexivity | ].
    now apply indexLink_not_below with baseUrl.
  - right. right. right. split; [ | reflexivity ].
    apply indexLink_not_below with baseUrl. now symmetry.
  - left. now apply append_inj_l with baseUrl.
Qed.

Lemma getFileLink_collisions_witness :
  isIndexOrReadme (fileNameWithoutExtension "index.md") = true
  /\ isIndexOrReadme (fileNameWithoutExtension "README.md") = true.
Proof.
  destruct (getFileLink_collisions "index.md" "README.md" "/guide/")
    as [ H | [ H | [ [_ H] | [H _] ] ] ].
  - vm_compute. reflexivity.
  - vm_compute in H. discriminate H.
  - exact H.
  - vm_compute in H. discriminate H.
  - vm_compute in H. discriminate H.
Defined.









(** ** What the walks write to the console *)

Lemma logsOnly_ret {A} (Q : logEntry -> bool) (a : A) : logsOnly Q (ret a).
Proof.
  intros c. exists []. split; [ cbn; now rewrite app_nil_r | reflexivity ].
Qed.

Lemma logsOnly_bind {A B} (Q : logEntry -> bool) (m : M A) (k : A -> M B) :
  logsOnly Q m -> (forall a, logsOnly Q (k a)) -> logsOnly Q (bind m k).
Proof.
  intros Hm Hk c. unfold bind. destruct (Hm c) as [log1 [H1 Q1]].
  destruct (m c) as [[ a | e ] c1]; cbn in H1; subst c1.
  - destruct (Hk a (c ++ log1)) as [log2 [H2 Q2]].
    exists (log1 ++ log2). rewrite H2, app_assoc. split; [ reflexivity | ].
    now rewrite forallb_app, Q1, Q2.
  - exists log1. now split.
Qed.

Lemma logsOnly_bind_returns {A B} (Q : logEntry -> bool) (m : M A)
  (k : A -> M B) (a : A) :
  returns m a -> logsOnly Q m -> logsOnly Q (k a) -> logsOnly Q (bind m k).
Proof.
  intros Hr Hm Hk c. unfold bind. destruct (Hm c) as [log1 [H1 Q1]].
  destruct (Hr c) as [c1 E]. rewrite E in *. cbn in H1. subst c1.
  destruct (Hk (c ++ log1)) as [log2 [H2 Q2]].
  exists (log1 ++ log2). rewrite H2, app_assoc. split; [ reflexivity | ].
  now rewrite forallb_app, Q1, Q2.
Qed.

Lemma logsOnly_tryCatch_returns {A} (Q : logEntry -> bool) (m : M A)
  (h : jsError -> M A) (a : A) :
  returns m a -> logsOnly Q m -> logsOnly Q (tryCatch m h).
Proof.
  intros Hr Hm c. unfold tryCatch. destruct (Hm c) as [log1 [H1 Q1]].
  destruct (Hr c) as [c1 E]. rewrite E in *. now exists log1.
Qed.

Lemma logsOnly_consoleError (Q : logEntry -> bool) (message : string) :
  Q (ConsoleError message) = true -> logsOnly Q (consoleError message).
Proof.
  intros HQ c. exists [ConsoleError message]. split; [ reflexivity | ].
  cbn. now rewrite HQ.
Qed.

Lemma forEachAcc_logsOnly {A S} (Q : logEntry -> bool) (body : S -> A -> M S)
  (l : list A) :
  (forall a, In a l -> forall acc, logsOnly Q (body acc a)) ->
  forall acc, logsOnly Q (forEachAcc body l acc).
Proof.
  induction l as [ | a l IH ]; intros Hbody acc c; cbn [forEachAcc].
  - apply logsOnly_ret.
  - destruct (Hbody a (or_introl eq_refl) acc c) as [log1 [H1 Q1]].
    destruct (body acc a c) as [[ acc' | e ] c1]; cbn in H1; subst c1.
    + destruct (IH (fun a' Ha' => Hbody a' (or_intror Ha')) acc' (c ++ log1))
        as [log2 [H2 Q2]].
      exists (log1 ++ log2). rewrite H2, app_assoc. split; [ reflexivity | ].
      now rewrite forallb_app, Q1, Q2.
    + exists log1. now split.
Qed.

(** What allows the walks to go through the entry [name]: errors may be
    logged, or the entry is skipped, or there is nothing to report. *)
Lemma sidebarEntry_logsOnly (Q : logEntry -> bool)
  (dirPath baseUrl : string) (items : list SidebarItem)
  (name : string) (child : node) (w : walker) :
  (isHidden name = false ->
   forall dp b, Str.endsWith b "/" = true -> logsOnly Q (w dp b)) ->
  (forall msg, Q (ConsoleError msg) = true)
  \/ isHidden name = true \/ readsQuietly name child = true ->
  logsOnly Q (sidebarEntry dirPath baseUrl items (name, child, w)).
Proof.
  intros Hw HP.
  unfold sidebarEntry, direntName, direntNode. cbn [fst snd].
  fold (isHidden name). fold (isMarkupName name).
  destruct (isHidden name) eqn:Eh; [ apply logsOnly_ret | ].
  specialize (Hw eq_refl).
  assert (HP' : (forall msg, Q (ConsoleError msg) = true)
                \/ readsQuietly name child = true).
  { destruct HP as [ H | [ H | H ] ]; [ now left | discriminate | now right ]. }
  clear HP. intros c.
  destruct child as [ | content | entries | | ]; cbn -[append pathJoin].
  - destruct HP' as [ HQ | Hq ]; [ | discriminate ].
    eexists [_]. split; [ reflexivity | ]. cbn. now rewrite HQ.
  - cbn [readsQuietly] in HP'.
    destruct (isMarkupName name); cbn -[append pathJoin].
    + destruct content as [ [ | fm ] | ]; cbn -[append pathJoin].
      * destruct HP' as [ HQ | Hq ]; [ | discriminate ].
        eexists [_]. split; [ reflexivity | ]. cbn. now rewrite HQ.
      * exists []. split; [ now rewrite app_nil_r | reflexivity ].
      * destruct HP' as [ HQ | Hq ]; [ | discriminate ].
        eexists [_]. split; [ reflexivity | ]. cbn. now rewrite HQ.
    + exists []. split; [ now rewrite app_nil_r | reflexivity ].
  - unfold bind.
    destruct (Hw (pathJoin dirPath name) (baseUrl ++ name ++ "/")%string
                (subDirBaseUrl_endsWith baseUrl name) c) as [log [H1 Q1]].
    destruct (w _ _ c) as [[ subItems | e ] c1]; cbn in H1; subst c1.
    + exists log. split; [ | exact Q1 ].
      now destruct subItems.
    + exists log. now split.
  - unfold bind.
    destruct (Hw (pathJoin dirPath name) (baseUrl ++ name ++ "/")%string
                (subDirBaseUrl_endsWith baseUrl name) c) as [log [H1 Q1]].
    destruct (w _ _ c) as [[ subItems | e ] c1]; cbn in H1; subst c1.
    + exists log. split; [ | exact Q1 ].
      now destruct subItems.
    + exists log. now split.
  - exists []. split; [ now rewrite app_nil_r | reflexivity ].
Qed.

Lemma quiet_entry (entries : list (string * node)) (name : string)
  (child : node) :
  quiet (Directory entries) = true -> In (name, child) entries ->
  isHidden name = true \/ (readsQuietly name child = true /\ quiet child = true).
Proof.
  cbn [quiet]. intros H Hin. rewrite forallb_forall in H.
  specialize (H _ Hin). cbn [fst snd] in H.
  apply orb_true_iff in H. destruct H as [ H | H ]; [ now left | right ].
  now apply andb_true_iff in H.
Qed.

Lemma generateSidebarItems_logsOnly (Q : logEntry -> bool)
  (lc : string -> string -> Z) (n : node) :
  (forall msg, Q (ConsoleError msg) = true) \/ quiet n = true ->
  forall dirPath baseUrl,
    Str.endsWith baseUrl "/" = true ->
    logsOnly Q (generateSidebarItems lc n dirPath baseUrl).
Proof.
  induction n as [ | content | entries IH | | ] using node_nested_ind;
    intros HP dirPath baseUrl Hb.
  - apply logsOnly_ret.
  - intros c. exists []. split; [ cbn; now rewrite app_nil_r | reflexivity ].
  - rewrite generateSidebarItems_unfold. unfold generateSidebarItemsAt.
    cbn [existsSync statOf negb isDirectory statSync].
    rewrite Hb. cbn [negb].
    eapply logsOnly_bind_returns;
      [ apply returns_ret | apply logsOnly_ret | cbn [isDirectory negb] ].
    eapply logsOnly_bind_returns;
      [ apply returns_ret | apply logsOnly_ret | ].
    assert (Hloop : logsOnly Q
              (forEachAcc (sidebarEntry dirPath baseUrl)
                 (arraySort (entryCompare lc)
                    (decorate (generateSidebarItems lc) (Directory entries)))
                 [])).
    { apply forEachAcc_logsOnly. intros [[name child] w] He acc.
      apply arraySort_In in He. apply decorate_In in He.
      cbn [fst snd] in He. destruct He as [-> Hin].
      rewrite Forall_forall in IH. specialize (IH _ Hin). cbn [snd] in IH.
      destruct HP as [ HQ | Hq ].
      - apply sidebarEntry_logsOnly; [ | now left ].
        intros _ dp b. apply IH. now left.
      - destruct (quiet_entry entries name child Hq Hin) as [ Hh | [Hr Hc] ].
        + apply sidebarEntry_logsOnly; [ congruence | right; now left ].
        + apply sidebarEntry_logsOnly; [ | right; now right ].
          intros _ dp b. apply IH. now right. }
    eapply logsOnly_bind_returns.
    + apply returns_tryCatch. eapply returns_bind; [ apply returns_ret | ].
      apply (sidebarLoop_returns lc entries dirPath baseUrl).
      apply Forall_forall. intros e _ dp b.
      apply generateSidebarItems_returns.
    + eapply logsOnly_tryCatch_returns.
      * eapply returns_bind; [ apply returns_ret | ].
        apply (sidebarLoop_returns lc entries dirPath baseUrl).
        apply Forall_forall. intros e _ dp b.
        apply generateSidebarItems_returns.
      * eapply logsOnly_bind_returns;
          [ apply returns_ret | apply logsOnly_ret | exact Hloop ].
    + cbn [snd fst]. apply logsOnly_ret.
  - destruct HP as [ HQ | Hq ]; [ | discriminate ].
    intros c. cbn -[append]. rewrite Hb. cbn -[append].
    eexists [_]. split; [ reflexivity | ]. cbn. now rewrite HQ.
  - intros c. exists []. split; [ cbn; now rewrite app_nil_r | reflexivity ].
Qed.

Lemma tagEntry_logsOnly (Q : logEntry -> bool)
  (dirPath baseUrl scanRoot : string) (tagsMap : TagsMap)
  (name : string) (child : node) (w : tagWalker) :
  (isHidden name = false -> forall dp b m r, logsOnly Q (w dp b m r)) ->
  (forall msg, Q (ConsoleError msg) = true)
  \/ isHidden name = true \/ readsQuietly name child = true ->
  logsOnly Q (tagEntry dirPath baseUrl scanRoot tagsMap (name, child, w)).
Proof.
  intros Hw HP.
  unfold tagEntry, direntName, direntNode. cbn [fst snd].
  fold (isHidden name). fold (isMarkupName name).
  destruct (isHidden name) eqn:Eh; [ apply logsOnly_ret | ].
  specialize (Hw eq_refl).
  assert (HP' : (forall msg, Q (ConsoleError msg) = true)
                \/ readsQuietly name child = true).
  { destruct HP as [ H | [ H | H ] ]; [ now left | discriminate | now right ]. }
  clear HP.
  destruct child as [ | content | entries | | ];
    try apply Hw; intros c; cbn -[append pathJoin pathRelative].
  - exists []. split; [ now rewrite app_nil_r | reflexivity ].
  - cbn [readsQuietly] in HP'.
    destruct (isMarkupName name); cbn -[append pathJoin pathRelative].
    + destruct content as [ [ | fm ] | ]; cbn -[append pathJoin pathRelative].
      * destruct HP' as [ HQ | Hq ]; [ | discriminate ].
        eexists [_]. split; [ reflexivity | ]. cbn. now rewrite HQ.
      * exists []. split; [ | reflexivity ]. rewrite app_nil_r.
        unfold tryCatch, bind, ret. now destruct (fileTagsOf fm).
      * destruct HP' as [ HQ | Hq ]; [ | discriminate ].
        eexists [_]. split; [ reflexivity | ]. cbn. now rewrite HQ.
    + exists []. split; [ now rewrite app_nil_r | reflexivity ].
  - exists []. split; [ now rewrite app_nil_r | reflexivity ].
Qed.

Lemma scanFilesForTags_logsOnly (Q : logEntry -> bool) (n : node) :
  (forall msg, Q (ConsoleError msg) = true) \/ quiet n = true ->
  forall dirPath baseUrl tagsMap scanRoot,
    logsOnly Q (scanFilesForTags n dirPath baseUrl tagsMap scanRoot).
Proof.
  induction n as [ | content | entries IH | | ] using node_nested_ind;
    intros HP dirPath baseUrl tagsMap scanRoot.
  - apply logsOnly_ret.
  - intros c. exists []. split; [ cbn; now rewrite app_nil_r | reflexivity ].
  - rewrite scanFilesForTags_unfold. unfold scanFilesForTagsAt.
    cbn [existsSync statOf negb isDirectory statSync].
    fold (withTrailingSlash baseUrl).
    eapply logsOnly_bind_returns;
      [ apply returns_ret | apply logsOnly_ret | cbn [isDirectory negb] ].
    assert (Hret : returns
              (bind (readdirSync dirPath (Directory entries)
                       (decorate scanFilesForTags (Directory entries)))
                    (fun listing =>
                       forEachAcc
                         (tagEntry dirPath (withTrailingSlash baseUrl) scanRoot)
                         listing tagsMap))
              (fold_left
                 (tagEntryValue dirPath (withTrailingSlash baseUrl) scanRoot)
                 (decorate scanTags (Directory entries)) tagsMap, None)).
    { eapply returns_bind; [ apply returns_ret | ].
      apply scanLoop_returns.
      apply Forall_forall. intros e _ dp b m r.
      apply scanFilesForTags_returns. }
    eapply logsOnly_bind_returns.
    + apply returns_tryCatch. exact Hret.
    + eapply logsOnly_tryCatch_returns; [ exact Hret | ].
      eapply logsOnly_bind_returns;
        [ apply returns_ret | apply logsOnly_ret | ].
      apply forEachAcc_logsOnly. intros [[name child] w] He acc.
      apply decorate_In in He.
      cbn [fst snd] in He. destruct He as [-> Hin].
      rewrite Forall_forall in IH. specialize (IH _ Hin). cbn [snd] in IH.
      destruct HP as [ HQ | Hq ].
      * apply tagEntry_logsOnly; [ | now left ].
        intros _ dp b m r. apply IH. now left.
      * destruct (quiet_entry entries name child Hq Hin) as [ Hh | [Hr Hc] ].
        -- apply tagEntry_logsOnly; [ congruence | right; now left ].
        -- apply tagEntry_logsOnly; [ | right; now right ].
           intros _ dp b m r. apply IH. now right.
    + cbn [snd fst]. apply logsOnly_ret.
  - destruct HP as [ HQ | Hq ]; [ | discriminate ].
    intros c. cbn -[append].
    eexists [_]. split; [ reflexivity | ]. cbn. now rewrite HQ.
  - intros c. exists []. split; [ cbn; now rewrite app_nil_r | reflexivity ].
Qed.

Lemma topLevelEntry_logsOnly (Q : logEntry -> bool)
  (scanRoot baseUrl : string) (items : list SidebarItem)
  (name : string) (child : node) (w : walker) :
  (isHidden name = false ->
   forall dp b, Str.endsWith b "/" = true -> logsOnly Q (w dp b)) ->
  logsOnly Q (topLevelEntry scanRoot baseUrl items (name, child, w)).
Proof.
  intros Hw.
  unfold topLevelEntry, direntName, direntNode. cbn [fst snd].
  fold (isHidden name).
  destruct (isHidden name) eqn:Eh; [ apply logsOnly_ret | ].
  specialize (Hw eq_refl). intros c.
  destruct child as [ | content | entries | | ];
    cbn -[append pathJoin collapseSlashes].
  - exists []. split; [ now rewrite app_nil_r | reflexivity ].
  - exists []. split; [ now rewrite app_nil_r | reflexivity ].
  - unfold bind.
    destruct (Hw (pathJoin scanRoot name)
                (collapseSlashes (baseUrl ++ name ++ "/"))
                (groupBaseUrl_endsWith baseUrl name) c) as [log [H1 Q1]].
    destruct (w _ _ c) as [[ groupItems | e ] c1]; cbn in H1; subst c1.
    + exists log. split; [ | exact Q1 ]. now destruct groupItems.
    + exists log. now split.
  - unfold bind.
    destruct (Hw (pathJoin scanRoot name)
                (collapseSlashes (baseUrl ++ name ++ "/"))
                (groupBaseUrl_endsWith baseUrl name) c) as [log [H1 Q1]].
    destruct (w _ _ c) as [[ groupItems | e ] c1]; cbn in H1; subst c1.
    + exists log. split; [ | exact Q1 ]. now destruct groupItems.
    + exists log. now split.
  - exists []. split; [ now rewrite app_nil_r | reflexivity ].
Qed.

Lemma generateTagsSidebarGroup_logsOnly (Q : logEntry -> bool)
  (lc : string -> string -> Z) (root : node) (scanRoot baseUrl : string) :
  (forall msg, Q (ConsoleError msg) = true) \/ quiet root = true ->
  logsOnly Q (generateTagsSidebarGroup lc root scanRoot baseUrl).
Proof.
  intros HP. unfold generateTagsSidebarGroup.
  apply logsOnly_bind; [ now apply scanFilesForTags_logsOnly | ].
  intros tagsMap. destruct (Nat.eqb _ 0); apply logsOnly_ret.
Qed.

Lemma logsOnly_tryCatch {A} (Q : logEntry -> bool) (m : M A)
  (h : jsError -> M A) :
  logsOnly Q m -> (forall e, logsOnly Q (h e)) -> logsOnly Q (tryCatch m h).
Proof.
  intros Hm Hh c. unfold tryCatch. destruct (Hm c) as [log1 [H1 Q1]].
  destruct (m c) as [[ a | e ] c1]; cbn in H1; subst c1.
  - now exists log1.
  - destruct (Hh e (c ++ log1)) as [log2 [H2 Q2]].
    exists (log1 ++ log2). rewrite H2, app_assoc. split; [ reflexivity | ].
    now rewrite forallb_app, Q1, Q2.
Qed.

Lemma generateSidebar_logsOnly (Q : logEntry -> bool)
  (lc : string -> string -> Z) (root : node) (scanRoot baseUrl : string)
  (includeTags : bool) :
  (forall msg, Q (ConsoleError msg) = true)
  \/ (quiet root = true /\ exists entries, root = Directory entries) ->
  logsOnly Q (generateSidebar lc root scanRoot baseUrl includeTags).
Proof.
  intros HP. unfold generateSidebar.
  assert (HP' : (forall msg, Q (ConsoleError msg) = true) \/ quiet root = true).
  { destruct HP as [ H | [H _] ]; [ now left | now right ]. }
  eapply logsOnly_bind_returns; [ apply topLevelLoop_returns | | ].
  { apply logsOnly_tryCatch; [ | intros e; apply logsOnly_ret ].
    destruct root as [ | content | entries | | ];
      try (intros c; exists []; split;
           [ cbn; now rewrite app_nil_r | reflexivity ]).
    eapply logsOnly_bind_returns;
      [ apply returns_ret | apply logsOnly_ret | ].
    apply forEachAcc_logsOnly. intros [[name child] w] He acc.
    apply decorate_In in He. cbn [fst snd] in He. destruct He as [-> Hin].
    apply topLevelEntry_logsOnly. intros Eh dp b.
    apply generateSidebarItems_logsOnly.
    destruct HP' as [ HQ | Hq ]; [ now left | right ].
    destruct (quiet_entry entries name child Hq Hin) as [ Hh | [_ Hc] ];
      [ congruence | exact Hc ]. }
  eapply logsOnly_bind.
  { destruct root as [ | content | entries | | ]; cbn [snd fst];
      try apply logsOnly_ret;
      (destruct HP as [ HQ | [_ [entries' Hroot]] ]; [ | discriminate ]);
      (apply logsOnly_bind; [ now apply logsOnly_consoleError | ]);
      intros []; apply logsOnly_ret. }
  intros sidebarItems.
  apply logsOnly_bind; [ | intros; apply logsOnly_ret ].
  destruct includeTags; [ | apply logsOnly_ret ].
  apply logsOnly_bind; [ now apply generateTagsSidebarGroup_logsOnly | ].
  intros [ g | ]; apply logsOnly_ret.
Qed.

(** X13: whatever the content tree, [generateSidebar] returns a model and
    writes nothing but errors to the console: the warning about a base URL
    without its final slash, which the structural walk has, is never
    issued by a walk that [generateSidebar] starts. *)
Theorem generateSidebar_never_warns
  (lc : string -> string -> Z) (root : node) (scanRoot baseUrl : string)
  (includeTags : bool) (c : console) :
  exists model log,
    generateSidebar lc root scanRoot baseUrl includeTags c
    = (Returned model, (c ++ log)%list)
    /\ forallb isErrorEntry log = true.
Proof.
  destruct (generateSidebar_returns lc root scanRoot baseUrl includeTags c)
    as [c' E].
  destruct (generateSidebar_logsOnly isErrorEntry lc root scanRoot baseUrl
              includeTags (or_introl (fun msg => eq_refl)) c)
    as [log [H HQ]].
  rewrite E in H. cbn [snd] in H. subst c'.
  eexists. exists log. split; [ exact E | exact HQ ].
Qed.

Lemma forallb_none {A} (l : list A) :
  forallb (fun _ => false) l = true -> l = [].
Proof. destruct l; [ reflexivity | discriminate ]. Qed.

(** X14: on a content tree in which every entry that is not hidden can be
    statted, every directory can be read and the front matter of every
    markup file can be parsed, [generateSidebar] returns its model and
    writes nothing to the console. *)
Theorem well_formed_tree_logs_nothing
  (lc : string -> string -> Z) (entries : list (string * node))
  (scanRoot baseUrl : string) (includeTags : bool) :
  quiet (Directory entries) = true ->
  exists model,
    forall c,
      generateSidebar lc (Directory entries) scanRoot baseUrl includeTags c
      = (Returned model, c).
Proof.
  intros Hq.
  exists (sidebarValue lc (Directory entries) scanRoot baseUrl includeTags).
  intros c.
  destruct (generateSidebar_returns lc (Directory entries) scanRoot baseUrl
              includeTags c) as [c' E].
  destruct (generateSidebar_logsOnly (fun _ => false) lc (Directory entries)
              scanRoot baseUrl includeTags) with (c := c) as [log [H HQ]].
  { right. split; [ exact Hq | now exists entries ]. }
  rewrite E in H. cbn [snd] in H. subst c'.
  apply forallb_none in HQ. subst log. now rewrite app_nil_r in E.
Qed.

Lemma well_formed_tree_logs_nothing_witness :
  exists model,
    forall c,
      generateSidebar codeUnitCompare (tutorialTree true) "/srv/content" "/"
        true c
      = (Returned model, c).
Proof.
  apply (well_formed_tree_logs_nothing codeUnitCompare).
  vm_compute. reflexivity.
Defined.

Lemma generateSidebarItems_completes_base (lc : string -> string -> Z)
  (entries : list (string * node)) (dirPath baseUrl : string) (c : console) :
  Str.endsWith baseUrl "/" = false ->
  generateSidebarItems lc (Directory entries) dirPath baseUrl c
  = generateSidebarItems lc (Directory entries) dirPath (baseUrl ++ "/")%string
      (c ++ [ConsoleWarn
               ("[Sidebar] Base URL passed to generateSidebarItems should end with a slash: "
                ++ baseUrl)%string]).
Proof.
  intros Hb. rewrite !generateSidebarItems_unfold.
  unfold generateSidebarItemsAt.
  cbn [existsSync statOf negb isDirectory statSync].
  rewrite Hb, endsWith_app. reflexivity.
Qed.

(** X15: called on a directory with a base URL that does not end with a
    slash, the structural walk warns once, before anything else, and then
    goes on as if the slash were there: it returns the items of the walk
    with the completed base URL and writes nothing but errors after the
    warning.  The tag scan completes the base URL in the same way, without
    a warning. *)
Theorem base_url_without_slash_is_completed
  (lc : string -> string -> Z) (entries : list (string * node))
  (dirPath baseUrl : string) :
  Str.endsWith baseUrl "/" = false ->
  (forall c,
      exists items log,
        generateSidebarItems lc (Directory entries) dirPath baseUrl c
        = (Returned items,
           (c ++ ConsoleWarn
                   ("[Sidebar] Base URL passed to generateSidebarItems should end with a slash: "
                    ++ baseUrl)%string :: log)%list)
        /\ forallb isErrorEntry log = true
        /\ returns (generateSidebarItems lc (Directory entries) dirPath
                      (baseUrl ++ "/")%string) items)
  /\ (forall tagsMap scanRoot c,
         scanFilesForTags (Directory entries) dirPath baseUrl tagsMap
           scanRoot c
         = scanFilesForTags (Directory entries) dirPath (baseUrl ++ "/")%string
             tagsMap scanRoot c).
Proof.
  intros Hb. split.
  - intros c. rewrite generateSidebarItems_completes_base by exact Hb.
    set (c1 := (c ++ [ConsoleWarn _])%list).
    destruct (generateSidebarItems_returns lc (Directory entries) dirPath
                (baseUrl ++ "/")%string c1) as [c' E].
    destruct (generateSidebarItems_logsOnly isErrorEntry lc
                (Directory entries) (or_introl (fun msg => eq_refl))
                dirPath (baseUrl ++ "/")%string (endsWith_app baseUrl "/") c1)
      as [log [H HQ]].
    rewrite E in H. cbn [snd] in H. subst c'.
    eexists. exists log. split; [ | split; [ exact HQ | ] ].
    + rewrite E. unfold c1. now rewrite <- app_assoc.
    + apply generateSidebarItems_returns.
  - intros tagsMap scanRoot c. rewrite !scanFilesForTags_unfold.
    unfold scanFilesForTagsAt.
    cbn [existsSync statOf negb isDirectory statSync].
    rewrite Hb, endsWith_app. reflexivity.
Qed.

Lemma base_url_without_slash_is_completed_witness :
  exists items log,
    generateSidebarItems codeUnitCompare
      (Directory [("setup.md", markupFile None TagsAbsent)])
      "/srv/content/guide" "/guide" []
    = (Returned items,
       ([] ++ ConsoleWarn
                ("[Sidebar] Base URL passed to generateSidebarItems should end with a slash: "
                 ++ "/guide")%string :: log)%list)
    /\ forallb isErrorEntry log = true
    /\ returns (generateSidebarItems codeUnitCompare
                  (Directory [("setup.md", markupFile None TagsAbsent)])
                  "/srv/content/guide" ("/guide" ++ "/")%string) items.
Proof.
  apply (base_url_without_slash_is_completed codeUnitCompare
           [("setup.md", markupFile None TagsAbsent)]
           "/srv/content/guide" "/guide").
  vm_compute. reflexivity.
Defined.

(** ** The pages of the tag index are pages of the structure *)

Lemma AllPages_weaken (P P' : TagPageInfo -> Prop) (m : TagsMap) :
  (forall p, P p -> P' p) -> AllPages P m -> AllPages P' m.
Proof.
  intros H Hm tag. eapply Forall_impl; [ exact H | apply Hm ].
Qed.

Lemma fold_addTagPage_AllPages (P : TagPageInfo -> Prop) (page : TagPageInfo)
  (tags : list string) :
  P page ->
  forall m, AllPages P m -> AllPages P (fold_left (addTagPage page) tags m).
Proof.
  intros Hp. induction tags as [ | t tags IH ]; intros m H; [ exact H | ].
  cbn [fold_left]. apply IH. intros k. rewrite pagesOf_addTagPage.
  destruct (String.eqb k (Str.trim t)); [ | apply H ].
  apply pushOnce_Forall; [ exact Hp | apply H ].
Qed.

Lemma PageBelow_in_group (t l g : string) (items : list SidebarItem)
  (col : bool) (container : list SidebarItem) :
  In (Group g items col) container ->
  Exists (PageBelow t l) items ->
  Exists (PageBelow t l) container.
Proof.
  intros Hin H. apply Exists_exists in H. destruct H as [it [Hit Hp]].
  apply Exists_exists. exists (Group g items col).
  split; [ exact Hin | now apply PageBelow_group with it ].
Qed.

Lemma entryItems_in_walk (lc : string -> string -> Z)
  (entries : list (string * node)) (baseUrl name : string) (child : node)
  (it : SidebarItem) :
  In (name, child) entries ->
  In it (entryItems (withTrailingSlash baseUrl)
           (name, child, walkItems lc child)) ->
  In it (walkItems lc (Directory entries) baseUrl).
Proof.
  intros Hin Hit. cbn [walkItems]. apply in_flat_map.
  exists (name, child, walkItems lc child). split; [ | exact Hit ].
  apply arraySort_In. cbn [decorate]. apply in_map_iff.
  now exists (name, child).
Qed.

Lemma scanTags_pages_in_walk (lc : string -> string -> Z) (n : node) :
  forall (P : TagPageInfo -> Prop) dirPath baseUrl tagsMap scanRoot,
    AllPages P tagsMap ->
    AllPages (fun p => P p
                       \/ Exists (PageBelow (text p) (link p))
                            (walkItems lc n baseUrl))
             (scanTags n dirPath baseUrl tagsMap scanRoot).
Proof.
  induction n as [ | content | entries IH | | ] using node_nested_ind;
    intros P dirPath baseUrl tagsMap scanRoot Hm;
    try (eapply AllPages_weaken; [ | exact Hm ]; intros p Hp; now left).
  cbn [scanTags decorate]. rewrite fold_left_map.
  set (W := walkItems lc (Directory entries) baseUrl).
  set (base := withTrailingSlash baseUrl).
  apply (fold_left_preserves
           (AllPages (fun p => P p \/ Exists (PageBelow (text p) (link p)) W))).
  2: { eapply AllPages_weaken; [ | exact Hm ]. intros p Hp. now left. }
  intros m [name child] Hin Hinv. rewrite Forall_forall in IH.
  specialize (IH _ Hin). cbn [snd] in IH.
  unfold tagEntryValue, direntName, direntNode. cbn [fst snd].
  destruct (isHidden name) eqn:Eh; [ exact Hinv | ].
  assert (Hdir : forall found,
             statOf child = Some (mkStats true false) ->
             Exists found (walkItems lc child (base ++ name ++ "/")) ->
             exists g, In (Group g (walkItems lc child (base ++ name ++ "/"))
                             true) W).
  { intros found Hstat Hex. exists (cleanName name).
    apply entryItems_in_walk with name child; [ exact Hin | ].
    unfold entryItems, direntName, direntNode. cbn [fst snd].
    fold base. rewrite Eh, Hstat. cbn [isDirectory].
    destruct (walkItems lc child (base ++ name ++ "/")) as [ | it its ];
      [ inversion Hex | now left ]. }
  destruct child as [ | content | sub | | ]; cbn [statOf isDirectory isFile];
    try exact Hinv.
  - cbn [andb]. destruct (isMarkupName name) eqn:Em; [ | exact Hinv ].
    destruct content as [ [ | fm ] | ]; try exact Hinv.
    destruct (0 <? _)%nat; [ | exact Hinv ].
    apply fold_addTagPage_AllPages; [ | exact Hinv ].
    right. cbn [text link]. apply Exists_exists.
    exists (Leaf (displayText fm name) (getFileLink name base)).
    split; [ | constructor ].
    apply entryItems_in_walk with name (RegularFile (Some (Parsed fm)));
      [ exact Hin | ].
    unfold entryItems, direntName, direntNode. cbn [fst snd].
    fold base. rewrite Eh. cbn [statOf isDirectory isFile andb].
    rewrite Em. now left.
  - eapply AllPages_weaken; [ | apply IH, Hinv ].
    intros p [ Hp | Hp ]; [ exact Hp | right ].
    destruct (Hdir _ eq_refl Hp) as [g Hg].
    eapply PageBelow_in_group; [ exact Hg | exact Hp ].
Qed.

Lemma tagIndex_pages_in_structure (lc : string -> string -> Z)
  (entries : list (string * node)) (scanRoot baseUrl : string) :
  basesAgree (Directory entries) baseUrl = true ->
  AllPages (fun p => IsRootFile (Directory entries) baseUrl p
                     \/ Exists (PageBelow (text p) (link p))
                          (structuralItems lc (Directory entries) baseUrl))
           (tagIndex (Directory entries) scanRoot baseUrl).
Proof.
  intros Hb. unfold tagIndex. cbn [scanTags decorate]. rewrite fold_left_map.
  set (S := structuralItems lc (Directory entries) baseUrl).
  set (base := withTrailingSlash baseUrl).
  apply (fold_left_preserves
           (AllPages (fun p => IsRootFile (Directory entries) baseUrl p
                               \/ Exists (PageBelow (text p) (link p)) S))).
  2: { intros tag. constructor. }
  intros m [name child] Hin Hinv.
  unfold tagEntryValue, direntName, direntNode. cbn [fst snd].
  destruct (isHidden name) eqn:Eh; [ exact Hinv | ].
  assert (Hbase : collapseSlashes (baseUrl ++ name ++ "/")
                  = (base ++ name ++ "/")%string).
  { cbn [basesAgree] in Hb. rewrite forallb_forall in Hb.
    specialize (Hb _ Hin). now apply String.eqb_eq in Hb. }
  assert (Hdir : forall found,
             statOf child = Some (mkStats true false) ->
             Exists found (walkItems lc child (base ++ name ++ "/")) ->
             exists g, In (Group g (walkItems lc child (base ++ name ++ "/"))
                             true) S).
  { intros found Hstat Hex. exists (cleanName name).
    unfold S, structuralItems. apply arraySort_In. apply in_flat_map.
    exists (name, child, walkItems lc child). split.
    - cbn [decorate]. apply in_map_iff. now exists (name, child).
    - unfold topLevelItems, direntName, direntNode. cbn [fst snd].
      rewrite Eh, Hstat, Hbase. cbn [isDirectory].
      destruct (walkItems lc child (base ++ name ++ "/")) as [ | it its ];
        [ inversion Hex | now left ]. }
  destruct child as [ | content | sub | | ]; cbn [statOf isDirectory isFile];
    try exact Hinv.
  - cbn [andb]. destruct (isMarkupName name) eqn:Em; [ | exact Hinv ].
    destruct content as [ [ | fm ] | ]; try exact Hinv.
    destruct (0 <? _)%nat; [ | exact Hinv ].
    apply fold_addTagPage_AllPages; [ | exact Hinv ].
    left. exists name, fm. cbn [text link]. now repeat split.
  - eapply AllPages_weaken;
      [ | apply (scanTags_pages_in_walk lc (Directory sub)), Hinv ].
    intros p [ Hp | Hp ]; [ exact Hp | right ].
    destruct (Hdir _ eq_refl Hp) as [g Hg].
    eapply PageBelow_in_group; [ exact Hg | exact Hp ].
Qed.

(** X16: when the structural walk and the tag scan are given the same base
    URL for the entries at the top of the content root, every page of the
    tag index is a page of the structure: a leaf with the same text and
    the same link lies in the model without tags, unless the page is a
    markup file of the content root itself, which the structure leaves
    out. *)
Theorem tagged_pages_are_pages_of_the_structure
  (lc : string -> string -> Z) (entries : list (string * node))
  (scanRoot baseUrl : string) :
  basesAgree (Directory entries) baseUrl = true ->
  exists items tagsMap,
    returns (generateSidebar lc (Directory entries) scanRoot baseUrl false)
            [("/", items)]
    /\ returns (scanFilesForTags (Directory entries) scanRoot baseUrl []
                  scanRoot) tagsMap
    /\ forall tag page,
         In page (pagesOf tagsMap tag) ->
         IsRootFile (Directory entries) baseUrl page
         \/ Exists (PageBelow (text page) (link page)) items.
Proof.
  intros Hb.
  exists (structuralItems lc (Directory entries) baseUrl).
  exists (tagIndex (Directory entries) scanRoot baseUrl).
  split; [ | split ].
  - pose proof (generateSidebar_returns lc (Directory entries) scanRoot
                  baseUrl false) as H.
    unfold sidebarValue in H. now rewrite app_nil_r in H.
  - apply scanFilesForTags_returns.
  - intros tag page Hin.
    pose proof (tagIndex_pages_in_structure lc entries scanRoot baseUrl Hb tag)
      as H.
    rewrite Forall_forall in H. now apply H.
Qed.

Lemma tagged_pages_are_pages_of_the_structure_witness :
  exists items tagsMap,
    returns (generateSidebar codeUnitCompare (tutorialTree true)
               "/srv/content" "/" false)
            [("/", items)]
    /\ returns (scanFilesForTags (tutorialTree true) "/srv/content" "/" []
                  "/srv/content") tagsMap
    /\ forall tag page,
         In page (pagesOf tagsMap tag) ->
         IsRootFile (tutorialTree true) "/" page
         \/ Exists (PageBelow (text page) (link page)) items.
Proof.
  apply (tagged_pages_are_pages_of_the_structure codeUnitCompare).
  vm_compute. reflexivity.
Defined.

(** ** The base URLs of the two walks at the top of the content root *)

Lemma endsWith_slash_inv (b : string) :
  Str.endsWith b "/" = true -> exists a, b = (a ++ "/")%string.
Proof.
  induction b as [ | c b IH ]; [ discriminate | ].
  cbn [Str.endsWith]. intros H. apply orb_true_iff in H.
  destruct H as [ H | H ].
  - apply String.eqb_eq in H. exists EmptyString. exact H.
  - destruct (IH H) as [a ->]. now exists (String c a).
Qed.

Lemma collapseSlashesFrom_after_slash (a : string) :
  forall inRun rest,
    collapseSlashesFrom inRun ((a ++ "/") ++ rest)
    = (collapseSlashesFrom inRun (a ++ "/")
       ++ collapseSlashesFrom true rest)%string.
Proof.
  induction a as [ | c a IH ]; intros inRun rest.
  - cbn. now destruct inRun.
  - cbn [append collapseSlashesFrom].
    destruct (Ascii.eqb c "/"); destruct inRun; cbn [append];
      now rewrite IH.
Qed.

Lemma collapseSlashesFrom_plain (r : string) :
  Str.forallb (fun c => negb (Ascii.eqb c "/")) r = true ->
  collapseSlashesFrom false (r ++ "/") = (r ++ "/")%string.
Proof.
  induction r as [ | c r IH ]; [ reflexivity | ].
  cbn [Str.forallb append collapseSlashesFrom]. intros H.
  apply andb_true_iff in H. destruct H as [Hc Hr].
  apply negb_true_iff in Hc. rewrite Hc. now rewrite IH.
Qed.

Lemma collapseSlashesFrom_entryName (name : string) :
  isEntryName name = true ->
  collapseSlashesFrom true (name ++ "/") = (name ++ "/")%string.
Proof.
  unfold isEntryName. destruct name as [ | c r ]; [ discriminate | ].
  cbn [Str.isEmpty negb andb Str.forallb append collapseSlashesFrom].
  intros H. apply andb_true_iff in H. destruct H as [Hc Hr].
  apply negb_true_iff in Hc. rewrite Hc.
  now rewrite collapseSlashesFrom_plain.
Qed.

Lemma collapseSlashesFrom_length (s : string) :
  forall inRun,
    (String.length (collapseSlashesFrom inRun s) <= String.length s)%nat.
Proof.
  induction s as [ | c s IH ]; intros inRun; [ apply le_n | ].
  cbn [collapseSlashesFrom].
  destruct (Ascii.eqb c "/"); [ destruct inRun | ]; cbn [String.length].
  - specialize (IH true). lia.
  - specialize (IH true). lia.
  - specialize (IH false). lia.
Qed.

Lemma basesAgree_plain (entries : list (string * node)) (baseUrl : string) :
  Str.endsWith baseUrl "/" = true ->
  collapseSlashes baseUrl = baseUrl ->
  forallb (fun e => isEntryName (fst e)) entries = true ->
  basesAgree (Directory entries) baseUrl = true.
Proof.
  intros Hb Hfix Hnames. cbn [basesAgree]. apply forallb_forall.
  intros [name child] Hin. cbn [fst].
  rewrite forallb_forall in Hnames. specialize (Hnames _ Hin).
  cbn [fst] in Hnames. apply String.eqb_eq.
  unfold withTrailingSlash. rewrite Hb. cbn [negb].
  destruct (endsWith_slash_inv baseUrl Hb) as [a Ha].
  unfold collapseSlashes in *. rewrite Ha in *.
  rewrite collapseSlashesFrom_after_slash, Hfix.
  now rewrite collapseSlashesFrom_entryName.
Qed.

(** X17: at the top of the content root the structure walks a directory
    with the base URL and the directory name joined and their runs of
    slashes collapsed, the tag scan with the base URL completed by a slash
    and followed by the name.  The two are the same when the base URL ends
    with a slash and has no run of slashes and the names are plain; they
    differ for every entry when the base URL does not end with a slash. *)
Theorem top_level_base_urls
  (entries : list (string * node)) (baseUrl : string) :
  (Str.endsWith baseUrl "/" = true ->
   collapseSlashes baseUrl = baseUrl ->
   forallb (fun e => isEntryName (fst e)) entries = true ->
   basesAgree (Directory entries) baseUrl = true)
  /\ (Str.endsWith baseUrl "/" = false ->
      forall name,
        collapseSlashes (baseUrl ++ name ++ "/")
        <> (withTrailingSlash baseUrl ++ name ++ "/")%string).
Proof.
  split; [ apply basesAgree_plain | ].
  - intros Hb name H. unfold withTrailingSlash in H. rewrite Hb in H.
    cbn [negb] in H.
    pose proof (collapseSlashesFrom_length (baseUrl ++ name ++ "/") false)
      as Hlen.
    unfold collapseSlashes in H. rewrite H in Hlen.
    rewrite !length_append in Hlen. cbn [String.length] in Hlen. lia.
Qed.

Lemma top_level_base_urls_witness :
  basesAgree (tutorialTree true) "/" = true
  /\ collapseSlashes ("/blog" ++ "2025" ++ "/")
     <> (withTrailingSlash "/blog" ++ "2025" ++ "/")%string.
Proof.
  destruct (top_level_base_urls
              [("2025", Directory
                          [("june", Directory
                              [("advanced.md",
                                markupFile (Some "Advanced")
                                  (TagsString "tutorial"))]);
                           ("may", Directory
                              [("intro.md",
                                markupFile (Some "Intro")
                                  (TagsString "tutorial"))])])] "/")
    as [H1 _].
  destruct (top_level_base_urls [] "/blog") as [_ H2].
  split.
  - apply H1; vm_compute; reflexivity.
  - apply H2. vm_compute. reflexivity.
Defined.

(** ** The sidebar of the site configuration *)

Lemma PageBelow_LeafBelow (t l : string) (it : SidebarItem) :
  PageBelow t l it -> LeafBelow l it.
Proof.
  induction 1 as [ | g items col it Hin _ IH ]; [ constructor | ].
  now apply LeafBelow_group with it.
Qed.


(** * The navigation model as the caller gets it *)

(** ** Sibling links in the whole model *)

Lemma getFileLink_linkKey (name1 name2 baseUrl : string) :
  getFileLink name1 baseUrl = getFileLink name2 baseUrl ->
  linkKey name1 = linkKey name2.
Proof.
  unfold getFileLink, linkKey.
  destruct (isIndexOrReadme (fileNameWithoutExtension name1));
    destruct (isIndexOrReadme (fileNameWithoutExtension name2)); intros H.
  - reflexivity.
  - symmetry. now apply indexLink_not_below with baseUrl.
  - apply indexLink_not_below with baseUrl. now symmetry.
  - now apply append_inj_l with baseUrl.
Qed.

Lemma nodupStrings_map_reflect {A} (f g : A -> string) (l : list A) :
  (forall x y, g x = g y -> f x = f y) ->
  nodupStrings (map f l) = true -> nodupStrings (map g l) = true.
Proof.
  intros Hfg. induction l as [ | a l IH ]; [ reflexivity | ].
  cbn [map nodupStrings]. intros H.
  apply andb_true_iff in H. destruct H as [Ha Hl].
  rewrite (IH Hl), andb_true_r.
  apply negb_true_iff in Ha. apply negb_true_iff.
  destruct (existsb (String.eqb (g a)) (map g l)) eqn:E; [ | reflexivity ].
  apply existsb_exists in E. destruct E as [s [Hin Hs]].
  apply String.eqb_eq in Hs. apply in_map_iff in Hin.
  destruct Hin as [y [Hy Hiny]]. subst s.
  rewrite <- Ha. symmetry. apply existsb_exists.
  exists (f y). split; [ now apply in_map | ].
  apply String.eqb_eq. apply Hfg. now symmetry.
Qed.

Lemma namesDistinct_linksDistinct (n : node) :
  namesDistinct n = true -> forall baseUrl, linksDistinct n baseUrl = true.
Proof.
  induction n as [ | content | entries IH | | ] using node_nested_ind;
    intros Hn baseUrl; try reflexivity.
  cbn [namesDistinct] in Hn. cbn [linksDistinct].
  apply andb_true_iff in Hn. destruct Hn as [Hkeys Hsub].
  apply andb_true_iff. split.
  - apply (nodupStrings_map_reflect (fun e => linkKey (fst e))); [ | exact Hkeys ].
    intros x y. apply getFileLink_linkKey.
  - apply forallb_forall. intros e He.
    rewrite forallb_forall in Hsub. specialize (Hsub e He).
    rewrite Forall_forall in IH. specialize (IH e He).
    apply orb_true_iff in Hsub. apply orb_true_iff.
    destruct Hsub as [ Hh | Hd ]; [ now left | right; now apply IH ].
Qed.

Lemma namesDistinctBelow_linksDistinctBelow (root : node) (baseUrl : string) :
  namesDistinctBelow root = true -> linksDistinctBelow root baseUrl = true.
Proof.
  destruct root as [ | content | entries | | ]; try reflexivity.
  cbn [namesDistinctBelow linksDistinctBelow]. intros H.
  apply forallb_forall. intros e He.
  rewrite forallb_forall in H. specialize (H e He).
  apply orb_true_iff in H. apply orb_true_iff.
  destruct H as [ Hh | Hd ]; [ now left | right ].
  now apply namesDistinct_linksDistinct.
Qed.

(** C1, as the code has it: the model with the tags is the model without
    them followed by the group that [generateTagsSidebarGroup] returns, if
    it returns one; no item at the top is a leaf; in the Tags group and in
    every group below it no two sibling leaves carry the same link; and
    the same holds in every structural group provided that, in every
    directory walked, no two markup files have the same name without its
    extension and at most one of them is an index or readme file. *)
Theorem sibling_links_are_unique
  (lc : string -> string -> Z) (root : node) (scanRoot baseUrl : string) :
  exists structural tagPart,
    returns (generateSidebar lc root scanRoot baseUrl false)
            [("/", structural)]
    /\ returns (generateTagsSidebarGroup lc root scanRoot baseUrl)
               (hd_error tagPart)
    /\ (List.length tagPart <= 1)%nat
    /\ returns (generateSidebar lc root scanRoot baseUrl true)
               [("/", (structural ++ tagPart)%list)]
    /\ leafLinks (structural ++ tagPart) = []
    /\ Forall LinksUnique tagPart
    /\ (namesDistinctBelow root = true -> Forall LinksUnique structural).
Proof.
  exists (structuralItems lc root baseUrl),
         (tagsItems lc root scanRoot baseUrl).
  destruct (tagsItems_links_unique lc root scanRoot baseUrl) as [Hg Hu].
  split; [ | split; [ | split; [ | split; [ | split; [ | split ] ] ] ] ].
  - pose proof (generateSidebar_returns lc root scanRoot baseUrl false) as H.
    unfold sidebarValue in H. now rewrite app_nil_r in H.
  - pose proof (generateTagsSidebarGroup_returns lc root scanRoot baseUrl)
      as H.
    now destruct (tagsItems lc root scanRoot baseUrl).
  - destruct (tagsItems_shape lc root scanRoot baseUrl) as [-> | [g ->]];
      cbn; auto.
  - apply (generateSidebar_returns lc root scanRoot baseUrl true).
  - apply leafLinks_groups, Forall_app. split.
    + apply structuralItems_groups.
    + exact Hg.
  - exact Hu.
  - intros Hn. apply structuralItems_links_unique.
    now apply namesDistinctBelow_linksDistinctBelow.
Qed.

Lemma sibling_links_are_unique_witness :
  exists structural tagPart,
    returns (generateSidebar codeUnitCompare looseFileTree "/srv/content" "/"
               false)
            [("/", structural)]
    /\ returns (generateTagsSidebarGroup codeUnitCompare looseFileTree
                  "/srv/content" "/")
               (hd_error tagPart)
    /\ (List.length tagPart <= 1)%nat
    /\ returns (generateSidebar codeUnitCompare looseFileTree "/srv/content"
                  "/" true)
               [("/", (structural ++ tagPart)%list)]
    /\ leafLinks (structural ++ tagPart) = []
    /\ Forall LinksUnique tagPart
    /\ Forall LinksUnique structural.
Proof.
  destruct (sibling_links_are_unique codeUnitCompare looseFileTree
              "/srv/content" "/")
    as [structural [tagPart [H1 [H2 [H3 [H4 [H5 [H6 H7]]]]]]]].
  exists structural, tagPart.
  repeat split; try assumption. apply H7. vm_compute. reflexivity.
Defined.

(** ** The sidebar of the site configuration *)

(** X18: the sidebar of the site configuration is what [generateSidebar]
    returns without the tags, followed by the Tags group if there is one.
    For a content root whose entries have plain names, every link found
    under the Tags group is a link of the structure before it, or the link
    of a markup file that lies in the content root itself; and the
    structure has no leaf at its top. *)
Theorem site_tag_links_are_structure_links
  (lc : string -> string -> Z) (entries : list (string * node))
  (contentRoot : string) :
  forallb (fun e => isEntryName (fst e)) entries = true ->
  exists structure tagPart,
    returns (generateSidebar lc (Directory entries) contentRoot
               contentBaseUrl false)
            [("/", structure)]
    /\ returns (generateTagsSidebarGroup lc (Directory entries) contentRoot
                  contentBaseUrl)
               (hd_error tagPart)
    /\ (List.length tagPart <= 1)%nat
    /\ returns (siteSidebar lc (Directory entries) contentRoot)
               [("/", (structure ++ tagPart)%list)]
    /\ Forall (fun it => hasItems it = true) structure
    /\ forall l,
         Exists (LeafBelow l) tagPart ->
         Exists (LeafBelow l) structure
         \/ exists name fm,
              In (name, RegularFile (Some (Parsed fm))) entries
              /\ l = getFileLink name contentBaseUrl.
Proof.
  intros Hnames.
  assert (Hb : basesAgree (Directory entries) contentBaseUrl = true).
  { apply basesAgree_plain; [ reflexivity | reflexivity | exact Hnames ]. }
  exists (structuralItems lc (Directory entries) contentBaseUrl).
  exists (tagsItems lc (Directory entries) contentRoot contentBaseUrl).
  split; [ | split; [ | split; [ | split; [ | split ] ] ] ].
  - pose proof (generateSidebar_returns lc (Directory entries) contentRoot
                  contentBaseUrl false) as H.
    unfold sidebarValue in H. now rewrite app_nil_r in H.
  - pose proof (generateTagsSidebarGroup_returns lc (Directory entries)
                  contentRoot contentBaseUrl) as H.
    now destruct (tagsItems lc (Directory entries) contentRoot contentBaseUrl).
  - destruct (tagsItems_shape lc (Directory entries) contentRoot
                contentBaseUrl) as [-> | [g ->]]; cbn; auto.
  - apply (generateSidebar_returns lc (Directory entries) contentRoot
             contentBaseUrl true).
  - apply structuralItems_groups.
  - intros l Hl. unfold tagsItems in Hl.
    set (m := tagIndex (Directory entries) contentRoot contentBaseUrl) in *.
    destruct (Nat.eqb (List.length m) 0); [ inversion Hl | ].
    inversion Hl as [ x xs Hx | x xs Hxs ]; subst; [ | inversion Hxs ].
    apply LeafBelow_group_Exists in Hx.
    apply Exists_exists in Hx. destruct Hx as [g [Hg Hlg]].
    apply in_map_iff in Hg. destruct Hg as [tag [<- _]].
    unfold tagGroup in Hlg. fold (pagesOf m tag) in Hlg.
    apply LeafBelow_group_Exists in Hlg.
    apply fold_insertTagPage_only_inserts in Hlg.
    destruct Hlg as [ Hnil | [page [Hpage <-]] ]; [ inversion Hnil | ].
    pose proof (tagIndex_pages_in_structure lc entries contentRoot
                  contentBaseUrl Hb tag) as Hall.
    rewrite Forall_forall in Hall.
    destruct (Hall page Hpage) as [ [name [fm [Hin [Hlink _]]]] | Hex ].
    + right. exists name, fm. split; [ exact Hin | exact Hlink ].
    + left. apply Exists_exists in Hex. destruct Hex as [it [Hit Hp]].
      apply Exists_exists. exists it.
      split; [ exact Hit | now apply PageBelow_LeafBelow with (text page) ].
Qed.

Lemma site_tag_links_are_structure_links_witness :
  exists structure tagPart,
    returns (generateSidebar codeUnitCompare looseFileTree "/srv/content"
               contentBaseUrl false)
            [("/", structure)]
    /\ returns (generateTagsSidebarGroup codeUnitCompare looseFileTree
                  "/srv/content" contentBaseUrl)
               (hd_error tagPart)
    /\ (List.length tagPart <= 1)%nat
    /\ returns (siteSidebar codeUnitCompare looseFileTree "/srv/content")
               [("/", (structure ++ tagPart)%list)]
    /\ Forall (fun it => hasItems it = true) structure
    /\ forall l,
         Exists (LeafBelow l) tagPart ->
         Exists (LeafBelow l) structure
         \/ exists name fm,
              In (name, RegularFile (Some (Parsed fm)))
                 (match looseFileTree with
                  | Directory entries => entries
                  | _ => []
                  end)
              /\ l = getFileLink name contentBaseUrl.
Proof.
  apply (site_tag_links_are_structure_links codeUnitCompare).
  vm_compute. reflexivity.
Defined.

(** ** Markup files of the content root itself *)






















(** ** Failures of single entries *)





(** ** The directory named index *)

(** C5 fails as stated: the readme file of a directory named index at the
    top of the content root is not the index file of the content root,
    yet its link is the root marker and not the base URL of its
    directory. *)
Lemma readme_of_the_index_directory_resolves_to_the_root :
  getFileLink "readme.md" "/index/" = "/"
  /\ getFileLink "readme.md" "/index/" <> "/index/"
  /\ generateSidebar codeUnitCompare indexDirectoryTree "/srv/content" "/"
                     true []
     = (Returned [("/", [Group "Index" [Leaf "Readme" "/"] true])], []).
Proof.
  split; [ vm_compute; reflexivity | ].
  split; [ vm_compute; discriminate | vm_compute; reflexivity ].
Qed.
